(** * The markdown viewer pipeline of [js/markdown-viewer.js]

    A shallow embedding of the client-side rendering pipeline
    (fetch, render, highlight, diagram conversion, table styling,
    typesetting trigger, table-of-contents synthesis) and the properties
    of it that the specification states. *)

From Stdlib Require Import NArith String Ascii List Bool Lia DecimalString.
From stdpp Require Import base list gmap strings sorting.

Set Warnings "-register-all".

Local Open Scope string_scope.
Local Open Scope list_scope.
Local Open Scope N_scope.

(* ===================================================================== *)
(** ** JavaScript strings

    A JavaScript string is a sequence of UTF-16 code units.  The regular
    expressions of the viewer carry no [u] flag, so they work one code
    unit at a time. *)
(* ===================================================================== *)

Abbreviation jsstring := (list N).

(** A literal of the source, all of them ASCII. *)
Definition str (s : string) : jsstring :=
  map N_of_ascii (list_ascii_of_string s).

(** [\s] of a JavaScript regular expression, which is also the set that
    [String.prototype.trim] removes: WhiteSpace and LineTerminator. *)
Definition is_space (c : N) : bool :=
  ((9 <=? c) && (c <=? 13)) || (c =? 32) || (c =? 160) || (c =? 5760)
  || ((8192 <=? c) && (c <=? 8202)) || (c =? 8232) || (c =? 8233)
  || (c =? 8239) || (c =? 8287) || (c =? 12288) || (c =? 65279).

Definition is_digit (c : N) : bool := (48 <=? c) && (c <=? 57).
Definition is_upper (c : N) : bool := (65 <=? c) && (c <=? 90).
Definition is_lower (c : N) : bool := (97 <=? c) && (c <=? 122).
Definition is_alnum (c : N) : bool := is_digit c || is_upper c || is_lower c.

Definition underscore : N := 95.
Definition hyphen : N := 45.

(** [\w] is [[A-Za-z0-9_]]. *)
Definition is_word (c : N) : bool := is_alnum c || (c =? underscore).

(** The complement of the class [[^\w-]]: what the second [replace] keeps. *)
Definition is_word_or_hyphen (c : N) : bool := is_word c || (c =? hyphen).

Fixpoint trimStart (s : jsstring) : jsstring :=
  match s with
  | [] => []
  | c :: s' => if is_space c then trimStart s' else s
  end.

Fixpoint trimEnd (s : jsstring) : jsstring :=
  match s with
  | [] => []
  | c :: s' =>
      match trimEnd s' with
      | [] => if is_space c then [] else [c]
      | r => c :: r
      end
  end.

(** [s.trim()] *)
Definition trim (s : jsstring) : jsstring := trimEnd (trimStart s).

(** [s.replace(/\s+/g, "-")]: every maximal run of whitespace becomes one
    hyphen.  [in_run] tells that the previous code unit belonged to the
    match being consumed. *)
Fixpoint replace_space_runs (in_run : bool) (s : jsstring) : jsstring :=
  match s with
  | [] => []
  | c :: s' =>
      if is_space c
      then (if in_run then replace_space_runs true s'
            else hyphen :: replace_space_runs true s')
      else c :: replace_space_runs false s'
  end.

(** [s.replace(/[^\w-]/g, "")] *)
Definition remove_non_word (s : jsstring) : jsstring :=
  filter (fun c => is_word_or_hyphen c = true) s.

(** [s.toLowerCase()].  The viewer lowercases after the second [replace],
    so the receiver holds only code units of [[A-Za-z0-9_-]]
    ([remove_non_word_ascii] below); on those the Unicode case mapping is
    the ASCII one. *)
Definition lower_unit (c : N) : N := if is_upper c then c + 32 else c.
Definition toLowerCase (s : jsstring) : jsstring := map lower_unit s.

(** The identifier derived from a heading's text (lines 95-99):
    [h.textContent.trim().replace(/\s+/g, "-").replace(/[^\w-]/g, "").toLowerCase()] *)
Definition slugify (text : jsstring) : jsstring :=
  toLowerCase (remove_non_word (replace_space_runs false (trim text))).

(** *** The slug as the specification words it *)

Fixpoint collapse_spaces (in_run : bool) (s : jsstring) : jsstring :=
  match s with
  | [] => []
  | c :: s' =>
      if is_space c
      then (if in_run then collapse_spaces true s'
            else hyphen :: collapse_spaces true s')
      else c :: collapse_spaces false s'
  end.

(** "lowercase, whitespace collapsed to a single separator, characters
    outside an alphanumeric-plus-separator set stripped": nothing is
    trimmed and the underscore is not in the set. *)
Definition spec_slug (text : jsstring) : jsstring :=
  toLowerCase
    (filter (fun c => (is_alnum c || (c =? hyphen)) = true)
            (collapse_spaces false text)).

(** The words of a text: its maximal runs of non-whitespace code units. *)
Fixpoint words (s : jsstring) : list jsstring :=
  match s with
  | [] => []
  | c :: s' =>
      if is_space c then words s'
      else match s' with
           | [] => [[c]]
           | c' :: _ =>
               if is_space c' then [c] :: words s'
               else match words s' with
                    | w :: ws => (c :: w) :: ws
                    | [] => [[c]]
                    end
           end
  end.

Fixpoint join_hyphen (ws : list jsstring) : jsstring :=
  match ws with
  | [] => []
  | [w] => w
  | w :: ws' => w ++ hyphen :: join_hyphen ws'
  end.

(** The slug in words that fit the code: the words of the text joined by
    one hyphen each, then every code unit outside [[A-Za-z0-9_-]] removed,
    then lowercased. *)
Definition word_slug (text : jsstring) : jsstring :=
  toLowerCase (remove_non_word (join_hyphen (words text))).

(* ===================================================================== *)
(** ** The document tree

    Elements carry what the viewer reads or writes: the local name, the
    reflected [id], the class list, the inline style (by CSSOM property
    name, as the source assigns it, the values as written) and [href]. *)
(* ===================================================================== *)

Record element := mkElement {
  localName : string;
  el_id : jsstring;
  classList : list string;
  style : gmap string string;
  href : jsstring
}.

Inductive node :=
| Text (data : jsstring)
| Element (e : element) (childNodes : list node).

Definition children (n : node) : list node :=
  match n with
  | Text _ => []
  | Element _ cs => cs
  end.

Definition is_element (n : node) : bool :=
  match n with
  | Text _ => false
  | Element _ _ => true
  end.

(** [document.createElement(tag)] *)
Definition createElement (tag : string) : element :=
  {| localName := tag; el_id := []; classList := []; style := ∅; href := [] |}.

(** [n.textContent] (getter): the text of all descendants, in order. *)
Fixpoint textContent (n : node) : jsstring :=
  match n with
  | Text d => d
  | Element _ cs => concat (map textContent cs)
  end.

(** [n.textContent = s] (setter): one text node, none for the empty string. *)
Definition set_textContent (s : jsstring) : list node :=
  match s with
  | [] => []
  | _ => [Text s]
  end.

(** [e.classList.add(c)] *)
Definition classList_add (c : string) (e : element) : element :=
  {| localName := localName e; el_id := el_id e;
     classList := if existsb (String.eqb c) (classList e)
                  then classList e else classList e ++ [c];
     style := style e; href := href e |}.

(** The longhand properties that a property stands for: the property
    itself, unless it is a shorthand.  The table has the shorthands that
    share a longhand with a property the viewer assigns ([border],
    [margin], [padding], [backgroundColor]); [all] is apart. *)
Definition longhands (k : string) : list string :=
  if String.eqb k "border" then
    [ "borderTopWidth"; "borderRightWidth"; "borderBottomWidth"; "borderLeftWidth";
      "borderTopStyle"; "borderRightStyle"; "borderBottomStyle"; "borderLeftStyle";
      "borderTopColor"; "borderRightColor"; "borderBottomColor"; "borderLeftColor";
      "borderImageSource"; "borderImageSlice"; "borderImageWidth";
      "borderImageOutset"; "borderImageRepeat" ]
  else if String.eqb k "borderTop" then
    [ "borderTopWidth"; "borderTopStyle"; "borderTopColor" ]
  else if String.eqb k "borderRight" then
    [ "borderRightWidth"; "borderRightStyle"; "borderRightColor" ]
  else if String.eqb k "borderBottom" then
    [ "borderBottomWidth"; "borderBottomStyle"; "borderBottomColor" ]
  else if String.eqb k "borderLeft" then
    [ "borderLeftWidth"; "borderLeftStyle"; "borderLeftColor" ]
  else if String.eqb k "borderWidth" then
    [ "borderTopWidth"; "borderRightWidth"; "borderBottomWidth"; "borderLeftWidth" ]
  else if String.eqb k "borderStyle" then
    [ "borderTopStyle"; "borderRightStyle"; "borderBottomStyle"; "borderLeftStyle" ]
  else if String.eqb k "borderColor" then
    [ "borderTopColor"; "borderRightColor"; "borderBottomColor"; "borderLeftColor" ]
  else if String.eqb k "borderImage" then
    [ "borderImageSource"; "borderImageSlice"; "borderImageWidth";
      "borderImageOutset"; "borderImageRepeat" ]
  else if String.eqb k "margin" then
    [ "marginTop"; "marginRight"; "marginBottom"; "marginLeft" ]
  else if String.eqb k "padding" then
    [ "paddingTop"; "paddingRight"; "paddingBottom"; "paddingLeft" ]
  else if String.eqb k "background" then
    [ "backgroundImage"; "backgroundPositionX"; "backgroundPositionY"; "backgroundSize";
      "backgroundRepeat"; "backgroundOrigin"; "backgroundClip"; "backgroundAttachment";
      "backgroundColor" ]
  else if String.eqb k "backgroundPosition" then
    [ "backgroundPositionX"; "backgroundPositionY" ]
  else [k].

(** [all] stands for every property but these two. *)
Definition within_all (k : string) : bool :=
  negb (String.eqb k "direction") && negb (String.eqb k "unicodeBidi").

(** [k] and [j] have a longhand in common: a write of one changes what
    the other reads. *)
Definition overlaps (k j : string) : bool :=
  if String.eqb k "all" then String.eqb j "all" || within_all j
  else if String.eqb j "all" then within_all k
  else existsb (fun l => existsb (String.eqb l) (longhands j)) (longhands k).

(** [e.style.k = v].  The inline style holds, by property name, the
    values as they were written: a write of [k] sets the longhands of
    [k], so it takes the place of what was written before under [k] and
    under any name that has a longhand in common with [k]. *)
Definition set_style (k v : string) (e : element) : element :=
  {| localName := localName e; el_id := el_id e; classList := classList e;
     style := <[k := v]> (filter (fun kv => overlaps k (fst kv) = false) (style e));
     href := href e |}.

(** [e.id = v] *)
Definition set_id (v : jsstring) (e : element) : element :=
  {| localName := localName e; el_id := v; classList := classList e;
     style := style e; href := href e |}.

(** [e.href = v] *)
Definition set_href (v : jsstring) (e : element) : element :=
  {| localName := localName e; el_id := el_id e; classList := classList e;
     style := style e; href := v |}.

(** *** Addresses

    A node below a parent is addressed by the child indices that lead to
    it.  The viewer never inserts or removes a sibling, so an address
    taken by [querySelectorAll] stays the address of the same node for as
    long as no ancestor of it is replaced. *)

Abbreviation path := (list nat).

Fixpoint node_at (ns : list node) (p : path) : option node :=
  match p with
  | [] => None
  | i :: p' =>
      match ns !! i with
      | None => None
      | Some n =>
          match p' with
          | [] => Some n
          | _ :: _ => node_at (children n) p'
          end
      end
  end.

Fixpoint alter_at (f : node -> node) (p : path) (ns : list node) : list node :=
  match p with
  | [] => ns
  | i :: p' =>
      alter (fun n =>
               match p' with
               | [] => f n
               | _ :: _ =>
                   match n with
                   | Text _ => n
                   | Element e cs => Element e (alter_at f p' cs)
                   end
               end) i ns
  end.

(** Writing a property of the element at [p]. *)
Definition modify_at (f : element -> element) (p : path) (ns : list node) : list node :=
  alter_at (fun n => match n with
                     | Text _ => n
                     | Element e cs => Element (f e) cs
                     end) p ns.

Definition element_at (ns : list node) (p : path) : option element :=
  match node_at ns p with
  | Some (Element e _) => Some e
  | _ => None
  end.

Definition children_at (ns : list node) (p : path) : list node :=
  match node_at ns p with
  | Some n => children n
  | None => []
  end.

Definition textContent_at (ns : list node) (p : path) : jsstring :=
  match node_at ns p with
  | Some n => textContent n
  | None => []
  end.

Fixpoint is_prefix (q p : path) : bool :=
  match q, p with
  | [], _ => true
  | _ :: _, [] => false
  | i :: q', j :: p' => Nat.eqb i j && is_prefix q' p'
  end.

(** *** Selectors

    An element found in the tree, with what a selector may look at: its
    position among the element children of its parent (from 1, as
    [:nth-child] counts) and its ancestors, nearest first. *)

Record located := mkLocated {
  loc_path : path;
  loc_elem : element;
  loc_index : nat;
  loc_ancestors : list (element * nat)
}.

Definition push (i : nat) (l : located) : located :=
  {| loc_path := i :: loc_path l; loc_elem := loc_elem l;
     loc_index := loc_index l; loc_ancestors := loc_ancestors l |}.

(** The children [l] of one parent, from child index [i] on, [k] element
    siblings being before them; [W] walks one child. *)
Fixpoint walk_children (W : nat -> node -> list located) (i k : nat)
    (l : list node) : list located :=
  match l with
  | [] => []
  | c :: l' =>
      let k' := if is_element c then S k else k in
      map (push i) (W k' c) ++ walk_children W (S i) k' l'
  end.

(** The element [n] and its descendants in document order. *)
Fixpoint walk (anc : list (element * nat)) (idx : nat) (n : node) : list located :=
  match n with
  | Text _ => []
  | Element e cs =>
      {| loc_path := []; loc_elem := e; loc_index := idx; loc_ancestors := anc |}
      :: walk_children (walk ((e, idx) :: anc)) 0 0 cs
  end.

(** The descendants of a parent whose children are [cs]. *)
Definition descendants (anc : list (element * nat)) (cs : list node) : list located :=
  walk_children (walk anc) 0 0 cs.

(** A compound selector [tag], [tag.class] or [tag:nth-child(even)]. *)
Record compound := mkCompound {
  sel_tag : string;
  sel_class : option string;
  sel_nth_child_even : bool
}.

(** A complex selector: a compound, possibly after a descendant combinator. *)
Record complex := mkComplex {
  sel_ancestor : option compound;
  sel_subject : compound
}.

Definition matches_compound (c : compound) (x : element * nat) : bool :=
  String.eqb (localName (fst x)) (sel_tag c)
  && match sel_class c with
     | None => true
     | Some k => existsb (String.eqb k) (classList (fst x))
     end
  && (if sel_nth_child_even c then Nat.even (snd x) else true).

Definition matches_complex (s : complex) (l : located) : bool :=
  matches_compound (sel_subject s) (loc_elem l, loc_index l)
  && match sel_ancestor s with
     | None => true
     | Some a => existsb (matches_compound a) (loc_ancestors l)
     end.

(** A selector list [s1, s2, ...]. *)
Definition matches (s : list complex) (l : located) : bool :=
  existsb (fun c => matches_complex c l) s.

(** [parent.querySelectorAll(s)], where [cs] are the children of [parent]
    and [anc] is [parent] with its own ancestors. *)
Definition querySelectorAll (anc : list (element * nat)) (s : list complex)
    (cs : list node) : list located :=
  List.filter (matches s) (descendants anc cs).

Definition by_tag (t : string) : complex :=
  {| sel_ancestor := None;
     sel_subject := {| sel_tag := t; sel_class := None; sel_nth_child_even := false |} |}.

(** ['pre code.language-mermaid'] *)
Definition sel_mermaid : list complex :=
  [ {| sel_ancestor := Some {| sel_tag := "pre"; sel_class := None; sel_nth_child_even := false |};
       sel_subject := {| sel_tag := "code"; sel_class := Some "language-mermaid";
                         sel_nth_child_even := false |} |} ].

(** ['table'] *)
Definition sel_table : list complex := [ by_tag "table" ].

(** ['th, td'] *)
Definition sel_cells : list complex := [ by_tag "th"; by_tag "td" ].

(** ['tr:nth-child(even)'] *)
Definition sel_even_rows : list complex :=
  [ {| sel_ancestor := None;
       sel_subject := {| sel_tag := "tr"; sel_class := None; sel_nth_child_even := true |} |} ].

(** ["h1, h2, h3"] *)
Definition sel_headings : list complex := [ by_tag "h1"; by_tag "h2"; by_tag "h3" ].

(* ===================================================================== *)
(** ** What the viewer calls and what it acts on *)
(* ===================================================================== *)

(** A thrown value or a rejection reason: an [Error] object. *)
Record error := mkError {
  err_name : jsstring;
  err_message : jsstring
}.

(** [new Error(msg)] *)
Definition Error (msg : jsstring) : error :=
  {| err_name := str "Error"; err_message := msg |}.

(** The string a template literal makes of an error:
    [Error.prototype.toString]. *)
Definition error_toString (e : error) : jsstring :=
  match err_name e, err_message e with
  | [], m => m
  | n, [] => n
  | n, m => n ++ str ": " ++ m
  end.

(** The string a template literal makes of [res.status]. *)
Definition number_toString (n : N) : jsstring :=
  str (NilEmpty.string_of_uint (N.to_uint n)).

(** A [Response]: [res.ok], [res.status] and the outcome of [res.text()]. *)
Record response := mkResponse {
  ok : bool;
  status : N;
  text : error + jsstring
}.

(** The globals of the page that the viewer calls.  Each is a function of
    what it is given; a call that throws gives the thrown error.
    [parseHTML] is the parser behind the [innerHTML] setter.
    [hljs_highlightAll] gets and returns the children of the render
    target.  [mermaid.run] and [MathJax.typesetPromise] do their work
    later, outside the call; only whether the call throws is theirs
    here. *)
Record externals := mkExternals {
  fetch : option jsstring -> error + response;
  marked_parse : jsstring -> error + jsstring;
  parseHTML : jsstring -> list node;
  hljs_highlightAll : list node -> error + list node;
  window_mermaid : bool;
  mermaid_initialize : option error;
  mermaid_run : list node -> option error;
  window_MathJax : bool;
  MathJax_typesetPromise : list node -> option error
}.

Inductive console_message :=
| LogTocStart
| WarnNoTocAuto
| LogFoundTocAuto
| WarnNoContainer
| LogFoundContainer
| WarnNoTocNav
| LogFoundTocNav
| LogHeadingCount (n : nat)
| LogHeading (number : nat) (text id : jsstring)
| LogTocDone (n : nat)
| WarnTocSkipped
| ConsoleError (e : error).

(** What the viewer does that can be seen from outside, in order. *)
Inductive event :=
| Fetch (file : option jsstring)
| MarkedParse (md : jsstring)
| HighlightAll (fragment : list node)
| MermaidInitialize
| MermaidRun (fragment : list node)
| TypesetPromise (fragment : list node)
| Console (m : console_message).

(** [#markdown-container]: its [data-file] attribute and its children.
    Neither it nor an ancestor of it is a [pre] element. *)
Record render_target := mkTarget {
  dataset_file : option jsstring;
  fragment : list node
}.

(** The page: the three elements the viewer looks up by id (they lie
    outside each other), and the events so far. *)
Record page := mkPage {
  markdown_container : option render_target;
  toc_content_auto : bool;
  TableOfContents : option (list node);
  events : list event
}.

(** *** A computation that may throw, on the page *)

Definition M (A : Type) : Type := page -> (error + A) * page.

Definition ret {A} (a : A) : M A := fun pg => (inr a, pg).

Definition bind {A B} (m : M A) (k : A -> M B) : M B :=
  fun pg =>
    match m pg with
    | (inl e, pg') => (inl e, pg')
    | (inr a, pg') => k a pg'
    end.

Definition throw {A} (e : error) : M A := fun pg => (inl e, pg).

Notation "'do' x <- m ; k" := (bind m (fun x => k))
  (at level 10, x name, m at level 100, k at level 200).
Notation "m ;; k" := (bind m (fun _ => k))
  (at level 100, k at level 200, right associativity).

(** The page after an event. *)
Definition with_event (ev : event) (pg : page) : page :=
  {| markdown_container := markdown_container pg;
     toc_content_auto := toc_content_auto pg;
     TableOfContents := TableOfContents pg;
     events := events pg ++ [ev] |}.

(** The page once the render target has the children [ns]. *)
Definition with_fragment (ns : list node) (pg : page) : page :=
  {| markdown_container :=
       match markdown_container pg with
       | Some c => Some {| dataset_file := dataset_file c; fragment := ns |}
       | None => None
       end;
     toc_content_auto := toc_content_auto pg;
     TableOfContents := TableOfContents pg;
     events := events pg |}.

(** The page once [#TableOfContents] has the children [ns]. *)
Definition with_toc (ns : list node) (pg : page) : page :=
  {| markdown_container := markdown_container pg;
     toc_content_auto := toc_content_auto pg;
     TableOfContents := match TableOfContents pg with
                        | Some _ => Some ns
                        | None => None
                        end;
     events := events pg |}.

(** The children of the render target. *)
Definition current_fragment (pg : page) : list node :=
  match markdown_container pg with
  | Some c => fragment c
  | None => []
  end.

Definition emit (ev : event) : M unit := fun pg => (inr tt, with_event ev pg).

Definition console (m : console_message) : M unit := emit (Console m).

Definition get_fragment : M (list node) := fun pg => (inr (current_fragment pg), pg).

Definition put_fragment (ns : list node) : M unit :=
  fun pg => (inr tt, with_fragment ns pg).

Definition put_toc (ns : list node) : M unit := fun pg => (inr tt, with_toc ns pg).

Definition get_page : M page := fun pg => (inr pg, pg).

(** The outcome of a call that returns a value or throws. *)
Definition called {A} (r : error + A) : M A :=
  match r with
  | inl e => throw e
  | inr a => ret a
  end.

(** The outcome of a call whose value is not used. *)
Definition called_ (r : option error) : M unit :=
  match r with
  | Some e => throw e
  | None => ret tt
  end.

(** [m.catch(h)] *)
Definition catch {A} (m : M A) (h : error -> M A) : M A :=
  fun pg =>
    match m pg with
    | (inl e, pg') => h e pg'
    | (inr a, pg') => (inr a, pg')
    end.

(* ===================================================================== *)
(** ** The stages (lines 12-131) *)
(* ===================================================================== *)

(** *** 3. Diagram blocks (lines 20-25) *)

(** The [div] of lines 21-23. *)
Definition mermaid_div (raw : jsstring) : node :=
  Element (classList_add "mermaid" (createElement "div")) (set_textContent raw).

(** One round of the [forEach] of line 20.  [gone] holds the addresses of
    the nodes replaced so far: a block below one of them, or whose parent
    is one of them, is out of the document, and replacing its parent
    changes nothing in the document. *)
Definition convert_block (acc : list node * list path) (block : located)
    : list node * list path :=
  let parent := removelast (loc_path block) in
  if existsb (fun q => is_prefix q parent) (snd acc) then acc
  else (alter_at (fun _ => mermaid_div (textContent_at (fst acc) (loc_path block)))
                 parent (fst acc),
        snd acc ++ [parent]).

Definition convert_diagrams (dom : list node) : list node :=
  fst (fold_left convert_block (querySelectorAll [] sel_mermaid dom) (dom, [])).

(** *** 4. Tables (lines 28-45) *)

(** Lines 29-35. *)
Definition style_table (e : element) : element :=
  set_style "width" "100%"
    (set_style "margin" "1rem 0"
       (set_style "border" "1px solid #d0d7de"
          (set_style "borderCollapse" "collapse"
             (classList_add "table-hover"
                (classList_add "table-bordered"
                   (classList_add "table-striped"
                      (classList_add "table" e))))))).

(** Lines 38-39. *)
Definition style_cell (e : element) : element :=
  set_style "padding" "6px 13px" (set_style "border" "1px solid #d0d7de" e).

(** Line 43. *)
Definition style_row (e : element) : element :=
  set_style "backgroundColor" "#f6f8fa" e.

(** One round of the [forEach] of line 28.  The selectors of lines 37 and
    42 have no combinator, so they do not look at the ancestors. *)
Definition style_one_table (dom : list node) (tbl : located) : list node :=
  let p := loc_path tbl in
  let dom1 := modify_at style_table p dom in
  let dom2 :=
    fold_left (fun d cell => modify_at style_cell (p ++ loc_path cell) d)
              (querySelectorAll [] sel_cells (children_at dom1 p)) dom1 in
  fold_left (fun d row => modify_at style_row (p ++ loc_path row) d)
            (querySelectorAll [] sel_even_rows (children_at dom2 p)) dom2.

Definition style_tables (dom : list node) : list node :=
  fold_left style_one_table (querySelectorAll [] sel_table dom) dom.

(** *** 7. Table of contents (lines 58-127) *)

(** Lines 93-99: [h.id || h.textContent.trim()...]. *)
Definition heading_id (dom : list node) (h : located) : jsstring :=
  match element_at dom (loc_path h) with
  | Some e =>
      match el_id e with
      | [] => slugify (textContent_at dom (loc_path h))
      | own => own
      end
  | None => slugify (textContent_at dom (loc_path h))
  end.

(** Lines 104-116: the [li] with its [a]. *)
Definition toc_entry (idx : nat) (label headingId : jsstring) : node :=
  let a := set_href (str "#" ++ headingId) (createElement "a") in
  let li := createElement "li" in
  Element (if Nat.eqb idx 0 then classList_add "has-active" li else li)
          [Element (if Nat.eqb idx 0 then classList_add "active" a else a)
                   (set_textContent label)].

(** The [forEach] of line 91; [ul] holds the children of the list so far. *)
Fixpoint toc_entries (headings : list located) (idx : nat) (ul : list node)
    : M (list node) :=
  match headings with
  | [] => ret ul
  | h :: rest =>
      do dom <- get_fragment;
      let headingId := heading_id dom h in
      put_fragment (modify_at (set_id headingId) (loc_path h) dom) ;;
      console (LogHeading (S idx) (textContent_at dom (loc_path h)) headingId) ;;
      toc_entries rest (S idx)
        (ul ++ [toc_entry idx (textContent_at dom (loc_path h)) headingId])
  end.

Definition generate_toc : M unit :=
  console LogTocStart ;;
  do pg <- get_page;
  let tocAuto := toc_content_auto pg in
  console (if tocAuto then LogFoundTocAuto else WarnNoTocAuto) ;;
  let markdownContainer := markdown_container pg in
  console (match markdownContainer with
           | Some _ => LogFoundContainer
           | None => WarnNoContainer
           end) ;;
  match tocAuto, markdownContainer with
  | true, Some c =>
      let tocNav := TableOfContents pg in
      console (match tocNav with
               | Some _ => LogFoundTocNav
               | None => WarnNoTocNav
               end) ;;
      let headings := querySelectorAll [] sel_headings (fragment c) in
      console (LogHeadingCount (length headings)) ;;
      match tocNav, headings with
      | Some _, _ :: _ =>
          do ul <- toc_entries headings 0 [];
          put_toc [Element (createElement "ul") ul] ;;
          console (LogTocDone (length headings))
      | _, _ => console WarnTocSkipped
      end
  | _, _ => ret tt
  end.

(** *** The callback of line 12 *)

Definition render (x : externals) (md : jsstring) : M unit :=
  (* 1 *)
  emit (MarkedParse md) ;;
  do html <- called (marked_parse x md);
  put_fragment (parseHTML x html) ;;
  (* 2 *)
  do dom <- get_fragment;
  emit (HighlightAll dom) ;;
  do highlighted <- called (hljs_highlightAll x dom);
  put_fragment highlighted ;;
  (* 3 *)
  do dom <- get_fragment;
  put_fragment (convert_diagrams dom) ;;
  (* 4 *)
  do dom <- get_fragment;
  put_fragment (style_tables dom) ;;
  (* 5 *)
  (if window_mermaid x
   then emit MermaidInitialize ;;
        called_ (mermaid_initialize x) ;;
        do dom <- get_fragment;
        emit (MermaidRun dom) ;;
        called_ (mermaid_run x dom)
   else ret tt) ;;
  (* 6 *)
  (if window_MathJax x
   then do dom <- get_fragment;
        emit (TypesetPromise dom) ;;
        called_ (MathJax_typesetPromise x dom)
   else ret tt) ;;
  (* 7 *)
  generate_toc.

(** *** The chain of lines 7-135 *)

(** Lines 8-11. *)
Definition check_response (res : response) : M jsstring :=
  if negb (ok res)
  then throw (Error (str "HTTP " ++ number_toString (status res)))
  else called (text res).

Definition double_quote : N := 34.

(** The markup of line 133. *)
Definition error_markup (err : error) : jsstring :=
  str "<p style=" ++ [double_quote] ++ str "color:red" ++ [double_quote]
  ++ str ">Failed to load markdown: " ++ error_toString err ++ str "</p>".

(** Lines 132-135. *)
Definition on_rejected (x : externals) (err : error) : M unit :=
  put_fragment (parseHTML x (error_markup err)) ;;
  console (ConsoleError err).

(** The listener of line 1, run until the chain has settled. *)
Definition viewer (x : externals) (pg : page) : page :=
  match markdown_container pg with
  | None => pg
  | Some container =>
      let file := dataset_file container in
      snd (catch (emit (Fetch file) ;;
                  do res <- called (fetch x file);
                  do md <- check_response res;
                  render x md)
                 (on_rejected x) pg)
  end.

(* ===================================================================== *)
(** ** Notions used to state the properties *)
(* ===================================================================== *)

(** [strip_prefix p q] is what is left of [q] after its prefix [p]. *)
Fixpoint strip_prefix (p q : path) : option path :=
  match p, q with
  | [], _ => Some q
  | _ :: _, [] => None
  | i :: p', j :: q' => if Nat.eqb i j then strip_prefix p' q' else None
  end.

(** The node [n] once [alter_at f] has acted at [r] below it. *)
Definition alter_below (f : node -> node) (r : path) (n : node) : node :=
  match r with
  | [] => f n
  | _ :: _ =>
      match n with
      | Text _ => n
      | Element e cs => Element e (alter_at f r cs)
      end
  end.

Definition on_element (f : element -> element) (n : node) : node :=
  match n with
  | Text _ => n
  | Element e cs => Element (f e) cs
  end.

Definition count_elements (ns : list node) : nat :=
  length (List.filter is_element ns).

(** The position [:nth-child] counts for the node at [p]: how many
    element children its parent has up to and including it. *)
Fixpoint child_index (ns : list node) (p : path) : nat :=
  match p with
  | [] => 0
  | i :: p' =>
      match p' with
      | [] => count_elements (take (S i) ns)
      | _ :: _ =>
          match ns !! i with
          | Some n => child_index (children n) p'
          | None => 0
          end
      end
  end.

(** Document order on addresses: a node is before its descendants and
    before what follows it. *)
Fixpoint path_lt (p q : path) : Prop :=
  match p, q with
  | [], _ :: _ => True
  | _, [] => False
  | i :: p', j :: q' => (i < j)%nat \/ (i = j /\ path_lt p' q')
  end.

Definition loc_lt (a b : located) : Prop := path_lt (loc_path a) (loc_path b).

(** The ancestors of the node at [p], nearest first, each with its
    position among the element children of its own parent. *)
Fixpoint ancestors_at (ns : list node) (p : path) : list (element * nat) :=
  match p with
  | [] => []
  | i :: p' =>
      match p' with
      | [] => []
      | _ :: _ =>
          match ns !! i with
          | Some (Element e cs) =>
              ancestors_at cs p' ++ [(e, count_elements (take (S i) ns))]
          | _ => []
          end
      end
  end.

(** The entries of the list for the headings [hs] of [dom], the first
    of them being number [idx]. *)
Fixpoint toc_items (dom : list node) (idx : nat) (hs : list located) : list node :=
  match hs with
  | [] => []
  | h :: rest =>
      toc_entry idx (textContent_at dom (loc_path h)) (heading_id dom h)
      :: toc_items dom (S idx) rest
  end.

(** What line 102 logs for them. *)
Fixpoint toc_log (dom : list node) (idx : nat) (hs : list located) : list event :=
  match hs with
  | [] => []
  | h :: rest =>
      Console (LogHeading (S idx) (textContent_at dom (loc_path h)) (heading_id dom h))
      :: toc_log dom (S idx) rest
  end.

(** [dom] once each heading of [hs] has the identifier that [dom] gives it. *)
Definition with_ids (dom : list node) (hs : list located) (d : list node) : list node :=
  fold_left (fun d h => modify_at (set_id (heading_id dom h)) (loc_path h) d) hs d.

Definition is_console (ev : event) : Prop :=
  match ev with
  | Console _ => True
  | _ => False
  end.

Definition not_console (ev : event) : Prop :=
  match ev with
  | Console _ => False
  | _ => True
  end.


Definition not_typeset (ev : event) : Prop :=
  match ev with
  | TypesetPromise _ => False
  | _ => True
  end.

(** The fetch of [file] fails with [err]: the promise of [fetch] is
    rejected, or the response is not a success, or reading its body is
    rejected. *)
Definition fetch_fails (x : externals) (file : option jsstring) (err : error) : Prop :=
  fetch x file = inl err
  \/ (exists res, fetch x file = inr res /\ ok res = false
                  /\ err = Error (str "HTTP " ++ number_toString (status res)))
  \/ (exists res, fetch x file = inr res /\ ok res = true /\ text res = inl err).

(** The fetch of [file] gives the text [md]. *)
Definition fetch_gives (x : externals) (file : option jsstring) (md : jsstring) : Prop :=
  exists res, fetch x file = inr res /\ ok res = true /\ text res = inr md.

(** What lines 29-35 give a table. *)
Definition table_contract (e : element) : Prop :=
  (In "table" (classList e) /\ In "table-striped" (classList e)
   /\ In "table-bordered" (classList e) /\ In "table-hover" (classList e))
  /\ style e !! "borderCollapse" = Some "collapse"
  /\ style e !! "border" = Some "1px solid #d0d7de"
  /\ style e !! "margin" = Some "1rem 0"
  /\ style e !! "width" = Some "100%".

(** What lines 38-39 give a cell. *)
Definition cell_contract (e : element) : Prop :=
  style e !! "border" = Some "1px solid #d0d7de"
  /\ style e !! "padding" = Some "6px 13px".

(** What line 43 gives a row. *)
Definition row_shaded (e : element) : Prop :=
  style e !! "backgroundColor" = Some "#f6f8fa".

(** The element at [p] satisfies [P]. *)
Definition holds_at (P : element -> Prop) (d : list node) (p : path) : Prop :=
  exists e, element_at d p = Some e /\ P e.

(** [d'] is [d] but for properties of its elements other than the tag. *)
Definition restyles (d d' : list node) : Prop :=
  forall p, (localName <$> element_at d' p) = (localName <$> element_at d p)
            /\ child_index d' p = child_index d p.

(** The node at [p] is a [tr] that [:nth-child(even)] selects. *)
Definition even_row (d : list node) (p : path) : Prop :=
  (localName <$> element_at d p) = Some "tr" /\ Nat.even (child_index d p) = true.

(** An entry of a flat list: a [li] that holds one [a], which holds text. *)
Definition flat_entry (n : node) : Prop :=
  exists li a label,
    n = Element li [Element a (set_textContent label)]
    /\ localName li = "li" /\ localName a = "a".

(** The [href] of the link of an entry. *)
Definition entry_href (n : node) : jsstring :=
  match n with
  | Element _ [Element a _] => href a
  | _ => []
  end.

(** The text of the link of an entry. *)
Definition entry_label (n : node) : jsstring :=
  match n with
  | Element _ [a] => textContent a
  | _ => []
  end.

(** The classes of an entry: those of its [li] and those of its link. *)
Definition entry_marks (n : node) : list string * list string :=
  match n with
  | Element li [Element a _] => (classList li, classList a)
  | _ => ([], [])
  end.

Definition not_fetch (ev : event) : Prop :=
  match ev with
  | Fetch _ => False
  | _ => True
  end.

(** A call of a library is one of a library that the page has. *)
Definition library_present (x : externals) (ev : event) : Prop :=
  match ev with
  | MermaidInitialize | MermaidRun _ => window_mermaid x = true
  | TypesetPromise _ => window_MathJax x = true
  | _ => True
  end.


(* ===================================================================== *)
(** ** Sample documents and pages *)
(* ===================================================================== *)

Definition tag (t : string) (cs : list node) : node := Element (createElement t) cs.

Definition tag_class (t c : string) (cs : list node) : node :=
  Element (classList_add c (createElement t)) cs.

Definition txt (s : string) : node := Text (str s).

(** A page with an empty render target, a navigation target, and nothing
    logged yet. *)
Definition blank_page (file : option jsstring) : page :=
  {| markdown_container := Some {| dataset_file := file; fragment := [] |};
     toc_content_auto := true;
     TableOfContents := Some [];
     events := [] |}.

(** [strip_units p s] is what is left of [s] after its prefix [p]. *)
Fixpoint strip_units (p s : jsstring) : option jsstring :=
  match p, s with
  | [], _ => Some s
  | _ :: _, [] => None
  | a :: p', b :: s' => if a =? b then strip_units p' s' else None
  end.

(** A parser for the samples: it knows the paragraph of line 133, whose
    text it takes as it is, and gives the nodes [doc] for any other
    markup. *)
Definition sample_parseHTML (doc : list node) (html : jsstring) : list node :=
  match strip_units (str "<p style=" ++ [34] ++ str "color:red" ++ [34] ++ str ">") html with
  | Some rest =>
      [ Element (set_style "color" "red" (createElement "p"))
                (set_textContent (take (length rest - 4) rest)) ]
  | None => doc
  end.

(** Externals that answer every fetch with [res], render every text to
    the nodes [doc], and highlight with [hl]. *)
Definition sample_externals (res : error + response) (doc : list node)
    (hl : list node -> error + list node) (mathjax : bool) : externals :=
  {| fetch := fun _ => res;
     marked_parse := fun md => inr md;
     parseHTML := sample_parseHTML doc;
     hljs_highlightAll := hl;
     window_mermaid := false;
     mermaid_initialize := None;
     mermaid_run := fun _ => None;
     window_MathJax := mathjax;
     MathJax_typesetPromise := fun _ => None |}.

Definition ok_response : error + response :=
  inr {| ok := true; status := 200; text := inr (str "# Title") |}.

Definition not_found : error + response :=
  inr {| ok := false; status := 404; text := inr (str "Not Found") |}.

Definition offline : error + response :=
  inl {| err_name := str "TypeError"; err_message := str "Failed to fetch" |}.


(** Highlighting that changes nothing. *)
Definition no_highlight (dom : list node) : error + list node := inr dom.

(** A page whose render target already holds [doc]. *)
Definition page_of (doc : list node) : page :=
  {| markdown_container := Some {| dataset_file := Some (str "post.md"); fragment := doc |};
     toc_content_auto := true;
     TableOfContents := Some [];
     events := [] |}.

(** The element found at the top of a document, as a selector reports it. *)
Definition top_level (i k : nat) (t : string) : located :=
  {| loc_path := [i]; loc_elem := createElement t; loc_index := k; loc_ancestors := [] |}.

Definition three_titles : list node :=
  [ tag "h1" [txt "Title"]; tag "h2" [txt "Title"]; tag "h3" [txt "Title"] ].

(** A table as the renderer writes it: a header row, then three data
    rows with line breaks between them. *)
Definition small_table : list node :=
  [ tag "table"
      [ tag "thead" [ tag "tr" [ tag "th" [txt "k"]; tag "th" [txt "v"] ] ];
        tag "tbody"
          [ tag "tr" [ tag "td" [txt "a"]; tag "td" [txt "1"] ]; Text [10];
            tag "tr" [ tag "td" [txt "b"]; tag "td" [txt "2"] ]; Text [10];
            tag "tr" [ tag "td" [txt "c"]; tag "td" [txt "3"] ] ] ] ].

(** A table with a column aligned to the right and a left border of
    its own on the cells, as a renderer or raw markup may write it. *)
Definition aligned_table : list node :=
  [ tag "table"
      [ tag "tbody"
          [ tag "tr"
              [ Element (set_style "borderLeft" "2px solid red"
                           (set_style "textAlign" "right" (createElement "td")))
                        [txt "1"] ] ] ] ].

(** The inline background colour of the element at [p], if it has one. *)
Definition background_at (d : list node) (p : path) : option string :=
  match element_at d p with
  | Some e => style e !! "backgroundColor"
  | None => None
  end.

Definition table_externals : externals :=
  sample_externals ok_response small_table no_highlight false.

(** A paragraph, then a fenced diagram block as the renderer writes it. *)
Definition diagram_doc : list node :=
  [ tag "p" [txt "Flow:"];
    tag "pre" [ tag_class "code" "language-mermaid" [txt "graph TD; A-->B"] ] ].


(** A page that has both the diagram library and the typesetter. *)
Definition full_externals : externals :=
  {| fetch := fun _ => ok_response;
     marked_parse := fun md => inr md;
     parseHTML := sample_parseHTML diagram_doc;
     hljs_highlightAll := no_highlight;
     window_mermaid := true;
     mermaid_initialize := None;
     mermaid_run := fun _ => None;
     window_MathJax := true;
     MathJax_typesetPromise := fun _ => None |}.

(** A document with two headings, a fenced diagram block and a table. *)
Definition mixed_doc : list node :=
  [ tag "h1" [txt "Guide"];
    tag "pre" [ tag_class "code" "language-mermaid" [txt "graph TD; A-->B"] ];
    tag "table"
      [ tag "thead" [ tag "tr" [ tag "th" [txt "k"] ] ];
        tag "tbody" [ tag "tr" [ tag "td" [txt "a"] ] ] ];
    tag "h2" [txt "Next steps"] ].

Definition mixed_externals : externals :=
  sample_externals ok_response mixed_doc no_highlight true.

(** A heading with an identifier of its own, and one without. *)
Definition own_and_derived : list node :=
  [ Element (set_id (str "Intro") (createElement "h1")) [txt "Getting started"];
    tag "h2" [txt "  Hello,   World! "] ].

Definition snake_heading : list node := [ tag "h2" [txt "a_b"] ].

Definition punctuation_heading : list node := [ tag "h2" [txt "?!"] ].

Definition spaced_punctuation_heading : list node := [ tag "h2" [txt "! !"] ].

(* ===================================================================== *)
(** ** Slugs *)
(* ===================================================================== *)

Lemma words_nil_trimEnd (s : jsstring) : words s = [] <-> trimEnd s = [].
Proof.
  induction s as [|c s IH]; simpl; [tauto|].
  destruct (is_space c) eqn:Hc.
  - rewrite IH. destruct (trimEnd s); split; congruence.
  - split; intros H.
    + destruct s as [|c' s']; [discriminate|].
      destruct (is_space c'); [discriminate|].
      destruct (words (c' :: s')); discriminate.
    + destruct (trimEnd s); discriminate.
Qed.

Lemma words_trimStart (s : jsstring) : words (trimStart s) = words s.
Proof.
  induction s as [|c s IH]; [reflexivity|].
  cbn [trimStart]. destruct (is_space c) eqn:Hc; [|reflexivity].
  rewrite IH. simpl. now rewrite Hc.
Qed.

Lemma words_head_not_space (c : N) (s : jsstring) :
  is_space c = false -> words (c :: s) <> [].
Proof.
  intros Hc. simpl. rewrite Hc.
  destruct s as [|c' s']; [discriminate|].
  destruct (is_space c'); [discriminate|].
  destruct (words (c' :: s')); discriminate.
Qed.

Lemma words_cons_not_space (c : N) (s : jsstring) :
  is_space c = false ->
  words (c :: s) =
  match s with
  | [] => [[c]]
  | c' :: _ =>
      if is_space c' then [c] :: words s
      else match words s with
           | w :: ws => (c :: w) :: ws
           | [] => [[c]]
           end
  end.
Proof. intros Hc. simpl. rewrite Hc. destruct s; reflexivity. Qed.

Lemma join_hyphen_cons (w : jsstring) (ws : list jsstring) :
  ws <> [] -> join_hyphen (w :: ws) = w ++ hyphen :: join_hyphen ws.
Proof. destruct ws; [congruence|reflexivity]. Qed.

(** The hyphens that [replace] writes for the runs of whitespace are the
    ones between the words, once the text is trimmed at its end. *)
Lemma replace_trimEnd_words (s : jsstring) :
  match s with
  | [] => True
  | c :: _ =>
      if is_space c
      then trimEnd s <> [] ->
           replace_space_runs true (trimEnd s) = join_hyphen (words s)
           /\ replace_space_runs false (trimEnd s) = hyphen :: join_hyphen (words s)
      else forall b, replace_space_runs b (trimEnd s) = join_hyphen (words s)
  end.
Proof.
  induction s as [|c s IH]; [exact I|].
  destruct (is_space c) eqn:Hc.
  - intros Hne. cbn [trimEnd] in *.
    destruct (trimEnd s) as [|r0 r] eqn:Hr; [now rewrite Hc in Hne|].
    assert (Hgoal : replace_space_runs true (r0 :: r) = join_hyphen (words s)).
    { destruct s as [|c' s']; [discriminate|].
      destruct (is_space c') eqn:Hc'.
      - destruct IH as [IH _]; [discriminate|exact IH].
      - apply IH. }
    remember (r0 :: r) as t.
    cbn [replace_space_runs words]. rewrite Hc, Hgoal. split; reflexivity.
  - intros b.
    assert (Ht : trimEnd (c :: s) = c :: trimEnd s).
    { cbn [trimEnd]. rewrite Hc. now destruct (trimEnd s). }
    rewrite Ht. cbn [replace_space_runs]. rewrite Hc.
    rewrite (words_cons_not_space c s Hc).
    destruct s as [|c' s']; [reflexivity|].
    destruct (is_space c') eqn:Hc'.
    + destruct (trimEnd (c' :: s')) as [|r0 r] eqn:Hr.
      * apply words_nil_trimEnd in Hr. now rewrite Hr.
      * assert (Hw : words (c' :: s') <> []).
        { intros Hw. apply words_nil_trimEnd in Hw. congruence. }
        rewrite join_hyphen_cons by exact Hw.
        destruct IH as [_ ->]; [discriminate|reflexivity].
    + specialize (IH false). rewrite IH.
      pose proof (words_head_not_space c' s' Hc') as Hw.
      destruct (words (c' :: s')) as [|w ws]; [congruence|].
      destruct ws; reflexivity.
Qed.

Lemma trimStart_head (s : jsstring) :
  match trimStart s with
  | [] => True
  | c :: _ => is_space c = false
  end.
Proof.
  induction s as [|c s IH]; [exact I|].
  cbn [trimStart]. destruct (is_space c) eqn:Hc; [exact IH|exact Hc].
Qed.

Lemma replace_trim_words (s : jsstring) :
  replace_space_runs false (trim s) = join_hyphen (words s).
Proof.
  unfold trim. rewrite <- (words_trimStart s).
  pose proof (replace_trimEnd_words (trimStart s)) as H.
  pose proof (trimStart_head s) as Hhd.
  destruct (trimStart s) as [|c r]; [reflexivity|].
  rewrite Hhd in H. apply H.
Qed.

Lemma slugify_word_slug (s : jsstring) : slugify s = word_slug s.
Proof. unfold slugify, word_slug. now rewrite replace_trim_words. Qed.

(** Only code units of [[A-Za-z0-9_-]] reach [toLowerCase]. *)
Lemma remove_non_word_ascii (s : jsstring) (c : N) :
  In c (remove_non_word s) -> is_word_or_hyphen c = true.
Proof.
  unfold remove_non_word. intros H.
  apply list_elem_of_In, list_elem_of_filter in H. tauto.
Qed.

Lemma In_trimStart (s : jsstring) (c : N) : In c (trimStart s) -> In c s.
Proof.
  induction s as [|a s IH]; [trivial|].
  cbn [trimStart]. destruct (is_space a); [right; auto|trivial].
Qed.

Lemma In_trimEnd (s : jsstring) (c : N) : In c (trimEnd s) -> In c s.
Proof.
  induction s as [|a s IH]; [trivial|].
  cbn [trimEnd]. destruct (trimEnd s) as [|r0 r].
  - destruct (is_space a); simpl; tauto.
  - simpl. intros [H|H]; [now left|right; apply IH; exact H].
Qed.

Lemma In_trim (s : jsstring) (c : N) : In c (trim s) -> In c s.
Proof. intros H. apply In_trimStart, In_trimEnd, H. Qed.

Lemma replace_no_space (b : bool) (s : jsstring) :
  (forall c, In c s -> is_space c = false) -> replace_space_runs b s = s.
Proof.
  revert b. induction s as [|a s IH]; intros b H; [reflexivity|].
  cbn [replace_space_runs]. rewrite (H a) by now left.
  rewrite IH; [reflexivity|]. intros c Hc. apply H. now right.
Qed.

Lemma remove_non_word_all (s : jsstring) :
  (forall c, In c s -> is_word_or_hyphen c = false) -> remove_non_word s = [].
Proof.
  induction s as [|a s IH]; intros H; [reflexivity|].
  unfold remove_non_word in *. rewrite filter_cons.
  destruct (decide (is_word_or_hyphen a = true)) as [Ha|Ha].
  - rewrite (H a) in Ha by now left. discriminate.
  - apply IH. intros c Hc. apply H. now right.
Qed.

Lemma slugify_empty (s : jsstring) :
  (forall c, In c s -> is_word_or_hyphen c = false) ->
  (forall c, In c (trim s) -> is_space c = false) ->
  slugify s = [].
Proof.
  intros Hw Hs. unfold slugify.
  rewrite replace_no_space by exact Hs.
  rewrite remove_non_word_all; [reflexivity|].
  intros c Hc. apply Hw, In_trim, Hc.
Qed.

Lemma word_is_not_space (c : N) : is_word_or_hyphen c = true -> is_space c = false.
Proof.
  intros H. destruct (is_space c) eqn:E; [|reflexivity]. exfalso.
  unfold is_word_or_hyphen, is_word, is_alnum, is_digit, is_upper, is_lower,
    underscore, hyphen in H.
  unfold is_space in E.
  rewrite ?orb_true_iff, ?andb_true_iff, ?N.leb_le, ?N.eqb_eq in H.
  rewrite ?orb_true_iff, ?andb_true_iff, ?N.leb_le, ?N.eqb_eq in E. lia.
Qed.

Lemma In_trimStart_kept (s : jsstring) (c : N) :
  In c s -> is_space c = false -> In c (trimStart s).
Proof.
  induction s as [|a s IH]; intros Hin Hc; [destruct Hin|].
  cbn [trimStart]. destruct (is_space a) eqn:Ha; [|exact Hin].
  destruct Hin as [->|Hin]; [congruence|auto].
Qed.

Lemma In_trimEnd_kept (s : jsstring) (c : N) :
  In c s -> is_space c = false -> In c (trimEnd s).
Proof.
  induction s as [|a s IH]; intros Hin Hc; [destruct Hin|].
  cbn [trimEnd]. destruct Hin as [->|Hin].
  - destruct (trimEnd s); [rewrite Hc|]; now left.
  - specialize (IH Hin Hc). destruct (trimEnd s); [destruct IH|now right].
Qed.

Lemma In_replace_kept (b : bool) (s : jsstring) (c : N) :
  In c s -> is_space c = false -> In c (replace_space_runs b s).
Proof.
  revert b. induction s as [|a s IH]; intros b Hin Hc; [destruct Hin|].
  cbn [replace_space_runs]. destruct Hin as [->|Hin].
  - rewrite Hc. now left.
  - destruct (is_space a); [destruct b; [|right]; auto|right; auto].
Qed.

Lemma replace_writes_hyphen (s : jsstring) (c : N) :
  In c s -> is_space c = true -> In hyphen (replace_space_runs false s).
Proof.
  induction s as [|a s IH]; intros Hin Hc; [destruct Hin|].
  cbn [replace_space_runs]. destruct (is_space a) eqn:Ha; [now left|].
  destruct Hin as [->|Hin]; [congruence|]. right. auto.
Qed.

(** The slug of a text is empty exactly when the text has no code unit
    of [[A-Za-z0-9_-]] and, once trimmed, no whitespace. *)
Lemma slugify_empty_iff (s : jsstring) :
  slugify s = []
  <-> (forall c, In c s -> is_word_or_hyphen c = false)
      /\ (forall c, In c (trim s) -> is_space c = false).
Proof.
  split; [|intros [Hw Hs]; now apply slugify_empty].
  unfold slugify, toLowerCase. intros H. apply map_eq_nil in H.
  assert (Hnone : forall c, In c (replace_space_runs false (trim s)) ->
                            is_word_or_hyphen c = false).
  { intros c Hc. destruct (is_word_or_hyphen c) eqn:Hk; [|reflexivity]. exfalso.
    assert (Hin : In c (remove_non_word (replace_space_runs false (trim s)))).
    { unfold remove_non_word. apply list_elem_of_In, list_elem_of_filter.
      split; [exact Hk|now apply list_elem_of_In]. }
    rewrite H in Hin. destruct Hin. }
  split.
  - intros c Hc. destruct (is_word_or_hyphen c) eqn:Hk; [|reflexivity].
    pose proof (word_is_not_space c Hk) as Hsp.
    rewrite <- Hk. apply Hnone.
    apply In_replace_kept; [|exact Hsp].
    unfold trim. apply In_trimEnd_kept; [|exact Hsp]. now apply In_trimStart_kept.
  - intros c Hc. destruct (is_space c) eqn:Hsp; [|reflexivity].
    pose proof (Hnone hyphen (replace_writes_hyphen _ c Hc Hsp)) as Hh. discriminate.
Qed.

(** A slug is made of lowercase letters, digits, underscores and hyphens. *)
Lemma slugify_alphabet (s : jsstring) (c : N) :
  In c (slugify s) ->
  is_lower c || is_digit c || (c =? underscore) || (c =? hyphen) = true.
Proof.
  unfold slugify, toLowerCase. intros H.
  apply in_map_iff in H. destruct H as (u & <- & Hu).
  apply remove_non_word_ascii in Hu. revert Hu.
  unfold is_word_or_hyphen, is_word, is_alnum, lower_unit, is_digit, is_upper,
    is_lower, underscore, hyphen.
  destruct ((65 <=? u) && (u <=? 90)) eqn:Hup.
  - intros _. rewrite andb_true_iff, !N.leb_le in Hup.
    rewrite !orb_true_iff, !andb_true_iff, !N.leb_le. left. left. left. lia.
  - rewrite !orb_true_iff, !andb_true_iff, !N.leb_le, !N.eqb_eq. intuition (try lia).
Qed.

(* ===================================================================== *)
(** ** Addresses *)
(* ===================================================================== *)

Lemma node_ind' (P : node -> Prop) :
  (forall d, P (Text d)) ->
  (forall e cs, Forall P cs -> P (Element e cs)) ->
  forall n, P n.
Proof.
  intros HT HE. fix IH 1. intros [d|e cs].
  - apply HT.
  - apply HE. induction cs as [|c cs IHcs]; constructor; [apply IH|exact IHcs].
Qed.

Lemma is_prefix_strip (q p : path) :
  is_prefix q p = true <-> strip_prefix q p <> None.
Proof.
  revert p. induction q as [|i q IH]; intros [|j p]; simpl; try easy.
  destruct (Nat.eqb i j); simpl; [apply IH|easy].
Qed.

Lemma strip_prefix_app (p r : path) : strip_prefix p (p ++ r) = Some r.
Proof. induction p as [|i p IH]; [reflexivity|]. simpl. now rewrite Nat.eqb_refl. Qed.

Lemma strip_prefix_Some (p q r : path) : strip_prefix p q = Some r -> q = p ++ r.
Proof.
  revert q. induction p as [|i p IH]; intros [|j q] H; simpl in *; try congruence.
  destruct (Nat.eqb_spec i j); [|discriminate]. subst. f_equal. now apply IH.
Qed.

Lemma alter_at_cons (f : node -> node) (i : nat) (p : path) (ns : list node) :
  alter_at f (i :: p) ns = alter (alter_below f p) i ns.
Proof. reflexivity. Qed.

Lemma children_alter_below (f : node -> node) (r : path) (n : node) :
  r <> [] -> children (alter_below f r n) = alter_at f r (children n).
Proof.
  destruct r as [|i r]; [congruence|]. intros _.
  destruct n as [d|e cs]; [|reflexivity].
  simpl. reflexivity.
Qed.

(** Reading at or above the place of a change. *)
Lemma node_at_alter_at_above (f : node -> node) (p q r : path) (ns : list node) :
  strip_prefix p q = Some r ->
  node_at (alter_at f q ns) p = alter_below f r <$> node_at ns p.
Proof.
  revert q ns. induction p as [|i p IH]; intros q ns H; [reflexivity|].
  destruct q as [|j q]; [discriminate|]. simpl in H.
  destruct (Nat.eqb_spec i j) as [->|]; [|discriminate].
  rewrite alter_at_cons. cbn [node_at]. rewrite list_lookup_alter_eq.
  destruct (ns !! j) as [n|]; [|reflexivity]. cbn [fmap option_fmap option_map].
  destruct p as [|i' p].
  - simpl in H. now inversion H.
  - destruct q as [|j' q]; [discriminate|].
    rewrite children_alter_below by discriminate. now apply IH.
Qed.

(** Reading away from the place of a change, or below an element of which
    only the record changed. *)
Lemma node_at_alter_at_other (f : node -> node) (p q : path) (ns : list node) :
  strip_prefix p q = None ->
  is_prefix q p = false \/ (forall n, children (f n) = children n) ->
  node_at (alter_at f q ns) p = node_at ns p.
Proof.
  revert q ns. induction p as [|i p IH]; intros q ns H Hd; [reflexivity|].
  destruct q as [|j q]; [reflexivity|]. simpl in H.
  rewrite alter_at_cons. cbn [node_at].
  destruct (Nat.eqb_spec i j) as [->|Hij].
  - rewrite list_lookup_alter_eq.
    destruct (ns !! j) as [n|]; [|reflexivity]. cbn [fmap option_fmap option_map].
    destruct p as [|i' p]; [discriminate|].
    destruct q as [|j' q].
    + simpl. destruct Hd as [Hd|Hd].
      * simpl in Hd. now rewrite Nat.eqb_refl in Hd.
      * now rewrite Hd.
    + rewrite children_alter_below by discriminate. apply IH; [exact H|].
      destruct Hd as [Hd|Hd]; [left|now right].
      simpl in Hd. now rewrite Nat.eqb_refl in Hd.
  - rewrite list_lookup_alter_ne by congruence. reflexivity.
Qed.

Lemma node_at_app (p q : path) (ns : list node) :
  p <> [] -> q <> [] -> node_at ns (p ++ q) = node_at (children_at ns p) q.
Proof.
  revert ns. induction p as [|i p IH]; intros ns Hp Hq; [congruence|].
  unfold children_at. cbn [node_at app].
  destruct (ns !! i) as [n|].
  - destruct p as [|i' p].
    + simpl. destruct q; [congruence|reflexivity].
    + change ((i' :: p) ++ q) with (i' :: (p ++ q)).
      change (match i' :: p ++ q with [] => Some n | _ :: _ => node_at (children n) (i' :: p ++ q) end)
        with (node_at (children n) ((i' :: p) ++ q)).
      rewrite IH by (discriminate || exact Hq). reflexivity.
  - destruct q; [congruence|]. reflexivity.
Qed.

(** *** Writing a property of one element *)

Lemma modify_at_alter_at (f : element -> element) (p : path) (ns : list node) :
  modify_at f p ns = alter_at (on_element f) p ns.
Proof. reflexivity. Qed.

Lemma strip_prefix_nil_eq (p q : path) : strip_prefix p q = Some [] <-> p = q.
Proof.
  split.
  - intros H. apply strip_prefix_Some in H. now rewrite app_nil_r in H.
  - intros ->. rewrite <- (app_nil_r q) at 2. apply strip_prefix_app.
Qed.

Lemma element_at_modify_at (f : element -> element) (p q : path) (ns : list node) :
  element_at (modify_at f q ns) p =
  if decide (p = q) then f <$> element_at ns p else element_at ns p.
Proof.
  unfold element_at. rewrite modify_at_alter_at.
  destruct (strip_prefix p q) as [r|] eqn:Hr.
  - rewrite (node_at_alter_at_above _ _ _ _ _ Hr).
    destruct r as [|i r].
    + apply strip_prefix_nil_eq in Hr. subst q.
      rewrite decide_True by reflexivity.
      destruct (node_at ns p) as [[d|e cs]|]; reflexivity.
    + rewrite decide_False.
      * destruct (node_at ns p) as [[d|e cs]|]; reflexivity.
      * intros ->. rewrite (proj2 (strip_prefix_nil_eq q q) eq_refl) in Hr. discriminate.
  - rewrite node_at_alter_at_other; [|exact Hr|right; now intros [d|e cs]].
    rewrite decide_False; [reflexivity|].
    intros ->. rewrite (proj2 (strip_prefix_nil_eq q q) eq_refl) in Hr. discriminate.
Qed.

Lemma fmap_alter_invariant {A B} (h : A -> B) (g : A -> A) (i : nat) (l : list A) :
  (forall x, h (g x) = h x) -> h <$> alter g i l = h <$> l.
Proof.
  intros H. revert i. induction l as [|a l IH]; intros [|i]; simpl; try reflexivity.
  - now rewrite H.
  - f_equal. apply IH.
Qed.

Lemma textContent_alter_below (f : element -> element) (r : path) (n : node) :
  textContent (alter_below (on_element f) r n) = textContent n.
Proof.
  revert n. induction r as [|i r IH]; intros n.
  - destruct n; reflexivity.
  - destruct n as [d|e cs]; [reflexivity|].
    cbn [alter_below textContent]. rewrite alter_at_cons.
    f_equal. apply (fmap_alter_invariant textContent). exact IH.
Qed.

Lemma textContent_at_modify_at (f : element -> element) (p q : path) (ns : list node) :
  textContent_at (modify_at f q ns) p = textContent_at ns p.
Proof.
  unfold textContent_at. rewrite modify_at_alter_at.
  destruct (strip_prefix p q) as [r|] eqn:Hr.
  - rewrite (node_at_alter_at_above _ _ _ _ _ Hr).
    destruct (node_at ns p) as [n|]; [|reflexivity].
    apply textContent_alter_below.
  - rewrite node_at_alter_at_other; [reflexivity|exact Hr|right; now intros [d|e cs]].
Qed.

Lemma is_element_alter_below (f : element -> element) (r : path) (n : node) :
  is_element (alter_below (on_element f) r n) = is_element n.
Proof. destruct r, n; reflexivity. Qed.

Lemma count_elements_take_alter (g : node -> node) (i k : nat) (ns : list node) :
  (forall n, is_element (g n) = is_element n) ->
  count_elements (take k (alter g i ns)) = count_elements (take k ns).
Proof.
  intros H. unfold count_elements.
  revert i k. induction ns as [|a ns IH]; intros i [|k]; try reflexivity.
  destruct i as [|i]; simpl.
  - rewrite H. now destruct (is_element a).
  - destruct (is_element a); simpl; [f_equal|]; apply IH.
Qed.

Lemma child_index_modify_at (f : element -> element) (p q : path) (ns : list node) :
  child_index (modify_at f q ns) p = child_index ns p.
Proof.
  rewrite modify_at_alter_at.
  revert q ns. induction p as [|i p IH]; intros q ns; [reflexivity|].
  destruct q as [|j q]; [reflexivity|].
  rewrite alter_at_cons. cbn [child_index].
  destruct p as [|i' p].
  - apply count_elements_take_alter. intros n. apply is_element_alter_below.
  - destruct (decide (j = i)) as [->|Hne].
    + rewrite list_lookup_alter_eq.
      destruct (ns !! i) as [n|]; [|reflexivity]. cbn [fmap option_fmap option_map].
      destruct q as [|j' q].
      * destruct n; reflexivity.
      * rewrite children_alter_below by discriminate. apply IH.
    + rewrite list_lookup_alter_ne by exact Hne. reflexivity.
Qed.

Lemma element_at_app (p q : path) (ns : list node) :
  p <> [] -> q <> [] -> element_at ns (p ++ q) = element_at (children_at ns p) q.
Proof. intros Hp Hq. unfold element_at. now rewrite node_at_app. Qed.

Lemma child_index_app (p q : path) (ns : list node) :
  p <> [] -> q <> [] -> child_index ns (p ++ q) = child_index (children_at ns p) q.
Proof.
  revert ns. induction p as [|i p IH]; intros ns Hp Hq; [congruence|].
  unfold children_at. cbn [node_at app child_index].
  destruct p as [|i' p].
  - simpl. destruct q as [|j q]; [congruence|].
    destruct (ns !! i) as [n|]; [reflexivity|].
    destruct q; reflexivity.
  - change ((i' :: p) ++ q) with (i' :: (p ++ q)).
    destruct (ns !! i) as [n|].
    + change (child_index (children n) (i' :: p ++ q))
        with (child_index (children n) ((i' :: p) ++ q)).
      rewrite IH by (discriminate || exact Hq). reflexivity.
    + destruct q as [|j q]; [congruence|].
      destruct q; reflexivity.
Qed.

(* ===================================================================== *)
(** ** What [querySelectorAll] finds *)
(* ===================================================================== *)

Lemma count_elements_take_cons (c : node) (cs : list node) (j : nat) :
  count_elements (take (S j) (c :: cs)) =
  ((if is_element c then 1 else 0) + count_elements (take j cs))%nat.
Proof. unfold count_elements. simpl. now destruct (is_element c). Qed.

Lemma in_walk_children (W : nat -> node -> list located) (i k : nat)
    (cs : list node) (l : located) :
  In l (walk_children W i k cs) <->
  exists j c l', cs !! j = Some c
                 /\ In l' (W (k + count_elements (take (S j) cs))%nat c)
                 /\ l = push (i + j) l'.
Proof.
  revert i k. induction cs as [|c0 cs IH]; intros i k.
  - simpl. split; [tauto|]. intros (j & c & l' & H & _). discriminate.
  - cbn [walk_children]. rewrite in_app_iff, in_map_iff, IH. split.
    + intros [(l' & <- & Hl')|(j & c & l' & Hj & Hl' & ->)].
      * exists 0%nat, c0, l'. split; [reflexivity|]. split.
        -- rewrite count_elements_take_cons. simpl.
           destruct (is_element c0); [now rewrite Nat.add_1_r in *|now rewrite Nat.add_0_r].
        -- now rewrite Nat.add_0_r.
      * exists (S j), c, l'. split; [exact Hj|]. split.
        -- rewrite count_elements_take_cons.
           destruct (is_element c0).
           ++ now replace (k + (1 + count_elements (take (S j) cs)))%nat
                with (S k + count_elements (take (S j) cs))%nat by lia.
           ++ exact Hl'.
        -- f_equal. lia.
    + intros (j & c & l' & Hj & Hl' & ->).
      rewrite count_elements_take_cons in Hl'.
      destruct j as [|j].
      * left. exists l'. simpl in Hj. inversion Hj; subst c.
        split; [now rewrite Nat.add_0_r|].
        simpl in Hl'.
        destruct (is_element c0); [now rewrite Nat.add_1_r in Hl'|now rewrite Nat.add_0_r in Hl'].
      * right. exists j, c, l'. split; [exact Hj|]. split.
        -- destruct (is_element c0).
           ++ now replace (k + (1 + count_elements (take (S j) cs)))%nat
                with (S k + count_elements (take (S j) cs))%nat in Hl' by lia.
           ++ exact Hl'.
        -- f_equal. lia.
Qed.

(** An element found below [cs] is the [j]-th child or lies below it. *)
Lemma in_descendants (anc : list (element * nat)) (cs : list node) (l : located) :
  In l (descendants anc cs) <->
  exists j e cs',
    cs !! j = Some (Element e cs')
    /\ let k := count_elements (take (S j) cs) in
       (l = {| loc_path := [j]; loc_elem := e; loc_index := k; loc_ancestors := anc |}
        \/ exists l', In l' (descendants ((e, k) :: anc) cs') /\ l = push j l').
Proof.
  unfold descendants at 1. rewrite in_walk_children. split.
  - intros (j & c & l' & Hj & Hl' & ->).
    destruct c as [d|e cs']; [destruct Hl'|].
    exists j, e, cs'. split; [exact Hj|]. simpl in *.
    destruct Hl' as [<-|Hl']; [now left|right; eauto].
  - intros (j & e & cs' & Hj & [->|(l' & Hl' & ->)]).
    + exists j, (Element e cs'), {| loc_path := []; loc_elem := e;
        loc_index := count_elements (take (S j) cs); loc_ancestors := anc |}.
      split; [exact Hj|]. split; [now left|reflexivity].
    + exists j, (Element e cs'), l'. split; [exact Hj|]. split; [now right|reflexivity].
Qed.

Lemma descendants_sound (p : path) :
  forall anc cs l,
    In l (descendants anc cs) -> loc_path l = p ->
    element_at cs p = Some (loc_elem l)
    /\ loc_index l = child_index cs p
    /\ loc_ancestors l = ancestors_at cs p ++ anc.
Proof.
  induction p as [|i p IH]; intros anc cs l Hl Hp;
    apply in_descendants in Hl; destruct Hl as (j & e & cs' & Hj & Hl); simpl in Hl.
  - destruct Hl as [->|(l' & _ & ->)]; discriminate.
  - destruct Hl as [->|(l' & Hl' & ->)].
    + simpl in Hp. inversion Hp; subst i p. unfold element_at. simpl. rewrite Hj. auto.
    + simpl in Hp. inversion Hp; subst i.
      destruct (IH _ _ _ Hl' H1) as (He & Hi & Ha).
      assert (Hne : p <> []).
      { intros ->. unfold element_at in He. discriminate. }
      destruct p as [|i' p]; [congruence|].
      unfold element_at in *. cbn [node_at child_index ancestors_at]. rewrite Hj. cbn [children].
      rewrite !H1.
      split; [exact He|]. split; [exact Hi|].
      simpl loc_ancestors. rewrite Ha, <- app_assoc. reflexivity.
Qed.

Lemma descendants_complete (p : path) :
  forall anc cs e,
    element_at cs p = Some e ->
    exists l, In l (descendants anc cs) /\ loc_path l = p.
Proof.
  induction p as [|i p IH]; intros anc cs e He; [discriminate|].
  unfold element_at in He. cbn [node_at] in He.
  destruct (cs !! i) as [n|] eqn:Hi; [|discriminate].
  destruct p as [|i' p].
  - destruct n as [d|e' cs']; [discriminate|].
    exists {| loc_path := [i]; loc_elem := e';
              loc_index := count_elements (take (S i) cs); loc_ancestors := anc |}.
    split; [|reflexivity].
    apply in_descendants. exists i, e', cs'. split; [exact Hi|]. left. reflexivity.
  - destruct n as [d|e' cs'].
    + simpl in He. discriminate.
    + destruct (IH ((e', count_elements (take (S i) cs)) :: anc) cs' e) as (l' & Hl' & Hp').
      { exact He. }
      exists (push i l'). split; [|simpl; now rewrite Hp'].
      apply in_descendants. exists i, e', cs'. split; [exact Hi|]. right. eauto.
Qed.

(** *** Document order *)

Lemma path_lt_irrefl (p : path) : ~ path_lt p p.
Proof. induction p as [|i p IH]; simpl; [tauto|]. intros [H|[_ H]]; [lia|tauto]. Qed.


Lemma sorted_push (i : nat) (l : list located) :
  StronglySorted loc_lt l -> StronglySorted loc_lt (map (push i) l).
Proof.
  induction 1 as [|a l _ IH Ha]; simpl; constructor; [exact IH|].
  rewrite Forall_forall in *. intros x Hx.
  apply list_elem_of_In, in_map_iff in Hx. destruct Hx as (b & <- & Hb).
  unfold loc_lt. simpl. right. split; [reflexivity|].
  apply Ha. now apply list_elem_of_In.
Qed.

Lemma walk_children_sorted (W : nat -> node -> list located) (cs : list node) :
  Forall (fun c => forall k, StronglySorted loc_lt (W k c)) cs ->
  forall i k,
    StronglySorted loc_lt (walk_children W i k cs)
    /\ Forall (fun l => exists j p, loc_path l = j :: p /\ (i <= j)%nat)
              (walk_children W i k cs).
Proof.
  induction 1 as [|c cs Hc _ IH]; intros i k; simpl; [split; constructor|].
  destruct (IH (S i) (if is_element c then S k else k)) as [IHs IHp].
  assert (Hhd : Forall (fun l => exists j p, loc_path l = j :: p /\ (i <= j)%nat)
                  (map (push i) (W (if is_element c then S k else k) c))).
  { rewrite Forall_forall. intros x Hx.
    apply list_elem_of_In, in_map_iff in Hx. destruct Hx as (b & <- & _).
    exists i, (loc_path b). split; [reflexivity|lia]. }
  split.
  - apply StronglySorted_app_2; [|now apply sorted_push|exact IHs].
    intros x1 x2 H1 H2.
    apply list_elem_of_In, in_map_iff in H1. destruct H1 as (b & <- & _).
    rewrite Forall_forall in IHp. destruct (IHp _ H2) as (j & p & Hp & Hj).
    unfold loc_lt. rewrite Hp. simpl. left. lia.
  - apply Forall_app. split; [exact Hhd|].
    eapply Forall_impl; [exact IHp|].
    intros x (j & p & Hp & Hj). exists j, p. split; [exact Hp|lia].
Qed.

Lemma walk_sorted (n : node) :
  forall anc idx, StronglySorted loc_lt (walk anc idx n).
Proof.
  induction n as [d|e cs IH] using node_ind'; intros anc idx; simpl; [constructor|].
  assert (H : Forall (fun c => forall k, StronglySorted loc_lt (walk ((e, idx) :: anc) k c)) cs).
  { eapply Forall_impl; [exact IH|]. intros c Hc k. apply Hc. }
  destruct (walk_children_sorted _ _ H 0%nat 0%nat) as [Hs Hp].
  constructor; [exact Hs|].
  eapply Forall_impl; [exact Hp|].
  intros x (j & p & Hx & _). unfold loc_lt. simpl. now rewrite Hx.
Qed.

Lemma descendants_sorted (anc : list (element * nat)) (cs : list node) :
  StronglySorted loc_lt (descendants anc cs).
Proof.
  apply walk_children_sorted.
  rewrite Forall_forall. intros c _ k. apply walk_sorted.
Qed.

Lemma sorted_filter (f : located -> bool) (l : list located) :
  StronglySorted loc_lt l -> StronglySorted loc_lt (List.filter f l).
Proof.
  induction 1 as [|a l _ IH Ha]; simpl; [constructor|].
  destruct (f a); [|exact IH].
  constructor; [exact IH|].
  rewrite Forall_forall in *. intros x Hx.
  apply list_elem_of_In, filter_In in Hx. apply Ha, list_elem_of_In, Hx.
Qed.

Lemma querySelectorAll_sorted anc s cs :
  StronglySorted loc_lt (querySelectorAll anc s cs).
Proof. apply sorted_filter, descendants_sorted. Qed.

Lemma sorted_NoDup_paths (l : list located) :
  StronglySorted loc_lt l -> NoDup (map loc_path l).
Proof.
  induction 1 as [|a l _ IH Ha]; simpl; constructor; [|exact IH].
  intros Hin. apply list_elem_of_In, in_map_iff in Hin. destruct Hin as (b & Hb & Hin).
  rewrite Forall_forall in Ha. apply list_elem_of_In, Ha in Hin.
  unfold loc_lt in Hin. rewrite Hb in Hin. exact (path_lt_irrefl _ Hin).
Qed.

(* ===================================================================== *)
(** ** The table of contents *)
(* ===================================================================== *)

Lemma heading_id_agree (d dom : list node) (h : located) :
  element_at d (loc_path h) = element_at dom (loc_path h) ->
  textContent_at d (loc_path h) = textContent_at dom (loc_path h) ->
  heading_id d h = heading_id dom h.
Proof. intros He Ht. unfold heading_id. now rewrite He, Ht. Qed.

Lemma current_fragment_with_fragment (ns : list node) (pg : page) :
  markdown_container pg <> None -> current_fragment (with_fragment ns pg) = ns.
Proof.
  unfold current_fragment, with_fragment. simpl.
  destruct (markdown_container pg); [reflexivity|congruence].
Qed.

Lemma toc_entries_step (h : located) (rest : list located) (idx : nat)
    (ul : list node) (pg : page) :
  toc_entries (h :: rest) idx ul pg =
  toc_entries rest (S idx)
    (ul ++ [toc_entry idx (textContent_at (current_fragment pg) (loc_path h))
                      (heading_id (current_fragment pg) h)])
    (with_event (Console (LogHeading (S idx)
                            (textContent_at (current_fragment pg) (loc_path h))
                            (heading_id (current_fragment pg) h)))
       (with_fragment (modify_at (set_id (heading_id (current_fragment pg) h))
                                 (loc_path h) (current_fragment pg)) pg)).
Proof. reflexivity. Qed.

(** The pass over the headings: each heading gets the identifier that the
    fragment gave it before the pass, and one entry. *)
Lemma toc_entries_run (dom : list node) (hs : list located) :
  NoDup (map loc_path hs) ->
  forall idx ul pg,
    markdown_container pg <> None ->
    (forall h, In h hs ->
               element_at (current_fragment pg) (loc_path h) = element_at dom (loc_path h)) ->
    (forall p, textContent_at (current_fragment pg) p = textContent_at dom p) ->
    fst (toc_entries hs idx ul pg) = inr (ul ++ toc_items dom idx hs)
    /\ current_fragment (snd (toc_entries hs idx ul pg))
       = with_ids dom hs (current_fragment pg)
    /\ events (snd (toc_entries hs idx ul pg)) = events pg ++ toc_log dom idx hs
    /\ TableOfContents (snd (toc_entries hs idx ul pg)) = TableOfContents pg
    /\ toc_content_auto (snd (toc_entries hs idx ul pg)) = toc_content_auto pg
    /\ (dataset_file <$> markdown_container (snd (toc_entries hs idx ul pg)))
       = (dataset_file <$> markdown_container pg).
Proof.
  induction hs as [|h rest IH]; intros Hnd idx ul pg Hc He Ht.
  - simpl. rewrite !app_nil_r. repeat split; reflexivity.
  - rewrite toc_entries_step.
    inversion Hnd as [|? ? Hnotin Hnd']; subst.
    assert (Hid : heading_id (current_fragment pg) h = heading_id dom h).
    { apply heading_id_agree; [apply He; now left|apply Ht]. }
    rewrite Hid, (Ht (loc_path h)).
    set (pg1 := with_event _ (with_fragment _ pg)).
    assert (Hc1 : markdown_container pg1 <> None).
    { unfold pg1. simpl. destruct (markdown_container pg); congruence. }
    assert (Hf1 : current_fragment pg1
                  = modify_at (set_id (heading_id dom h)) (loc_path h) (current_fragment pg)).
    { unfold pg1. unfold current_fragment at 1. simpl.
      destruct (markdown_container pg); [reflexivity|congruence]. }
    destruct (IH Hnd' (S idx)
                (ul ++ [toc_entry idx (textContent_at dom (loc_path h)) (heading_id dom h)])
                pg1 Hc1) as (R1 & R2 & R3 & R4 & R5 & R6).
    + intros h' Hh'. rewrite Hf1, element_at_modify_at.
      rewrite decide_False; [apply He; now right|].
      intros Heq. apply Hnotin. rewrite <- Heq.
      apply list_elem_of_In, in_map, Hh'.
    + intros p. rewrite Hf1, textContent_at_modify_at. apply Ht.
    + rewrite R1, R2, R3, R4, R5, R6, Hf1. cbn [toc_items toc_log with_ids fold_left].
      unfold pg1. simpl. rewrite <- !app_assoc. simpl.
      destruct (markdown_container pg); [|congruence].
      repeat split; reflexivity.
Qed.

Lemma toc_log_console (dom : list node) (hs : list located) (idx : nat) :
  Forall is_console (toc_log dom idx hs).
Proof. revert idx. induction hs; intros idx; simpl; constructor; [exact I|auto]. Qed.

Lemma toc_items_length (dom : list node) (hs : list located) (idx : nat) :
  length (toc_items dom idx hs) = length hs.
Proof. revert idx. induction hs; intros idx; simpl; [reflexivity|]. now rewrite IHhs. Qed.

Lemma toc_entry_flat (idx : nat) (label headingId : jsstring) :
  flat_entry (toc_entry idx label headingId).
Proof.
  unfold flat_entry, toc_entry.
  destruct (Nat.eqb idx 0); eexists _, _, label; repeat split.
Qed.

Lemma toc_items_flat (dom : list node) (hs : list located) (idx : nat) :
  Forall flat_entry (toc_items dom idx hs).
Proof.
  revert idx. induction hs; intros idx; simpl; constructor; [apply toc_entry_flat|auto].
Qed.

Lemma textContent_set_textContent (s : jsstring) :
  concat (map textContent (set_textContent s)) = s.
Proof. destruct s; [reflexivity|]. simpl. now rewrite app_nil_r. Qed.

Lemma entry_label_toc_entry (idx : nat) (label headingId : jsstring) :
  entry_label (toc_entry idx label headingId) = label.
Proof. unfold toc_entry. simpl. apply textContent_set_textContent. Qed.

Lemma entry_href_toc_entry (idx : nat) (label headingId : jsstring) :
  entry_href (toc_entry idx label headingId) = str "#" ++ headingId.
Proof. unfold toc_entry. simpl. now destruct (Nat.eqb idx 0). Qed.

Lemma toc_items_labels (dom : list node) (hs : list located) (idx : nat) :
  map entry_label (toc_items dom idx hs)
  = map (fun h => textContent_at dom (loc_path h)) hs.
Proof.
  revert idx. induction hs as [|h hs IH]; intros idx; [reflexivity|].
  cbn [toc_items map]. now rewrite entry_label_toc_entry, IH.
Qed.

Lemma toc_items_hrefs (dom : list node) (hs : list located) (idx : nat) :
  map entry_href (toc_items dom idx hs)
  = map (fun h => str "#" ++ heading_id dom h) hs.
Proof.
  revert idx. induction hs as [|h hs IH]; intros idx; [reflexivity|].
  cbn [toc_items map]. now rewrite entry_href_toc_entry, IH.
Qed.

Lemma headings_NoDup (dom : list node) :
  NoDup (map loc_path (querySelectorAll [] sel_headings dom)).
Proof. apply sorted_NoDup_paths, querySelectorAll_sorted. Qed.

Lemma generate_toc_builds (pg : page) (c : render_target) (old : list node)
    (h : located) (hs : list located) :
  toc_content_auto pg = true ->
  markdown_container pg = Some c ->
  TableOfContents pg = Some old ->
  querySelectorAll [] sel_headings (fragment c) = h :: hs ->
  fst (generate_toc pg) = inr tt
  /\ TableOfContents (snd (generate_toc pg))
     = Some [Element (createElement "ul") (toc_items (fragment c) 0 (h :: hs))]
  /\ current_fragment (snd (generate_toc pg))
     = with_ids (fragment c) (h :: hs) (fragment c)
  /\ events (snd (generate_toc pg))
     = events pg
       ++ [Console LogTocStart; Console LogFoundTocAuto; Console LogFoundContainer;
           Console LogFoundTocNav; Console (LogHeadingCount (length (h :: hs)))]
       ++ toc_log (fragment c) 0 (h :: hs)
       ++ [Console (LogTocDone (length (h :: hs)))].
Proof.
  intros Ha Hc Ht Hq.
  unfold generate_toc, bind, console, emit, get_page.
  cbn [toc_content_auto markdown_container TableOfContents with_event].
  rewrite Ha, Hc, Ht, Hq.
  set (pg4 := with_event _ (with_event _ (with_event _ (with_event _ (with_event _ pg))))).
  assert (Hc4 : markdown_container pg4 <> None) by (unfold pg4; simpl; congruence).
  assert (Hf4 : current_fragment pg4 = fragment c).
  { unfold pg4, current_fragment. simpl. now rewrite Hc. }
  pose proof (headings_NoDup (fragment c)) as Hnd. rewrite Hq in Hnd.
  destruct (toc_entries_run (fragment c) (h :: hs) Hnd 0%nat [] pg4 Hc4)
    as (R1 & R2 & R3 & R4 & R5 & R6).
  { intros h' _. now rewrite Hf4. }
  { intros p. now rewrite Hf4. }
  destruct (toc_entries (h :: hs) 0 [] pg4) as [[e|ul] pg5] eqn:Hrun;
    cbn [fst snd] in *; [discriminate|].
  inversion R1; subst ul.
  cbn [fst snd put_toc with_toc with_event TableOfContents events markdown_container].
  rewrite R4. unfold pg4 at 1. cbn [TableOfContents with_event]. rewrite Ht.
  split; [reflexivity|]. split; [reflexivity|]. split.
  - change (current_fragment pg5 = with_ids (fragment c) (h :: hs) (fragment c)).
    rewrite R2, Hf4. reflexivity.
  - rewrite R3. unfold pg4. simpl. rewrite <- !app_assoc. reflexivity.
Qed.

Lemma querySelectorAll_sound anc s cs (l : located) :
  In l (querySelectorAll anc s cs) ->
  element_at cs (loc_path l) = Some (loc_elem l)
  /\ loc_index l = child_index cs (loc_path l)
  /\ loc_ancestors l = ancestors_at cs (loc_path l) ++ anc
  /\ matches s l = true.
Proof.
  unfold querySelectorAll. intros H. apply filter_In in H. destruct H as [H Hm].
  destruct (descendants_sound _ _ _ _ H eq_refl) as (H1 & H2 & H3). auto.
Qed.

Lemma with_ids_other (dom : list node) (hs : list located) (d : list node) (p : path) :
  ~ In p (map loc_path hs) ->
  element_at (with_ids dom hs d) p = element_at d p.
Proof.
  revert d. induction hs as [|h hs IH]; intros d Hp; [reflexivity|].
  unfold with_ids in *. cbn [fold_left]. rewrite IH.
  - rewrite element_at_modify_at, decide_False; [reflexivity|].
    intros ->. apply Hp. now left.
  - intros H. apply Hp. now right.
Qed.

Lemma with_ids_at (dom : list node) (hs : list located) :
  NoDup (map loc_path hs) ->
  forall d h, In h hs ->
    element_at (with_ids dom hs d) (loc_path h)
    = set_id (heading_id dom h) <$> element_at d (loc_path h).
Proof.
  induction hs as [|h0 hs IH]; intros Hnd d h Hin; [destruct Hin|].
  inversion Hnd as [|? ? Hnotin Hnd']; subst.
  rewrite list_elem_of_In in Hnotin.
  change (with_ids dom (h0 :: hs) d)
    with (with_ids dom hs (modify_at (set_id (heading_id dom h0)) (loc_path h0) d)).
  destruct Hin as [<-|Hin].
  - rewrite with_ids_other by exact Hnotin.
    rewrite element_at_modify_at, decide_True by reflexivity. reflexivity.
  - rewrite (IH Hnd' _ _ Hin), element_at_modify_at, decide_False; [reflexivity|].
    intros Heq. apply Hnotin. rewrite <- Heq. apply in_map, Hin.
Qed.

Lemma with_ids_textContent (dom : list node) (hs : list located) (d : list node) (p : path) :
  textContent_at (with_ids dom hs d) p = textContent_at d p.
Proof.
  revert d. induction hs as [|h hs IH]; intros d; [reflexivity|].
  unfold with_ids in *. cbn [fold_left]. now rewrite IH, textContent_at_modify_at.
Qed.

(** The identifier a heading gets, in terms of the element it is. *)
Lemma heading_id_element (dom : list node) (h : located) (e : element) :
  element_at dom (loc_path h) = Some e ->
  heading_id dom h =
  match el_id e with
  | [] => word_slug (textContent_at dom (loc_path h))
  | own => own
  end.
Proof.
  intros He. unfold heading_id. rewrite He, slugify_word_slug. reflexivity.
Qed.

Lemma map_constant {A B} (f : A -> B) (v : B) (l : list A) :
  (forall x, In x l -> f x = v) -> map f l = repeat v (length l).
Proof.
  induction l as [|a l IH]; intros H; [reflexivity|].
  simpl. rewrite (H a) by now left. f_equal. apply IH. intros x Hx. apply H. now right.
Qed.

(** C1, as the code has it: the list has one entry per heading, and the
    assigned identifier is a function of the heading alone, so headings
    with one text and no identifier of their own all get the slug of that
    text, and their entries one and the same [href]. *)
Theorem equal_headings_share_href (pg : page) (c : render_target) (old : list node)
    (h : located) (hs : list located) (t : jsstring) :
  toc_content_auto pg = true ->
  markdown_container pg = Some c ->
  TableOfContents pg = Some old ->
  querySelectorAll [] sel_headings (fragment c) = h :: hs ->
  (forall k, In k (h :: hs) ->
             el_id (loc_elem k) = [] /\ textContent_at (fragment c) (loc_path k) = t) ->
  exists entries,
    TableOfContents (snd (generate_toc pg)) = Some [Element (createElement "ul") entries]
    /\ length entries = length (h :: hs)
    /\ map entry_href entries = repeat (str "#" ++ slugify t) (length (h :: hs))
    /\ forall k, In k (h :: hs) ->
         el_id <$> element_at (current_fragment (snd (generate_toc pg))) (loc_path k)
         = Some (slugify t).
Proof.
  intros Ha Hc Ht Hq Hsame.
  destruct (generate_toc_builds pg c old h hs Ha Hc Ht Hq) as (_ & Htoc & Hfrag & _).
  assert (Hid : forall k, In k (h :: hs) -> heading_id (fragment c) k = slugify t).
  { intros k Hk. destruct (Hsame k Hk) as [Hno Htxt].
    assert (Hin : In k (querySelectorAll [] sel_headings (fragment c))) by now rewrite Hq.
    apply querySelectorAll_sound in Hin. destruct Hin as (He & _).
    unfold heading_id. now rewrite He, Hno, Htxt. }
  exists (toc_items (fragment c) 0 (h :: hs)).
  split; [exact Htoc|]. split; [apply toc_items_length|]. split.
  - rewrite toc_items_hrefs. apply map_constant. intros k Hk. now rewrite Hid.
  - intros k Hk. rewrite Hfrag.
    pose proof (headings_NoDup (fragment c)) as Hnd. rewrite Hq in Hnd.
    rewrite (with_ids_at _ _ Hnd _ _ Hk), (Hid k Hk).
    assert (Hin : In k (querySelectorAll [] sel_headings (fragment c))) by now rewrite Hq.
    apply querySelectorAll_sound in Hin. destruct Hin as (He & _).
    now rewrite He.
Qed.

Lemma equal_headings_share_href_witness :
  exists entries,
    TableOfContents (snd (generate_toc (page_of three_titles)))
    = Some [Element (createElement "ul") entries]
    /\ length entries = 3%nat
    /\ map entry_href entries = repeat (str "#" ++ slugify (str "Title")) 3
    /\ forall k, In k [top_level 0 1 "h1"; top_level 1 2 "h2"; top_level 2 3 "h3"] ->
         el_id <$> element_at (current_fragment (snd (generate_toc (page_of three_titles))))
                              (loc_path k)
         = Some (slugify (str "Title")).
Proof.
  apply (equal_headings_share_href (page_of three_titles)
           {| dataset_file := Some (str "post.md"); fragment := three_titles |} []
           (top_level 0 1 "h1") [top_level 1 2 "h2"; top_level 2 3 "h3"] (str "Title")).
  - reflexivity.
  - reflexivity.
  - reflexivity.
  - reflexivity.
  - intros k [<-|[<-|[<-|[]]]]; split; reflexivity.
Defined.

(** C1 fails: three headings with the text "Title" give three entries
    with the one [href] "#title". *)
Lemma identical_headings_share_href :
  exists entries,
    TableOfContents
      (viewer (sample_externals ok_response three_titles no_highlight false)
              (blank_page (Some (str "post.md"))))
    = Some [Element (createElement "ul") entries]
    /\ length entries = 3%nat
    /\ map entry_href entries = [str "#title"; str "#title"; str "#title"]
    /\ ~ NoDup (map entry_href entries).
Proof.
  eexists. split; [vm_compute; reflexivity|].
  split; [reflexivity|]. split; [reflexivity|].
  intros H. inversion H as [|x l Hx _]; subst. apply Hx. now left.
Qed.

(** C8, as the code has it: a heading keeps an identifier of its own;
    one without gets the slug of its text, which is the words of the text
    (so nothing of the whitespace around it) joined by one hyphen each,
    without the code units outside [[A-Za-z0-9_-]], lowercased. *)
Theorem heading_gets_own_id_or_word_slug (pg : page) (c : render_target)
    (old : list node) (h : located) (hs : list located) (k : located) :
  toc_content_auto pg = true ->
  markdown_container pg = Some c ->
  TableOfContents pg = Some old ->
  querySelectorAll [] sel_headings (fragment c) = h :: hs ->
  In k (h :: hs) ->
  element_at (current_fragment (snd (generate_toc pg))) (loc_path k)
  = Some (set_id (match el_id (loc_elem k) with
                  | [] => word_slug (textContent_at (fragment c) (loc_path k))
                  | own => own
                  end) (loc_elem k)).
Proof.
  intros Ha Hc Ht Hq Hk.
  destruct (generate_toc_builds pg c old h hs Ha Hc Ht Hq) as (_ & _ & Hfrag & _).
  pose proof (headings_NoDup (fragment c)) as Hnd. rewrite Hq in Hnd.
  assert (Hin : In k (querySelectorAll [] sel_headings (fragment c))) by now rewrite Hq.
  apply querySelectorAll_sound in Hin. destruct Hin as (He & _).
  rewrite Hfrag, (with_ids_at _ _ Hnd _ _ Hk), He, (heading_id_element _ _ _ He).
  reflexivity.
Qed.

Lemma heading_gets_own_id_or_word_slug_witness :
  element_at (current_fragment (snd (generate_toc (page_of own_and_derived)))) [0%nat]
  = Some (set_id (str "Intro") (set_id (str "Intro") (createElement "h1")))
  /\ element_at (current_fragment (snd (generate_toc (page_of own_and_derived)))) [1%nat]
     = Some (set_id (str "hello-world") (createElement "h2")).
Proof.
  split.
  - apply (heading_gets_own_id_or_word_slug (page_of own_and_derived)
             {| dataset_file := Some (str "post.md"); fragment := own_and_derived |} []
             {| loc_path := [0%nat]; loc_elem := set_id (str "Intro") (createElement "h1");
                loc_index := 1; loc_ancestors := [] |}
             [top_level 1 2 "h2"]
             {| loc_path := [0%nat]; loc_elem := set_id (str "Intro") (createElement "h1");
                loc_index := 1; loc_ancestors := [] |});
      [reflexivity|reflexivity|reflexivity|reflexivity|now left].
  - apply (heading_gets_own_id_or_word_slug (page_of own_and_derived)
             {| dataset_file := Some (str "post.md"); fragment := own_and_derived |} []
             {| loc_path := [0%nat]; loc_elem := set_id (str "Intro") (createElement "h1");
                loc_index := 1; loc_ancestors := [] |}
             [top_level 1 2 "h2"] (top_level 1 2 "h2"));
      [reflexivity|reflexivity|reflexivity|reflexivity|right; now left].
Defined.

(** C8 fails: the underscore is neither alphanumeric nor the separator,
    and the viewer keeps it; and the whitespace around a text is dropped,
    not turned into a separator. *)
Lemma underscore_is_kept :
  el_id <$> element_at
              (current_fragment
                 (viewer (sample_externals ok_response snake_heading no_highlight false)
                         (blank_page (Some (str "post.md"))))) [0%nat]
  = Some (str "a_b")
  /\ spec_slug (str "a_b") = str "ab"
  /\ str "a_b" <> spec_slug (str "a_b")
  /\ slugify (str " a") = str "a"
  /\ spec_slug (str " a") = str "-a".
Proof.
  split; [reflexivity|]. split; [reflexivity|]. split; [discriminate|].
  split; reflexivity.
Qed.

(** C9: the list is flat.  Whatever their levels, the headings give one
    [li] each, in document order, directly below the one [ul], and a [li]
    holds nothing but its link. *)
Theorem toc_is_one_flat_list (pg : page) (c : render_target) (old : list node)
    (h : located) (hs : list located) :
  toc_content_auto pg = true ->
  markdown_container pg = Some c ->
  TableOfContents pg = Some old ->
  querySelectorAll [] sel_headings (fragment c) = h :: hs ->
  StronglySorted loc_lt (h :: hs)
  /\ exists entries,
       TableOfContents (snd (generate_toc pg)) = Some [Element (createElement "ul") entries]
       /\ length entries = length (h :: hs)
       /\ Forall flat_entry entries
       /\ map entry_label entries
          = map (fun k => textContent_at (fragment c) (loc_path k)) (h :: hs).
Proof.
  intros Ha Hc Ht Hq.
  destruct (generate_toc_builds pg c old h hs Ha Hc Ht Hq) as (_ & Htoc & _).
  split; [rewrite <- Hq; apply querySelectorAll_sorted|].
  exists (toc_items (fragment c) 0 (h :: hs)).
  split; [exact Htoc|]. split; [apply toc_items_length|].
  split; [apply toc_items_flat|apply toc_items_labels].
Qed.

Lemma toc_is_one_flat_list_witness :
  StronglySorted loc_lt [top_level 0 1 "h1"; top_level 1 2 "h2"; top_level 2 3 "h3"]
  /\ exists entries,
       TableOfContents (snd (generate_toc (page_of three_titles)))
       = Some [Element (createElement "ul") entries]
       /\ length entries = 3%nat
       /\ Forall flat_entry entries
       /\ map entry_label entries = [str "Title"; str "Title"; str "Title"].
Proof.
  apply (toc_is_one_flat_list (page_of three_titles)
           {| dataset_file := Some (str "post.md"); fragment := three_titles |} []
           (top_level 0 1 "h1") [top_level 1 2 "h2"; top_level 2 3 "h3"]);
    reflexivity.
Defined.

(** C10, as the code has it: a heading without an identifier of its own,
    whose text has no code unit of [[A-Za-z0-9_-]] and, once trimmed, no
    whitespace, is given the empty identifier, and its entry links to
    "#". *)
Theorem empty_slug_gives_bare_hash (pg : page) (c : render_target) (old : list node)
    (h : located) (hs : list located) (i : nat) (k : located) :
  toc_content_auto pg = true ->
  markdown_container pg = Some c ->
  TableOfContents pg = Some old ->
  querySelectorAll [] sel_headings (fragment c) = h :: hs ->
  (h :: hs) !! i = Some k ->
  el_id (loc_elem k) = [] ->
  (forall u, In u (textContent_at (fragment c) (loc_path k)) -> is_word_or_hyphen u = false) ->
  (forall u, In u (trim (textContent_at (fragment c) (loc_path k))) -> is_space u = false) ->
  heading_id (fragment c) k = []
  /\ el_id <$> element_at (current_fragment (snd (generate_toc pg))) (loc_path k) = Some []
  /\ exists entries,
       TableOfContents (snd (generate_toc pg)) = Some [Element (createElement "ul") entries]
       /\ entry_href <$> entries !! i = Some (str "#").
Proof.
  intros Ha Hc Ht Hq Hi Hno Hw Hs.
  destruct (generate_toc_builds pg c old h hs Ha Hc Ht Hq) as (_ & Htoc & Hfrag & _).
  assert (Hk : In k (h :: hs)).
  { apply list_elem_of_In, list_elem_of_lookup. eauto. }
  assert (Hin : In k (querySelectorAll [] sel_headings (fragment c))) by now rewrite Hq.
  apply querySelectorAll_sound in Hin. destruct Hin as (He & _).
  assert (Hid : heading_id (fragment c) k = []).
  { unfold heading_id. rewrite He, Hno. now apply slugify_empty. }
  pose proof (headings_NoDup (fragment c)) as Hnd. rewrite Hq in Hnd.
  split; [exact Hid|]. split.
  - rewrite Hfrag, (with_ids_at _ _ Hnd _ _ Hk), He, Hid. reflexivity.
  - exists (toc_items (fragment c) 0 (h :: hs)). split; [exact Htoc|].
    rewrite <- list_lookup_fmap.
    change (fmap entry_href (toc_items (fragment c) 0 (h :: hs)))
      with (map entry_href (toc_items (fragment c) 0 (h :: hs))).
    rewrite toc_items_hrefs.
    change (map (fun h0 => str "#" ++ heading_id (fragment c) h0) (h :: hs))
      with (fmap (fun h0 => str "#" ++ heading_id (fragment c) h0) (h :: hs)).
    rewrite list_lookup_fmap, Hi. simpl. now rewrite Hid.
Qed.

Lemma empty_slug_gives_bare_hash_witness :
  heading_id punctuation_heading (top_level 0 1 "h2") = []
  /\ el_id <$> element_at (current_fragment (snd (generate_toc (page_of punctuation_heading))))
                          [0%nat] = Some []
  /\ exists entries,
       TableOfContents (snd (generate_toc (page_of punctuation_heading)))
       = Some [Element (createElement "ul") entries]
       /\ entry_href <$> entries !! 0%nat = Some (str "#").
Proof.
  apply (empty_slug_gives_bare_hash (page_of punctuation_heading)
           {| dataset_file := Some (str "post.md"); fragment := punctuation_heading |} []
           (top_level 0 1 "h2") [] 0 (top_level 0 1 "h2"));
    try reflexivity.
  - intros u [<-|[<-|[]]]; reflexivity.
  - intros u [<-|[<-|[]]]; reflexivity.
Defined.

(** C10 fails: "! !" has no alphanumeric, underscore or hyphen, yet the
    whitespace inside it becomes a hyphen, which stays. *)
Lemma inner_whitespace_leaves_hyphen :
  forallb (fun u => negb (is_word_or_hyphen u)) (str "! !") = true
  /\ el_id <$> element_at
                 (current_fragment
                    (viewer (sample_externals ok_response spaced_punctuation_heading
                                              no_highlight false)
                            (blank_page (Some (str "post.md"))))) [0%nat]
     = Some (str "-")
  /\ exists entry,
       TableOfContents
         (viewer (sample_externals ok_response spaced_punctuation_heading no_highlight false)
                 (blank_page (Some (str "post.md"))))
       = Some [Element (createElement "ul") [entry]]
       /\ entry_href entry = str "#-"
       /\ entry_href entry <> str "#".
Proof.
  split; [reflexivity|]. split; [reflexivity|].
  eexists. split; [vm_compute; reflexivity|]. split; [reflexivity|discriminate].
Qed.

(* ===================================================================== *)
(** ** The chain *)
(* ===================================================================== *)

Ltac run_toc :=
  unfold generate_toc, bind, console, emit, get_page, ret;
  cbn [toc_content_auto markdown_container TableOfContents with_event fst snd events].

Lemma generate_toc_returns (pg : page) :
  fst (generate_toc pg) = inr tt
  /\ exists evs, events (snd (generate_toc pg)) = events pg ++ Console LogTocStart :: evs
                 /\ Forall is_console evs.
Proof.
  destruct (toc_content_auto pg) eqn:Ha; [destruct (markdown_container pg) as [c|] eqn:Hc|].
  - destruct (TableOfContents pg) as [old|] eqn:Ht;
      [destruct (querySelectorAll [] sel_headings (fragment c)) as [|h hs] eqn:Hq|].
    + run_toc. rewrite Ha, Hc, Ht, Hq. cbn [fst snd events with_event].
      split; [reflexivity|]. rewrite <- !app_assoc. eexists. split; [reflexivity|].
      repeat constructor.
    + destruct (generate_toc_builds pg c old h hs Ha Hc Ht Hq) as (R1 & _ & _ & R4).
      split; [exact R1|]. rewrite R4. eexists. split; [reflexivity|].
      repeat (constructor; [exact I|]).
      apply Forall_app. split; [apply toc_log_console|repeat constructor].
    + run_toc. rewrite Ha, Hc, Ht. cbn [fst snd events with_event].
      split; [reflexivity|]. rewrite <- !app_assoc. eexists. split; [reflexivity|].
      repeat constructor.
  - run_toc. rewrite Ha, Hc. cbn [fst snd events with_event].
    split; [reflexivity|]. rewrite <- !app_assoc. eexists. split; [reflexivity|].
    repeat constructor.
  - run_toc. rewrite Ha. cbn [fst snd events with_event].
    split; [reflexivity|]. rewrite <- !app_assoc. eexists. split; [reflexivity|].
    destruct (markdown_container pg); repeat constructor.
Qed.

Ltac run_chain :=
  unfold render, check_response, on_rejected, catch, bind, emit, console, called,
    called_, put_fragment, get_fragment, throw, ret.




Ltac toc_events He evs Hc :=
  let Hr := fresh in
  let Hg := fresh in
  intros Hr;
  match type of Hr with
  | generate_toc ?p = _ =>
      pose proof (generate_toc_returns p) as [Hg (evs & He & Hc)];
      rewrite Hr in He; cbn [snd] in He;
      cbn [events with_event with_fragment] in He
  end.

Ltac calls_so_far :=
  split; [rewrite <- ?app_assoc; reflexivity|];
  split; [cbn [app]; repeat constructor|];
  split; [cbn [app]; repeat constructor|].

(** A callback that returns has made its calls, then built the table of
    contents; the call of the typesetter, if there is one, is the last of
    the calls. *)
Lemma render_returns (x : externals) (md : jsstring) (pg pg' : page) :
  render x md pg = (inr tt, pg') ->
  if window_MathJax x
  then exists before frag toc_evs calls,
         events pg' = (before ++ [TypesetPromise frag]) ++ Console LogTocStart :: toc_evs
         /\ before = events pg ++ calls
         /\ Forall not_console calls
         /\ Forall not_typeset calls
         /\ Forall is_console toc_evs
  else exists before toc_evs calls,
         events pg' = before ++ Console LogTocStart :: toc_evs
         /\ before = events pg ++ calls
         /\ Forall not_console calls
         /\ Forall not_typeset calls
         /\ Forall is_console toc_evs.
Proof.
  intros Hr. revert Hr. run_chain.
  destruct (marked_parse x md) as [e1|html] eqn:H1; cbv beta iota zeta;
    [discriminate|].
  destruct (hljs_highlightAll x _) as [e2|hd] eqn:H2; cbv beta iota zeta;
    [discriminate|].
  destruct (window_mermaid x) eqn:Hm; cbv beta iota zeta.
  - destruct (mermaid_initialize x) as [e3|] eqn:H3; cbv beta iota zeta;
      [discriminate|].
    destruct (mermaid_run x _) as [e4|] eqn:H4; cbv beta iota zeta;
      [discriminate|].
    destruct (window_MathJax x) eqn:Hj; cbv beta iota zeta.
    + destruct (MathJax_typesetPromise x _) as [e5|] eqn:H5; cbv beta iota zeta;
        [discriminate|].
      toc_events He evs Hc. eexists _, _, evs, _.
      split; [exact He|]. calls_so_far. exact Hc.
    + toc_events He evs Hc. eexists _, evs, _.
      split; [exact He|]. calls_so_far. exact Hc.
  - destruct (window_MathJax x) eqn:Hj; cbv beta iota zeta.
    + destruct (MathJax_typesetPromise x _) as [e5|] eqn:H5; cbv beta iota zeta;
        [discriminate|].
      toc_events He evs Hc. eexists _, _, evs, _.
      split; [exact He|]. calls_so_far. exact Hc.
    + toc_events He evs Hc. eexists _, evs, _.
      split; [exact He|]. calls_so_far. exact Hc.
Qed.

Lemma viewer_failed (x : externals) (pg : page) (c : render_target) (err : error) :
  markdown_container pg = Some c ->
  fetch_fails x (dataset_file c) err ->
  viewer x pg
  = with_event (Console (ConsoleError err))
      (with_fragment (parseHTML x (error_markup err))
         (with_event (Fetch (dataset_file c)) pg)).
Proof.
  intros Hc Hf. unfold viewer. rewrite Hc. run_chain.
  destruct Hf as [Hf|[(res & Hf & Hok & ->)|(res & Hf & Hok & Ht)]]; rewrite Hf;
    cbv beta iota zeta; rewrite ?Hok, ?Ht; reflexivity.
Qed.

Lemma viewer_fetched (x : externals) (pg : page) (c : render_target) (md : jsstring) :
  markdown_container pg = Some c ->
  fetch_gives x (dataset_file c) md ->
  viewer x pg
  = snd (catch (render x md) (on_rejected x) (with_event (Fetch (dataset_file c)) pg)).
Proof.
  intros Hc (res & Hf & Hok & Ht). unfold viewer. rewrite Hc.
  unfold catch, check_response, bind, emit, called, throw, ret.
  rewrite Hf. cbv beta iota zeta. rewrite Hok, Ht. reflexivity.
Qed.

Ltac begun :=
  cbn [snd events with_event with_fragment]; rewrite <- ?app_assoc; cbn [app];
  eexists; reflexivity.

Ltac begun_toc :=
  let evs := fresh "evs" in
  let He := fresh in
  match goal with
  | |- context [generate_toc ?p] =>
      destruct (generate_toc_returns p) as [_ (evs & He & _)]; rewrite He;
      cbn [events with_event with_fragment]; rewrite <- ?app_assoc; cbn [app];
      eexists; reflexivity
  end.

(** The callback begins with the call of the renderer, on the text it
    is given. *)
Lemma render_first_call (x : externals) (md : jsstring) (pg : page) :
  exists evs, events (snd (render x md pg)) = events pg ++ MarkedParse md :: evs.
Proof.
  run_chain.
  destruct (marked_parse x md) as [e1|html]; cbv beta iota zeta; [begun|].
  destruct (hljs_highlightAll x _) as [e2|hd]; cbv beta iota zeta; [begun|].
  destruct (window_mermaid x); cbv beta iota zeta.
  - destruct (mermaid_initialize x) as [e3|]; cbv beta iota zeta; [begun|].
    destruct (mermaid_run x _) as [e4|]; cbv beta iota zeta; [begun|].
    destruct (window_MathJax x); cbv beta iota zeta.
    + destruct (MathJax_typesetPromise x _) as [e5|]; cbv beta iota zeta; [begun|].
      begun_toc.
    + begun_toc.
  - destruct (window_MathJax x); cbv beta iota zeta.
    + destruct (MathJax_typesetPromise x _) as [e5|]; cbv beta iota zeta; [begun|].
      begun_toc.
    + begun_toc.
Qed.

Ltac at_toc Hcw Hcf' :=
  let Hr := fresh in
  intros Hr;
  match type of Hr with
  | generate_toc ?p = _ =>
      exists p; split; [now rewrite Hr|];
      split; [repeat first [rewrite Hcw | rewrite Hcf' by auto 10]; reflexivity|];
      split; [reflexivity|]; split; [reflexivity|]; split; [auto 10|];
      cbn [events with_event with_fragment]; rewrite <- ?app_assoc; reflexivity
  end.

(** A callback that returns has come to stage 7 with the fragment that
    stages 1 to 4 made, and with nothing else on the page changed. *)
Lemma render_reaches_toc (x : externals) (md : jsstring) (pg pg' : page) :
  markdown_container pg <> None ->
  render x md pg = (inr tt, pg') ->
  exists html hd,
    marked_parse x md = inr html
    /\ hljs_highlightAll x (parseHTML x html) = inr hd
    /\ exists mid,
         pg' = snd (generate_toc mid)
         /\ current_fragment mid = style_tables (convert_diagrams hd)
         /\ toc_content_auto mid = toc_content_auto pg
         /\ TableOfContents mid = TableOfContents pg
         /\ markdown_container mid <> None
         /\ events mid
            = events pg
              ++ [MarkedParse md; HighlightAll (parseHTML x html)]
              ++ (if window_mermaid x
                  then [MermaidInitialize; MermaidRun (style_tables (convert_diagrams hd))]
                  else [])
              ++ (if window_MathJax x
                  then [TypesetPromise (style_tables (convert_diagrams hd))]
                  else []).
Proof.
  intros Hc Hr. revert Hr. run_chain.
  assert (Hcf : forall ns evs, current_fragment (with_fragment ns (with_event evs pg)) = ns).
  { intros. unfold current_fragment. simpl. destruct (markdown_container pg); simpl; congruence. }
  destruct (marked_parse x md) as [e1|html] eqn:H1; cbv beta iota zeta;
    [discriminate|].
  rewrite Hcf.
  destruct (hljs_highlightAll x (parseHTML x html)) as [e2|hd] eqn:H2; cbv beta iota zeta;
    [discriminate|].
  intros Hr. exists html, hd. split; [reflexivity|]. split; [exact H2|].
  revert Hr.
  assert (Hcf' : forall ns q, markdown_container q <> None ->
                              current_fragment (with_fragment ns q) = ns).
  { intros ns q Hq. unfold current_fragment. simpl.
    destruct (markdown_container q); simpl; congruence. }
  assert (Hcw : forall ev q, current_fragment (with_event ev q) = current_fragment q)
    by reflexivity.
  assert (Hmw : forall ev q, markdown_container q <> None ->
                             markdown_container (with_event ev q) <> None) by (intros; assumption).
  assert (Hmf : forall ns q, markdown_container q <> None ->
                             markdown_container (with_fragment ns q) <> None).
  { intros ns q Hq. simpl. destruct (markdown_container q); congruence. }
  repeat first [rewrite Hcw | rewrite Hcf' by auto 10].
  destruct (window_mermaid x) eqn:Hm; cbv beta iota zeta.
  - destruct (mermaid_initialize x) as [e3|] eqn:H3; cbv beta iota zeta;
      [discriminate|].
    repeat first [rewrite Hcw | rewrite Hcf' by auto 10].
    destruct (mermaid_run x _) as [e4|] eqn:H4; cbv beta iota zeta;
      [discriminate|].
    destruct (window_MathJax x) eqn:Hj; cbv beta iota zeta.
    + repeat first [rewrite Hcw | rewrite Hcf' by auto 10].
      destruct (MathJax_typesetPromise x _) as [e5|] eqn:H5; cbv beta iota zeta;
        [discriminate|].
      at_toc Hcw Hcf'.
    + at_toc Hcw Hcf'.
  - destruct (window_MathJax x) eqn:Hj; cbv beta iota zeta.
    + repeat first [rewrite Hcw | rewrite Hcf' by auto 10].
      destruct (MathJax_typesetPromise x _) as [e5|] eqn:H5; cbv beta iota zeta;
        [discriminate|].
      at_toc Hcw Hcf'.
    + at_toc Hcw Hcf'.
Qed.

(** What stage 7 leaves on a page that has the marker and the navigation
    target. *)
Lemma generate_toc_result (pg : page) (old : list node) :
  toc_content_auto pg = true ->
  markdown_container pg <> None ->
  TableOfContents pg = Some old ->
  current_fragment (snd (generate_toc pg))
  = with_ids (current_fragment pg)
      (querySelectorAll [] sel_headings (current_fragment pg)) (current_fragment pg)
  /\ TableOfContents (snd (generate_toc pg))
     = match querySelectorAll [] sel_headings (current_fragment pg) with
       | [] => Some old
       | hs => Some [Element (createElement "ul") (toc_items (current_fragment pg) 0 hs)]
       end.
Proof.
  intros Ha Hc Ht. destruct (markdown_container pg) as [c|] eqn:Hc'; [|congruence].
  assert (Hf : current_fragment pg = fragment c) by (unfold current_fragment; now rewrite Hc').
  rewrite Hf.
  destruct (querySelectorAll [] sel_headings (fragment c)) as [|h hs] eqn:Hq.
  - run_toc. rewrite Ha, Hc', Ht, Hq.
    cbn [fst snd events with_event markdown_container TableOfContents].
    unfold current_fragment. cbn [markdown_container with_event]. rewrite Hc'.
    split; [reflexivity|exact Ht].
  - destruct (generate_toc_builds pg c old h hs Ha Hc' Ht Hq) as (_ & Htoc & Hfrag & _).
    split; [exact Hfrag|exact Htoc].
Qed.

(** C4: a fetch that fails leaves the one paragraph of line 133, with the
    failure in it, as the whole content of the render target; the
    navigation target is not touched, and nothing runs but the fetch and
    the report of the error. *)
Theorem failed_fetch_shows_one_error (x : externals) (pg : page) (c : render_target)
    (err : error) :
  markdown_container pg = Some c ->
  fetch_fails x (dataset_file c) err ->
  current_fragment (viewer x pg)
  = parseHTML x (str "<p style=" ++ [double_quote] ++ str "color:red" ++ [double_quote]
                 ++ str ">Failed to load markdown: " ++ error_toString err ++ str "</p>")
  /\ TableOfContents (viewer x pg) = TableOfContents pg
  /\ events (viewer x pg)
     = events pg ++ [Fetch (dataset_file c); Console (ConsoleError err)].
Proof.
  intros Hc Hf. rewrite (viewer_failed _ _ _ _ Hc Hf).
  unfold current_fragment. cbn [markdown_container with_event with_fragment
    TableOfContents events]. rewrite Hc. rewrite <- app_assoc. repeat split.
Qed.

Lemma failed_fetch_shows_one_error_witness :
  (current_fragment
     (viewer (sample_externals not_found three_titles no_highlight false)
             (blank_page (Some (str "post.md"))))
   = [ Element (set_style "color" "red" (createElement "p"))
               [txt "Failed to load markdown: Error: HTTP 404"] ]
   /\ TableOfContents
        (viewer (sample_externals not_found three_titles no_highlight false)
                (blank_page (Some (str "post.md"))))
      = Some []
   /\ events
        (viewer (sample_externals not_found three_titles no_highlight false)
                (blank_page (Some (str "post.md"))))
      = [ Fetch (Some (str "post.md"));
          Console (ConsoleError (Error (str "HTTP 404"))) ])
  /\ (current_fragment
        (viewer (sample_externals offline three_titles no_highlight false)
                (blank_page (Some (str "post.md"))))
      = [ Element (set_style "color" "red" (createElement "p"))
                  [txt "Failed to load markdown: TypeError: Failed to fetch"] ]
      /\ TableOfContents
           (viewer (sample_externals offline three_titles no_highlight false)
                   (blank_page (Some (str "post.md"))))
         = Some []
      /\ events
           (viewer (sample_externals offline three_titles no_highlight false)
                   (blank_page (Some (str "post.md"))))
         = [ Fetch (Some (str "post.md"));
             Console (ConsoleError {| err_name := str "TypeError";
                                      err_message := str "Failed to fetch" |}) ]).
Proof.
  split.
  - apply (failed_fetch_shows_one_error
             (sample_externals not_found three_titles no_highlight false)
             (blank_page (Some (str "post.md")))
             {| dataset_file := Some (str "post.md"); fragment := [] |}
             (Error (str "HTTP 404"))).
    + reflexivity.
    + right. left. eexists. split; [reflexivity|]. split; reflexivity.
  - apply (failed_fetch_shows_one_error
             (sample_externals offline three_titles no_highlight false)
             (blank_page (Some (str "post.md")))
             {| dataset_file := Some (str "post.md"); fragment := [] |}
             {| err_name := str "TypeError"; err_message := str "Failed to fetch" |}).
    + reflexivity.
    + left. reflexivity.
Defined.





(** Every fetch fails or gives a text. *)
Lemma fetch_settles (x : externals) (file : option jsstring) :
  (exists err, fetch_fails x file err) \/ (exists md, fetch_gives x file md).
Proof.
  unfold fetch_fails, fetch_gives.
  destruct (fetch x file) as [err|res] eqn:Hf; [left; exists err; now left|].
  destruct (ok res) eqn:Hok.
  - destruct (text res) as [err|md] eqn:Ht.
    + left. exists err. right. right. exists res. auto.
    + right. exists md, res. auto.
  - left. eexists. right. left. exists res. auto.
Qed.

(** C5, as the code has it: without the render target nothing happens at
    all.  A render target without a [data-file] does not stop the
    viewer: whatever the reference is, [fetch] is called with it, and
    the pass goes on with the outcome.  A fetch that fails ends in the
    error paragraph and the report of the error; a fetch that gives a
    text is followed by the callback of line 12 on that text, under the
    handler of line 132, and the first thing the callback does is to
    call the renderer on the text. *)
Theorem only_a_missing_container_stops_the_viewer (x : externals) (pg : page) :
  (markdown_container pg = None -> viewer x pg = pg)
  /\ (forall c, markdown_container pg = Some c ->
        ((exists err, fetch_fails x (dataset_file c) err)
         \/ (exists md, fetch_gives x (dataset_file c) md))
        /\ (forall err, fetch_fails x (dataset_file c) err ->
              events (viewer x pg)
              = events pg ++ [Fetch (dataset_file c); Console (ConsoleError err)]
              /\ current_fragment (viewer x pg) = parseHTML x (error_markup err))
        /\ (forall md, fetch_gives x (dataset_file c) md ->
              viewer x pg
              = snd (catch (render x md) (on_rejected x)
                       (with_event (Fetch (dataset_file c)) pg))
              /\ exists evs,
                   events (viewer x pg)
                   = events pg ++ Fetch (dataset_file c) :: MarkedParse md :: evs)).
Proof.
  split.
  - intros Hc. unfold viewer. now rewrite Hc.
  - intros c Hc. split; [apply fetch_settles|]. split.
    + intros err Hf. rewrite (viewer_failed x pg c err Hc Hf).
      unfold current_fragment.
      cbn [events markdown_container with_event with_fragment]. rewrite Hc.
      rewrite <- app_assoc. split; reflexivity.
    + intros md Hf. split; [exact (viewer_fetched x pg c md Hc Hf)|].
      rewrite (viewer_fetched x pg c md Hc Hf). unfold catch.
      destruct (render_first_call x md (with_event (Fetch (dataset_file c)) pg))
        as (evs & He).
      destruct (render x md (with_event (Fetch (dataset_file c)) pg)) as [[e|[]] pg'];
        cbn [snd] in He.
      * unfold on_rejected, bind, put_fragment, console, emit.
        cbn [snd events with_event with_fragment]. rewrite He.
        cbn [events with_event]. rewrite <- !app_assoc.
        exists (evs ++ [Console (ConsoleError e)]). reflexivity.
      * cbn [snd]. rewrite He. cbn [events with_event]. rewrite <- !app_assoc.
        exists evs. reflexivity.
Qed.

Lemma only_a_missing_container_stops_the_viewer_witness :
  viewer (sample_externals ok_response three_titles no_highlight false)
         {| markdown_container := None; toc_content_auto := true;
            TableOfContents := Some []; events := [] |}
  = {| markdown_container := None; toc_content_auto := true;
       TableOfContents := Some []; events := [] |}
  /\ (viewer (sample_externals ok_response three_titles no_highlight false)
             (blank_page None)
      = snd (catch (render (sample_externals ok_response three_titles no_highlight false)
                           (str "# Title"))
                   (on_rejected (sample_externals ok_response three_titles no_highlight false))
                   (with_event (Fetch None) (blank_page None)))
      /\ exists evs,
           events (viewer (sample_externals ok_response three_titles no_highlight false)
                          (blank_page None))
           = [] ++ Fetch None :: MarkedParse (str "# Title") :: evs).
Proof.
  split.
  - apply (proj1 (only_a_missing_container_stops_the_viewer
                    (sample_externals ok_response three_titles no_highlight false)
                    {| markdown_container := None; toc_content_auto := true;
                       TableOfContents := Some []; events := [] |})).
    reflexivity.
  - apply (proj2 (proj2 (proj2 (only_a_missing_container_stops_the_viewer
                                  (sample_externals ok_response three_titles no_highlight false)
                                  (blank_page None))
                               {| dataset_file := None; fragment := [] |} eq_refl))
                 (str "# Title")).
    eexists. split; [reflexivity|]. split; reflexivity.
Defined.

(** C5 fails: the render target has no [data-file], and the viewer
    fetches all the same, then renders what it gets. *)
Lemma fetch_without_reference :
  exists evs,
    events (viewer (sample_externals ok_response three_titles no_highlight false)
                   (blank_page None))
    = Fetch None :: evs
    /\ current_fragment
         (viewer (sample_externals ok_response three_titles no_highlight false)
                 (blank_page None))
       <> current_fragment (blank_page None).
Proof. eexists. split; [vm_compute; reflexivity|]. discriminate. Qed.




(* ===================================================================== *)
(** ** Tables *)
(* ===================================================================== *)

Lemma holds_at_modify (P : element -> Prop) (f : element -> element)
    (q r : path) (d : list node) :
  holds_at P d r ->
  (q <> r \/ forall e, P e -> P (f e)) ->
  holds_at P (modify_at f q d) r.
Proof.
  intros (e & He & HP) Hd. unfold holds_at. rewrite element_at_modify_at.
  destruct (decide (r = q)) as [->|Hne].
  - destruct Hd as [Hd|Hd]; [congruence|].
    exists (f e). rewrite He. split; [reflexivity|auto].
  - exists e. auto.
Qed.

Lemma restyles_refl (d : list node) : restyles d d.
Proof. intros p. split; reflexivity. Qed.

Lemma restyles_modify (dom d : list node) (f : element -> element) (q : path) :
  restyles dom d ->
  (forall e, localName (f e) = localName e) ->
  restyles dom (modify_at f q d).
Proof.
  intros H Hf p. destruct (H p) as [H1 H2]. split.
  - rewrite element_at_modify_at, <- H1. destruct (decide (p = q)); [|reflexivity].
    destruct (element_at d p); simpl; [now rewrite Hf|reflexivity].
  - now rewrite child_index_modify_at.
Qed.

Section Folds.
Context {A : Type} (g : A -> path) (f : element -> element).

Lemma fold_modify_restyles (dom : list node) (l : list A) :
  (forall e, localName (f e) = localName e) ->
  forall d, restyles dom d ->
            restyles dom (fold_left (fun d a => modify_at f (g a) d) l d).
Proof.
  intros Hf. induction l as [|a l IH]; intros d H; [exact H|].
  simpl. apply IH, restyles_modify; assumption.
Qed.

Lemma fold_modify_holds (P : element -> Prop) (r : path) (l : list A) :
  (forall a, In a l -> g a <> r \/ forall e, P e -> P (f e)) ->
  forall d, holds_at P d r ->
            holds_at P (fold_left (fun d a => modify_at f (g a) d) l d) r.
Proof.
  induction l as [|a l IH]; intros Hl d H; [exact H|].
  simpl. apply IH.
  - intros b Hb. apply Hl. now right.
  - apply holds_at_modify; [exact H|]. apply Hl. now left.
Qed.

Lemma fold_modify_establishes (P : element -> Prop) (l : list A) (a : A) :
  In a l ->
  (forall e, P (f e)) ->
  forall d, is_Some (element_at d (g a)) ->
            holds_at P (fold_left (fun d a => modify_at f (g a) d) l d) (g a).
Proof.
  intros Ha HP. induction l as [|b l IH]; intros d Hd; [destruct Ha|].
  simpl. destruct Ha as [->|Ha].
  - apply fold_modify_holds; [intros; right; auto|].
    destruct Hd as [e He]. exists (f e). split; [|apply HP].
    rewrite element_at_modify_at, decide_True by reflexivity. now rewrite He.
  - apply IH; [exact Ha|].
    rewrite element_at_modify_at. destruct (decide (g a = g b)) as [_|_]; [|exact Hd].
    destruct Hd as [e He]. rewrite He. now eexists.
Qed.
End Folds.

Lemma style_table_tag (e : element) : localName (style_table e) = localName e.
Proof. reflexivity. Qed.

Lemma style_cell_tag (e : element) : localName (style_cell e) = localName e.
Proof. reflexivity. Qed.

Lemma style_row_tag (e : element) : localName (style_row e) = localName e.
Proof. reflexivity. Qed.

(** What a write of [k] leaves to read under the name [j]. *)
Lemma lookup_set_style (k v : string) (e : element) (j : string) :
  style (set_style k v e) !! j
  = if String.eqb j k then Some v
    else if overlaps k j then None else style e !! j.
Proof.
  unfold set_style. cbn [style].
  destruct (String.eqb j k) eqn:Hjk.
  - apply String.eqb_eq in Hjk. subst j. apply lookup_insert_eq.
  - apply String.eqb_neq in Hjk. rewrite lookup_insert_ne by congruence.
    destruct (overlaps k j) eqn:Ho.
    + apply map_lookup_filter_None. right. intros x _. cbn [fst]. congruence.
    + destruct (style e !! j) as [x|] eqn:Hm.
      * apply map_lookup_filter_Some. split; [exact Hm|exact Ho].
      * apply map_lookup_filter_None. now left.
Qed.

Ltac written :=
  unfold style_table, style_cell, style_row;
  repeat (progress (rewrite ?lookup_set_style; cbn [style classList_add])).

Lemma classList_add_In (c k : string) (e : element) :
  In k (classList (classList_add c e)) <-> In k (classList e) \/ k = c.
Proof.
  unfold classList_add. simpl.
  destruct (existsb (String.eqb c) (classList e)) eqn:Hex.
  - split; [tauto|]. intros [H| ->]; [exact H|].
    apply existsb_exists in Hex. destruct Hex as (y & Hy & Heq).
    apply String.eqb_eq in Heq. now subst.
  - rewrite in_app_iff. simpl. split; intros [H|H]; auto.
    + destruct H as [H|[]]; auto.
Qed.

Lemma style_table_contract (e : element) : table_contract (style_table e).
Proof.
  unfold table_contract, style_table. split.
  - cbn [classList set_style]. rewrite !classList_add_In. tauto.
  - repeat split; written; reflexivity.
Qed.

Lemma style_cell_contract (e : element) : cell_contract (style_cell e).
Proof.
  unfold cell_contract. split; written; reflexivity.
Qed.

Lemma style_row_shaded (e : element) : row_shaded (style_row e).
Proof. unfold row_shaded. written. reflexivity. Qed.

Lemma matches_sel_table (l : located) :
  matches sel_table l = true <-> localName (loc_elem l) = "table".
Proof.
  unfold matches, sel_table, by_tag, matches_complex, matches_compound. simpl.
  rewrite !orb_false_r, !andb_true_r. apply String.eqb_eq.
Qed.

Lemma matches_sel_cells (l : located) :
  matches sel_cells l = true
  <-> localName (loc_elem l) = "th" \/ localName (loc_elem l) = "td".
Proof.
  unfold matches, sel_cells, by_tag, matches_complex, matches_compound. simpl.
  rewrite !orb_false_r, !andb_true_r, orb_true_iff, !String.eqb_eq. reflexivity.
Qed.

Lemma matches_sel_even_rows (l : located) :
  matches sel_even_rows l = true
  <-> localName (loc_elem l) = "tr" /\ Nat.even (loc_index l) = true.
Proof.
  unfold matches, sel_even_rows, matches_complex, matches_compound. simpl.
  rewrite !orb_false_r, !andb_true_r, andb_true_iff, String.eqb_eq. reflexivity.
Qed.

Lemma querySelectorAll_complete anc s cs (p : path) (e : element) :
  element_at cs p = Some e ->
  (forall l, loc_path l = p -> loc_elem l = e ->
             loc_index l = child_index cs p ->
             loc_ancestors l = ancestors_at cs p ++ anc ->
             matches s l = true) ->
  exists l, In l (querySelectorAll anc s cs) /\ loc_path l = p /\ loc_elem l = e.
Proof.
  intros He Hm.
  destruct (descendants_complete p anc cs e He) as (l & Hl & Hp).
  destruct (descendants_sound p anc cs l Hl Hp) as (H1 & H2 & H3).
  assert (Hel : loc_elem l = e) by congruence.
  exists l. split; [|auto].
  unfold querySelectorAll. apply filter_In. split; [exact Hl|]. apply Hm; auto.
Qed.

Lemma querySelectorAll_path anc s cs (l : located) :
  In l (querySelectorAll anc s cs) -> loc_path l <> [].
Proof.
  intros H. apply querySelectorAll_sound in H. destruct H as (H & _).
  intros Hp. rewrite Hp in H. discriminate.
Qed.

Lemma style_one_table_restyles (dom d : list node) (tbl : located) :
  restyles dom d -> restyles dom (style_one_table d tbl).
Proof.
  intros H. unfold style_one_table.
  apply (fold_modify_restyles (fun row => loc_path tbl ++ loc_path row) style_row);
    [exact style_row_tag|].
  apply (fold_modify_restyles (fun cell => loc_path tbl ++ loc_path cell) style_cell);
    [exact style_cell_tag|].
  apply restyles_modify; [exact H|exact style_table_tag].
Qed.

(** A row that line 42 selects below a table is an even row of the
    document. *)
Lemma selected_row_is_even (dom d : list node) (p : path) (row : located) :
  restyles dom d -> p <> [] ->
  In row (querySelectorAll [] sel_even_rows (children_at d p)) ->
  even_row dom (p ++ loc_path row).
Proof.
  intros H Hp Hrow.
  pose proof (querySelectorAll_path _ _ _ _ Hrow) as Hq.
  apply querySelectorAll_sound in Hrow. destruct Hrow as (He & Hi & _ & Hm).
  apply matches_sel_even_rows in Hm. destruct Hm as [Htag Heven].
  destruct (H (p ++ loc_path row)) as [H1 H2]. split.
  - rewrite <- H1, element_at_app, He by assumption. simpl. now rewrite Htag.
  - rewrite <- H2, child_index_app, <- Hi by assumption. exact Heven.
Qed.

(** What one round of line 28 leaves as it was. *)
Lemma style_one_table_keeps (dom d : list node) (tbl : located)
    (P : element -> Prop) (r : path) :
  restyles dom d -> loc_path tbl <> [] ->
  (forall e, P e -> P (style_table e)) ->
  (forall e, P e -> P (style_cell e)) ->
  ((forall e, P e -> P (style_row e)) \/ ~ even_row dom r) ->
  holds_at P d r -> holds_at P (style_one_table d tbl) r.
Proof.
  intros H Hp Ht Hc Hr Hd. unfold style_one_table.
  set (d1 := modify_at style_table (loc_path tbl) d).
  set (d2 := fold_left _ (querySelectorAll [] sel_cells (children_at d1 (loc_path tbl))) d1).
  assert (H1 : restyles dom d1) by (apply restyles_modify; [exact H|exact style_table_tag]).
  assert (H2 : restyles dom d2).
  { apply (fold_modify_restyles (fun cell => loc_path tbl ++ loc_path cell) style_cell);
      [exact style_cell_tag|exact H1]. }
  apply (fold_modify_holds (fun row => loc_path tbl ++ loc_path row) style_row).
  - intros row Hrow. destruct Hr as [Hr|Hr]; [now right|left].
    intros Heq. apply Hr. rewrite <- Heq.
    eapply selected_row_is_even; eassumption.
  - apply (fold_modify_holds (fun cell => loc_path tbl ++ loc_path cell) style_cell).
    + intros; now right.
    + apply holds_at_modify; [exact Hd|now right].
Qed.

Lemma table_contract_kept (e : element) :
  table_contract e ->
  table_contract (style_table e) /\ table_contract (style_cell e)
  /\ table_contract (style_row e).
Proof.
  intros ((C1 & C2 & C3 & C4) & S1 & S2 & S3 & S4).
  split; [apply style_table_contract|].
  unfold table_contract.
  split; (split; [cbn [classList style_cell style_row set_style]; tauto|]);
    repeat split; written; first [reflexivity|assumption].
Qed.

Lemma cell_contract_kept (e : element) :
  cell_contract e ->
  cell_contract (style_table e) /\ cell_contract (style_cell e)
  /\ cell_contract (style_row e).
Proof.
  intros (S1 & S2).
  split; [|split; [apply style_cell_contract|]];
    unfold cell_contract; split; written; first [reflexivity|assumption].
Qed.

Lemma row_shaded_kept (e : element) :
  row_shaded e ->
  row_shaded (style_table e) /\ row_shaded (style_cell e) /\ row_shaded (style_row e).
Proof.
  intros S1.
  split; [|split; [|apply style_row_shaded]];
    unfold row_shaded; written; first [reflexivity|assumption].
Qed.

Lemma restyles_is_Some (dom d : list node) (p : path) :
  restyles dom d -> is_Some (element_at dom p) -> is_Some (element_at d p).
Proof.
  intros H [e He]. destruct (H p) as [H1 _]. rewrite He in H1.
  destruct (element_at d p); [now eexists|discriminate].
Qed.

Lemma restyles_tag (dom d : list node) (p : path) (t : string) :
  restyles dom d -> (localName <$> element_at dom p) = Some t ->
  exists e, element_at d p = Some e /\ localName e = t.
Proof.
  intros H Ht. destruct (H p) as [H1 _]. rewrite Ht in H1.
  destruct (element_at d p) as [e|]; [|discriminate].
  exists e. split; [reflexivity|]. simpl in H1. congruence.
Qed.

Section Written.
Context (PT PC PR : element -> Prop).
Hypothesis HT : forall e, PT (style_table e).
Hypothesis HTk : forall e, PT e -> PT (style_table e) /\ PT (style_cell e) /\ PT (style_row e).
Hypothesis HC : forall e, PC (style_cell e).
Hypothesis HCk : forall e, PC e -> PC (style_table e) /\ PC (style_cell e) /\ PC (style_row e).
Hypothesis HR : forall e, PR (style_row e).
Hypothesis HRk : forall e, PR e -> PR (style_table e) /\ PR (style_cell e) /\ PR (style_row e).

(** What one round of line 28 gives the table, its cells and its even
    rows: whatever each of the three writes gives and the other two
    keep. *)
Lemma style_one_table_gives (dom d : list node) (tbl : located) :
  restyles dom d -> loc_path tbl <> [] ->
  is_Some (element_at d (loc_path tbl)) ->
  holds_at PT (style_one_table d tbl) (loc_path tbl)
  /\ (forall q, q <> [] ->
        (localName <$> element_at dom (loc_path tbl ++ q)) = Some "th"
        \/ (localName <$> element_at dom (loc_path tbl ++ q)) = Some "td" ->
        holds_at PC (style_one_table d tbl) (loc_path tbl ++ q))
  /\ (forall q, q <> [] -> even_row dom (loc_path tbl ++ q) ->
        holds_at PR (style_one_table d tbl) (loc_path tbl ++ q)).
Proof.
  intros H Hp Hd. unfold style_one_table.
  set (p := loc_path tbl) in *.
  set (d1 := modify_at style_table p d).
  set (cells := querySelectorAll [] sel_cells (children_at d1 p)).
  set (d2 := fold_left (fun d cell => modify_at style_cell (p ++ loc_path cell) d) cells d1).
  set (rows := querySelectorAll [] sel_even_rows (children_at d2 p)).
  assert (H1 : restyles dom d1) by (apply restyles_modify; [exact H|exact style_table_tag]).
  assert (H2 : restyles dom d2).
  { apply (fold_modify_restyles (fun cell => p ++ loc_path cell) style_cell);
      [exact style_cell_tag|exact H1]. }
  split; [|split].
  - apply (fold_modify_holds (fun row => p ++ loc_path row) style_row);
      [intros; right; apply HTk|].
    apply (fold_modify_holds (fun cell => p ++ loc_path cell) style_cell);
      [intros; right; apply HTk|].
    destruct Hd as [e He]. exists (style_table e). split; [|apply HT].
    unfold d1. rewrite element_at_modify_at, decide_True by reflexivity. now rewrite He.
  - intros q Hq Htag.
    apply (fold_modify_holds (fun row => p ++ loc_path row) style_row);
      [intros; right; apply HCk|].
    assert (Hcell : exists k, element_at d1 (p ++ q) = Some k
                              /\ (localName k = "th" \/ localName k = "td")).
    { destruct Htag as [Htag|Htag];
        destruct (restyles_tag _ _ _ _ H1 Htag) as (k & Hk & Hkt); eauto. }
    destruct Hcell as (k & Hk & Hkt).
    rewrite element_at_app in Hk by assumption.
    destruct (querySelectorAll_complete [] sel_cells _ _ _ Hk) as (cell & Hin & Hpath & _).
    { intros l _ Hl _ _. apply matches_sel_cells. now rewrite Hl. }
    rewrite <- Hpath.
    apply (fold_modify_establishes (fun cell => p ++ loc_path cell) style_cell
             PC cells cell Hin HC).
    rewrite Hpath. rewrite element_at_app by assumption. rewrite Hk. now eexists.
  - intros q Hq [Htag Heven].
    destruct (restyles_tag _ _ _ _ H2 Htag) as (k & Hk & Hkt).
    rewrite element_at_app in Hk by assumption.
    destruct (querySelectorAll_complete [] sel_even_rows _ _ _ Hk) as (row & Hin & Hpath & _).
    { intros l _ Hl Hi _. apply matches_sel_even_rows. rewrite Hl, Hi. split; [exact Hkt|].
      rewrite <- child_index_app by assumption.
      destruct (H2 (p ++ q)) as [_ ->]. exact Heven. }
    rewrite <- Hpath.
    apply (fold_modify_establishes (fun row => p ++ loc_path row) style_row
             PR rows row Hin HR).
    rewrite Hpath. rewrite element_at_app by assumption. rewrite Hk. now eexists.
Qed.

(** The whole of stage 4, as a [forEach] over the tables [ts]. *)
Lemma style_tables_fold_gives (dom : list node) (ts : list located) :
  (forall tbl, In tbl ts -> loc_path tbl <> []) ->
  forall d, restyles dom d ->
    restyles dom (fold_left style_one_table ts d)
    /\ (forall P r,
          (forall e, P e -> P (style_table e)) ->
          (forall e, P e -> P (style_cell e)) ->
          ((forall e, P e -> P (style_row e)) \/ ~ even_row dom r) ->
          holds_at P d r -> holds_at P (fold_left style_one_table ts d) r)
    /\ (forall tbl, In tbl ts -> is_Some (element_at dom (loc_path tbl)) ->
          holds_at PT (fold_left style_one_table ts d) (loc_path tbl)
          /\ (forall q, q <> [] ->
                (localName <$> element_at dom (loc_path tbl ++ q)) = Some "th"
                \/ (localName <$> element_at dom (loc_path tbl ++ q)) = Some "td" ->
                holds_at PC (fold_left style_one_table ts d) (loc_path tbl ++ q))
          /\ (forall q, q <> [] -> even_row dom (loc_path tbl ++ q) ->
                holds_at PR (fold_left style_one_table ts d) (loc_path tbl ++ q))).
Proof.
  induction ts as [|t ts IH]; intros Hne d H.
  - split; [exact H|]. split; [auto|]. intros tbl [].
  - assert (Ht : loc_path t <> []) by (apply Hne; now left).
    assert (H' : restyles dom (style_one_table d t)) by now apply style_one_table_restyles.
    destruct (IH (fun tbl Hin => Hne tbl (or_intror Hin)) _ H') as (I1 & I2 & I3).
    cbn [fold_left]. split; [exact I1|]. split.
    + intros P r P1 P2 P3 Hd. apply I2; try assumption.
      now apply (style_one_table_keeps dom).
    + intros tbl [<-|Hin] Hsome.
      * destruct (style_one_table_gives dom d t H Ht) as (E1 & E2 & E3).
        { now apply (restyles_is_Some dom). }
        split; [|split].
        -- apply I2; try (intros; apply HTk; assumption); [|exact E1].
           left. intros; apply HTk; assumption.
        -- intros q Hq Htag.
           apply I2; try (intros; apply HCk; assumption); [|now apply E2].
           left. intros; apply HCk; assumption.
        -- intros q Hq Hrow.
           apply I2; try (intros; apply HRk; assumption); [|now apply E3].
           left. intros; apply HRk; assumption.
      * now apply I3.
Qed.

Lemma style_tables_gives (dom : list node) :
  restyles dom (style_tables dom)
  /\ (forall P r,
        (forall e, P e -> P (style_table e)) ->
        (forall e, P e -> P (style_cell e)) ->
        ((forall e, P e -> P (style_row e)) \/ ~ even_row dom r) ->
        holds_at P dom r -> holds_at P (style_tables dom) r)
  /\ (forall p, (localName <$> element_at dom p) = Some "table" ->
        holds_at PT (style_tables dom) p
        /\ (forall q, q <> [] ->
              (localName <$> element_at dom (p ++ q)) = Some "th"
              \/ (localName <$> element_at dom (p ++ q)) = Some "td" ->
              holds_at PC (style_tables dom) (p ++ q))
        /\ (forall q, q <> [] -> even_row dom (p ++ q) ->
              holds_at PR (style_tables dom) (p ++ q))).
Proof.
  unfold style_tables.
  destruct (style_tables_fold_gives dom (querySelectorAll [] sel_table dom)) with (d := dom)
    as (R & K & E).
  { intros tbl. apply querySelectorAll_path. }
  { apply restyles_refl. }
  split; [exact R|]. split; [exact K|].
  intros p Htag.
  destruct (restyles_tag dom dom p "table" (restyles_refl dom) Htag) as (e0 & He0 & Ht0).
  destruct (querySelectorAll_complete [] sel_table dom p e0 He0) as (tbl & Hin & Hp & _).
  { intros l _ Hl _ _. apply matches_sel_table. now rewrite Hl. }
  rewrite <- Hp. apply E; [exact Hin|]. rewrite Hp, He0. now eexists.
Qed.
End Written.

(** Stage 4 with the three contracts of lines 29-43. *)
Lemma style_tables_facts (dom : list node) :
  restyles dom (style_tables dom)
  /\ (forall P r,
        (forall e, P e -> P (style_table e)) ->
        (forall e, P e -> P (style_cell e)) ->
        ((forall e, P e -> P (style_row e)) \/ ~ even_row dom r) ->
        holds_at P dom r -> holds_at P (style_tables dom) r)
  /\ (forall p, (localName <$> element_at dom p) = Some "table" ->
        holds_at table_contract (style_tables dom) p
        /\ (forall q, q <> [] ->
              (localName <$> element_at dom (p ++ q)) = Some "th"
              \/ (localName <$> element_at dom (p ++ q)) = Some "td" ->
              holds_at cell_contract (style_tables dom) (p ++ q))
        /\ (forall q, q <> [] -> even_row dom (p ++ q) ->
              holds_at row_shaded (style_tables dom) (p ++ q))).
Proof.
  apply (style_tables_gives table_contract cell_contract row_shaded).
  - exact style_table_contract.
  - exact table_contract_kept.
  - exact style_cell_contract.
  - exact cell_contract_kept.
  - exact style_row_shaded.
  - exact row_shaded_kept.
Qed.

Lemma background_kept (v : option string) (e : element) :
  style e !! "backgroundColor" = v ->
  style (style_table e) !! "backgroundColor" = v
  /\ style (style_cell e) !! "backgroundColor" = v.
Proof.
  intros H. split; written; exact H.
Qed.

Lemma with_ids_holds (P : element -> Prop) (dom : list node) (hs : list located)
    (r : path) :
  (forall v e, P e -> P (set_id v e)) ->
  forall d, holds_at P d r -> holds_at P (with_ids dom hs d) r.
Proof.
  intros HP. induction hs as [|h hs IH]; intros d H; [exact H|].
  unfold with_ids in *. cbn [fold_left]. apply IH.
  apply holds_at_modify; [exact H|]. right. apply HP.
Qed.

Lemma with_ids_restyles (dom0 dom : list node) (hs : list located) :
  forall d, restyles dom0 d -> restyles dom0 (with_ids dom hs d).
Proof.
  induction hs as [|h hs IH]; intros d H; [exact H|].
  unfold with_ids in *. cbn [fold_left]. apply IH.
  apply restyles_modify; [exact H|reflexivity].
Qed.

Lemma generate_toc_fragment (pg : page) :
  current_fragment (snd (generate_toc pg)) = current_fragment pg
  \/ exists hs, current_fragment (snd (generate_toc pg))
                = with_ids (current_fragment pg) hs (current_fragment pg).
Proof.
  destruct (toc_content_auto pg) eqn:Ha; [destruct (markdown_container pg) as [c|] eqn:Hc|].
  - destruct (TableOfContents pg) as [old|] eqn:Ht;
      [destruct (querySelectorAll [] sel_headings (fragment c)) as [|h hs] eqn:Hq|].
    + left. run_toc. rewrite Ha, Hc, Ht, Hq. reflexivity.
    + right. exists (h :: hs).
      destruct (generate_toc_builds pg c old h hs Ha Hc Ht Hq) as (_ & _ & R3 & _).
      rewrite R3. unfold current_fragment. now rewrite Hc.
    + left. run_toc. rewrite Ha, Hc, Ht. reflexivity.
  - left. run_toc. rewrite Ha, Hc. reflexivity.
  - left. run_toc. rewrite Ha. reflexivity.
Qed.

(** The fragment a callback that returns leaves: what the highlighter
    returned, after stages 3 and 4, with the identifiers of stage 7. *)
Lemma render_fragment (x : externals) (md : jsstring) (pg pg' : page) :
  markdown_container pg <> None ->
  render x md pg = (inr tt, pg') ->
  exists html hd,
    marked_parse x md = inr html
    /\ hljs_highlightAll x (parseHTML x html) = inr hd
    /\ (current_fragment pg' = style_tables (convert_diagrams hd)
        \/ exists hs, current_fragment pg'
                      = with_ids (style_tables (convert_diagrams hd)) hs
                                 (style_tables (convert_diagrams hd))).
Proof.
  intros Hc Hr. revert Hr. run_chain.
  assert (Hcf : forall ns evs, current_fragment (with_fragment ns (with_event evs pg)) = ns).
  { intros. unfold current_fragment. simpl. destruct (markdown_container pg); simpl; congruence. }
  destruct (marked_parse x md) as [e1|html] eqn:H1; cbv beta iota zeta;
    [discriminate|].
  rewrite Hcf.
  destruct (hljs_highlightAll x (parseHTML x html)) as [e2|hd] eqn:H2; cbv beta iota zeta;
    [discriminate|].
  intros Hr. exists html, hd. split; [reflexivity|]. split; [exact H2|].
  revert Hr.
  assert (Hcf' : forall ns q, markdown_container q <> None ->
                              current_fragment (with_fragment ns q) = ns).
  { intros ns q Hq. unfold current_fragment. simpl.
    destruct (markdown_container q); simpl; congruence. }
  assert (Hcw : forall ev q, current_fragment (with_event ev q) = current_fragment q)
    by reflexivity.
  assert (Hmw : forall ev q, markdown_container q <> None ->
                             markdown_container (with_event ev q) <> None) by (intros; assumption).
  assert (Hmf : forall ns q, markdown_container q <> None ->
                             markdown_container (with_fragment ns q) <> None).
  { intros ns q Hq. simpl. destruct (markdown_container q); congruence. }
  repeat first [rewrite Hcw | rewrite Hcf' by auto 10].
  destruct (window_mermaid x) eqn:Hm; cbv beta iota zeta.
  - destruct (mermaid_initialize x) as [e3|] eqn:H3; cbv beta iota zeta;
      [discriminate|].
    repeat first [rewrite Hcw | rewrite Hcf' by auto 10].
    destruct (mermaid_run x _) as [e4|] eqn:H4; cbv beta iota zeta;
      [discriminate|].
    destruct (window_MathJax x) eqn:Hj; cbv beta iota zeta.
    + repeat first [rewrite Hcw | rewrite Hcf' by auto 10].
      destruct (MathJax_typesetPromise x _) as [e5|] eqn:H5; cbv beta iota zeta;
        [discriminate|].
      intros Hr. 
      match type of Hr with
      | generate_toc ?p = _ =>
          pose proof (generate_toc_fragment p) as Hg; rewrite Hr in Hg; cbn [snd] in Hg;
          repeat first [rewrite Hcw in Hg | rewrite Hcf' in Hg by auto 10]; exact Hg
      end.
    + intros Hr.
      match type of Hr with
      | generate_toc ?p = _ =>
          pose proof (generate_toc_fragment p) as Hg; rewrite Hr in Hg; cbn [snd] in Hg;
          repeat first [rewrite Hcw in Hg | rewrite Hcf' in Hg by auto 10]; exact Hg
      end.
  - destruct (window_MathJax x) eqn:Hj; cbv beta iota zeta.
    + repeat first [rewrite Hcw | rewrite Hcf' by auto 10].
      destruct (MathJax_typesetPromise x _) as [e5|] eqn:H5; cbv beta iota zeta;
        [discriminate|].
      intros Hr.
      match type of Hr with
      | generate_toc ?p = _ =>
          pose proof (generate_toc_fragment p) as Hg; rewrite Hr in Hg; cbn [snd] in Hg;
          repeat first [rewrite Hcw in Hg | rewrite Hcf' in Hg by auto 10]; exact Hg
      end.
    + intros Hr.
      match type of Hr with
      | generate_toc ?p = _ =>
          pose proof (generate_toc_fragment p) as Hg; rewrite Hr in Hg; cbn [snd] in Hg;
          repeat first [rewrite Hcw in Hg | rewrite Hcf' in Hg by auto 10]; exact Hg
      end.
Qed.

Lemma contracts_ignore_id (v : jsstring) (e : element) :
  (table_contract e -> table_contract (set_id v e))
  /\ (cell_contract e -> cell_contract (set_id v e))
  /\ (row_shaded e -> row_shaded (set_id v e)).
Proof. split; [|split]; intros H; exact H. Qed.

(** C6, as the code has it: in the fragment a pass leaves, every table
    has the four classes and the inline border, margin and full width,
    every cell below it the inline border and padding, and every row
    below it that is an even child of its parent, counting element
    children from one, the inline background; the other rows are left
    with the background they had, so the first data row is not shaded. *)
Theorem tables_get_the_contract (x : externals) (pg : page) (c : render_target)
    (md : jsstring) :
  markdown_container pg = Some c ->
  fetch_gives x (dataset_file c) md ->
  fst (render x md (with_event (Fetch (dataset_file c)) pg)) = inr tt ->
  exists html hd,
    marked_parse x md = inr html
    /\ hljs_highlightAll x (parseHTML x html) = inr hd
    /\ forall p e,
         element_at (current_fragment (viewer x pg)) p = Some e ->
         localName e = "table" ->
         table_contract e
         /\ forall q k,
              q <> [] ->
              element_at (current_fragment (viewer x pg)) (p ++ q) = Some k ->
              (localName k = "th" \/ localName k = "td" -> cell_contract k)
              /\ (localName k = "tr" ->
                  Nat.even (child_index (current_fragment (viewer x pg)) (p ++ q)) = true ->
                  row_shaded k)
              /\ (localName k = "tr" ->
                  Nat.even (child_index (current_fragment (viewer x pg)) (p ++ q)) = false ->
                  style k !! "backgroundColor"
                  = background_at (convert_diagrams hd) (p ++ q)).
Proof.
  intros Hc Hf Hr. rewrite (viewer_fetched _ _ _ _ Hc Hf). unfold catch.
  destruct (render x md (with_event (Fetch (dataset_file c)) pg)) as [[e|[]] pg'] eqn:Hrun;
    cbn [fst] in Hr; [discriminate|]. cbn [snd].
  destruct (render_fragment x md (with_event (Fetch (dataset_file c)) pg) pg')
    as (html & hd & H1 & H2 & HF); [|exact Hrun|].
  { cbn [markdown_container with_event]. congruence. }
  exists html, hd. split; [exact H1|]. split; [exact H2|].
  set (before := convert_diagrams hd) in *.
  destruct (style_tables_facts before) as (R & K & E).
  assert (HR : restyles before (current_fragment pg')).
  { destruct HF as [->|(hs & ->)]; [exact R|]. now apply with_ids_restyles. }
  assert (HT : forall P r, (forall v e, P e -> P (set_id v e)) ->
                           holds_at P (style_tables before) r ->
                           holds_at P (current_fragment pg') r).
  { intros P r HP Hh. destruct HF as [->|(hs & ->)]; [exact Hh|]. now apply with_ids_holds. }
  intros p e He Htag.
  assert (Htb : (localName <$> element_at before p) = Some "table").
  { destruct (HR p) as [<- _]. rewrite He. simpl. now rewrite Htag. }
  destruct (E p Htb) as (E1 & E2 & E3).
  split.
  { apply HT in E1; [|intros; now apply contracts_ignore_id].
    destruct E1 as (e' & He' & Hcon). congruence. }
  intros q k Hq Hk.
  assert (Htk : (localName <$> element_at before (p ++ q)) = Some (localName k)).
  { destruct (HR (p ++ q)) as [<- _]. now rewrite Hk. }
  assert (Hidx : child_index (current_fragment pg') (p ++ q) = child_index before (p ++ q))
    by apply HR.
  split; [|split].
  - intros Hcell.
    assert (Hc' : holds_at cell_contract (style_tables before) (p ++ q)).
    { apply E2; [exact Hq|]. destruct Hcell as [<-|<-]; auto. }
    apply HT in Hc'; [|intros; now apply contracts_ignore_id].
    destruct Hc' as (k' & Hk' & Hcon). congruence.
  - intros Htr Heven.
    assert (Hr' : holds_at row_shaded (style_tables before) (p ++ q)).
    { apply E3; [exact Hq|]. split; [now rewrite Htk, Htr|now rewrite <- Hidx]. }
    apply HT in Hr'; [|intros; now apply contracts_ignore_id].
    destruct Hr' as (k' & Hk' & Hcon). congruence.
  - intros Htr Hodd. unfold background_at.
    destruct (element_at before (p ++ q)) as [k0|] eqn:Hk0; [|discriminate].
    assert (Hb : holds_at (fun e => style e !! "backgroundColor"
                                    = style k0 !! "backgroundColor")
                          (style_tables before) (p ++ q)).
    { apply K.
      - intros e0 H0. now apply background_kept.
      - intros e0 H0. now apply background_kept.
      - right. intros [_ Hev]. rewrite <- Hidx in Hev. congruence.
      - exists k0. auto. }
    apply HT in Hb; [|intros v e0 H0; exact H0].
    destruct Hb as (k' & Hk' & Hcon). congruence.
Qed.

Lemma tables_get_the_contract_witness :
  exists html hd,
    marked_parse table_externals (str "# Title") = inr html
    /\ hljs_highlightAll table_externals (parseHTML table_externals html) = inr hd
    /\ forall p e,
         element_at (current_fragment
                       (viewer table_externals (blank_page (Some (str "post.md"))))) p
         = Some e ->
         localName e = "table" ->
         table_contract e
         /\ forall q k,
              q <> [] ->
              element_at (current_fragment
                            (viewer table_externals (blank_page (Some (str "post.md")))))
                         (p ++ q) = Some k ->
              (localName k = "th" \/ localName k = "td" -> cell_contract k)
              /\ (localName k = "tr" ->
                  Nat.even (child_index
                              (current_fragment
                                 (viewer table_externals (blank_page (Some (str "post.md")))))
                              (p ++ q)) = true ->
                  row_shaded k)
              /\ (localName k = "tr" ->
                  Nat.even (child_index
                              (current_fragment
                                 (viewer table_externals (blank_page (Some (str "post.md")))))
                              (p ++ q)) = false ->
                  style k !! "backgroundColor"
                  = background_at (convert_diagrams hd) (p ++ q)).
Proof.
  apply (tables_get_the_contract table_externals (blank_page (Some (str "post.md")))
           {| dataset_file := Some (str "post.md"); fragment := [] |} (str "# Title")).
  - reflexivity.
  - eexists. split; [reflexivity|]. split; reflexivity.
  - reflexivity.
Defined.

(** C6 fails: of the three data rows, the one that the viewer shades is
    the second; the first and the third, which are the rows of even index
    when the first data row counts as zero, are not shaded. *)
Lemma first_data_row_is_not_shaded :
  background_at (current_fragment
                   (viewer table_externals (blank_page (Some (str "post.md")))))
                [0; 1; 0]%nat = None
  /\ background_at (current_fragment
                      (viewer table_externals (blank_page (Some (str "post.md")))))
                   [0; 1; 2]%nat = Some "#f6f8fa"
  /\ background_at (current_fragment
                      (viewer table_externals (blank_page (Some (str "post.md")))))
                   [0; 1; 4]%nat = None
  /\ (localName <$> element_at
                    (current_fragment
                       (viewer table_externals (blank_page (Some (str "post.md")))))
                    [0; 1; 0]%nat) = Some "tr".
Proof. vm_compute. repeat split. Qed.

(* ===================================================================== *)
(** ** Diagram blocks *)
(* ===================================================================== *)

Lemma is_prefix_refl (p : path) : is_prefix p p = true.
Proof. induction p as [|i p IH]; [reflexivity|]. simpl. now rewrite Nat.eqb_refl. Qed.

Lemma is_prefix_false_strip (q p : path) :
  is_prefix q p = false <-> strip_prefix q p = None.
Proof.
  destruct (is_prefix q p) eqn:E.
  - split; [discriminate|]. intros Hn. apply is_prefix_strip in E. contradiction.
  - split; [|reflexivity]. intros _.
    destruct (strip_prefix q p) eqn:S; [|reflexivity].
    assert (is_prefix q p = true) by (apply is_prefix_strip; rewrite S; discriminate).
    congruence.
Qed.

(** A round of line 20 that acts away from [p] leaves the node at [p]. *)
Lemma convert_block_apart (st : list node * list path) (b : located) (p : path) :
  is_prefix (removelast (loc_path b)) p = false ->
  strip_prefix p (removelast (loc_path b)) = None ->
  node_at (fst (convert_block st b)) p = node_at (fst st) p.
Proof.
  intros H1 H2. unfold convert_block.
  destruct (existsb _ (snd st)); [reflexivity|].
  cbn [fst]. apply node_at_alter_at_other; [exact H2|now left].
Qed.

Lemma convert_block_gone (st : list node * list path) (b : located) (q : path) :
  In q (snd (convert_block st b)) ->
  In q (snd st) \/ q = removelast (loc_path b).
Proof.
  unfold convert_block. destruct (existsb _ (snd st)); [now left|].
  cbn [snd]. rewrite in_app_iff. simpl.
  intros [H|[H|[]]]; [now left|right; now symmetry].
Qed.

Lemma convert_fold_before (p : path) (bs : list located) :
  (forall b, In b bs ->
             is_prefix (removelast (loc_path b)) p = false
             /\ strip_prefix p (removelast (loc_path b)) = None) ->
  forall st,
    (forall q, In q (snd st) -> is_prefix q p = false) ->
    node_at (fst (fold_left convert_block bs st)) p = node_at (fst st) p
    /\ (forall q, In q (snd (fold_left convert_block bs st)) -> is_prefix q p = false).
Proof.
  induction bs as [|b bs IH]; intros Hbs st Hst; [auto|].
  cbn [fold_left].
  destruct (Hbs b (or_introl eq_refl)) as [H1 H2].
  destruct (IH (fun b' Hb' => Hbs b' (or_intror Hb')) (convert_block st b)) as [I1 I2].
  - intros q Hq. apply convert_block_gone in Hq. destruct Hq as [Hq| ->]; auto.
  - split; [|exact I2]. rewrite I1. now apply convert_block_apart.
Qed.





(** The callback begins with the renderer and then the highlighter, which
    is given the fragment just as the renderer made it. *)
Lemma render_begins (x : externals) (md html : jsstring) (pg : page) :
  markdown_container pg <> None ->
  marked_parse x md = inr html ->
  exists evs,
    events (snd (render x md pg))
    = events pg ++ MarkedParse md :: HighlightAll (parseHTML x html) :: evs.
Proof.
  intros Hc H1. run_chain. rewrite H1. cbv beta iota zeta.
  assert (Hcf : current_fragment (with_fragment (parseHTML x html)
                                    (with_event (MarkedParse md) pg)) = parseHTML x html).
  { unfold current_fragment. simpl. destruct (markdown_container pg); simpl; congruence. }
  rewrite Hcf.
  destruct (hljs_highlightAll x (parseHTML x html)) as [e2|hd]; cbv beta iota zeta; [begun|].
  destruct (window_mermaid x); cbv beta iota zeta.
  - destruct (mermaid_initialize x) as [e3|]; cbv beta iota zeta; [begun|].
    destruct (mermaid_run x _) as [e4|]; cbv beta iota zeta; [begun|].
    destruct (window_MathJax x); cbv beta iota zeta.
    + destruct (MathJax_typesetPromise x _) as [e5|]; cbv beta iota zeta; [begun|].
      begun_toc.
    + begun_toc.
  - destruct (window_MathJax x); cbv beta iota zeta.
    + destruct (MathJax_typesetPromise x _) as [e5|]; cbv beta iota zeta; [begun|].
      begun_toc.
    + begun_toc.
Qed.






(* ===================================================================== *)
(** ** More on slugs (lines 93-99) *)
(* ===================================================================== *)

Lemma slug_unit_kept (c : N) :
  is_lower c || is_digit c || (c =? underscore) || (c =? hyphen) = true ->
  is_word_or_hyphen c = true /\ is_space c = false /\ lower_unit c = c.
Proof.
  intros H.
  assert (Hk : is_word_or_hyphen c = true).
  { unfold is_word_or_hyphen, is_word, is_alnum.
    rewrite !orb_true_iff in *. tauto. }
  split; [exact Hk|]. split; [now apply word_is_not_space|].
  unfold lower_unit. destruct (is_upper c) eqn:Hu; [|reflexivity]. exfalso.
  revert H Hu. unfold is_lower, is_digit, is_upper, underscore, hyphen.
  rewrite !orb_true_iff, !andb_true_iff, !N.leb_le, !N.eqb_eq. lia.
Qed.

Lemma trimStart_no_space (s : jsstring) :
  (forall c, In c s -> is_space c = false) -> trimStart s = s.
Proof.
  destruct s as [|a s]; intros H; [reflexivity|].
  cbn [trimStart]. now rewrite (H a) by now left.
Qed.

Lemma trimEnd_no_space (s : jsstring) :
  (forall c, In c s -> is_space c = false) -> trimEnd s = s.
Proof.
  induction s as [|a s IH]; intros H; [reflexivity|].
  cbn [trimEnd]. rewrite IH by (intros c Hc; apply H; now right).
  destruct s; [|reflexivity]. now rewrite (H a) by now left.
Qed.

Lemma remove_non_word_none (s : jsstring) :
  (forall c, In c s -> is_word_or_hyphen c = true) -> remove_non_word s = s.
Proof.
  induction s as [|a s IH]; intros H; [reflexivity|].
  unfold remove_non_word in *. rewrite filter_cons.
  rewrite decide_True by (apply H; now left).
  f_equal. apply IH. intros c Hc. apply H. now right.
Qed.

(** A slug is made of lowercase ASCII letters, digits, underscores and
    hyphens, whatever the text of the heading. *)
Theorem slug_is_url_safe (s : jsstring) :
  Forall (fun c => is_lower c || is_digit c || (c =? underscore) || (c =? hyphen) = true)
         (slugify s).
Proof.
  apply Forall_forall. intros c Hc. apply (slugify_alphabet s).
  apply list_elem_of_In. exact Hc.
Qed.

(** The slug of a slug is the slug itself. *)
Theorem slugify_idempotent (s : jsstring) : slugify (slugify s) = slugify s.
Proof.
  assert (H : forall c, In c (slugify s) ->
                        is_word_or_hyphen c = true /\ is_space c = false /\ lower_unit c = c).
  { intros c Hc. apply slug_unit_kept. apply (slugify_alphabet s). exact Hc. }
  generalize dependent (slugify s). intros t H.
  unfold slugify, trim.
  rewrite trimStart_no_space by (intros c Hc; now apply H).
  rewrite trimEnd_no_space by (intros c Hc; now apply H).
  rewrite replace_no_space by (intros c Hc; now apply H).
  rewrite remove_non_word_none by (intros c Hc; now apply H).
  unfold toLowerCase. rewrite <- (map_id t) at 2.
  apply map_ext_in. intros c Hc. now apply H.
Qed.

Lemma words_all_space (s : jsstring) :
  (forall c, In c s -> is_space c = true) -> words s = [].
Proof.
  induction s as [|a s IH]; intros H; [reflexivity|].
  cbn [words]. rewrite (H a) by now left. apply IH. intros c Hc. apply H. now right.
Qed.

Lemma words_app_space_l (l s : jsstring) :
  (forall c, In c l -> is_space c = true) -> words (l ++ s) = words s.
Proof.
  induction l as [|a l IH]; intros H; [reflexivity|].
  cbn [app words]. rewrite (H a) by now left. apply IH. intros c Hc. apply H. now right.
Qed.

Lemma words_app_space_r (s r : jsstring) :
  (forall c, In c r -> is_space c = true) -> words (s ++ r) = words s.
Proof.
  intros H. induction s as [|a s IH].
  - simpl. now apply words_all_space.
  - cbn [app]. destruct (is_space a) eqn:Ha.
    + cbn [words]. now rewrite Ha.
    + rewrite !(words_cons_not_space a _ Ha), IH.
      destruct s as [|b s].
      * simpl. destruct r as [|b r]; [reflexivity|].
        rewrite (H b) by now left. reflexivity.
      * reflexivity.
Qed.

(** Whitespace before and after the text of a heading does not show in
    its slug. *)
Theorem slug_ignores_outer_whitespace (l s r : jsstring) :
  (forall c, In c l -> is_space c = true) ->
  (forall c, In c r -> is_space c = true) ->
  slugify (l ++ s ++ r) = slugify s.
Proof.
  intros Hl Hr. rewrite !slugify_word_slug. unfold word_slug.
  now rewrite words_app_space_l, words_app_space_r.
Qed.

Lemma slug_ignores_outer_whitespace_witness :
  slugify (str "  " ++ str "Hello, World!" ++ [9; 10]) = slugify (str "Hello, World!").
Proof.
  apply (slug_ignores_outer_whitespace (str "  ") (str "Hello, World!") [9; 10]).
  - intros c [<-|[<-|[]]]; reflexivity.
  - intros c [<-|[<-|[]]]; reflexivity.
Defined.

Lemma lower_unit_class (c : N) :
  is_space (lower_unit c) = is_space c
  /\ is_word_or_hyphen (lower_unit c) = is_word_or_hyphen c
  /\ lower_unit (lower_unit c) = lower_unit c.
Proof.
  unfold lower_unit. destruct (is_upper c) eqn:Hu; [|rewrite Hu; auto].
  unfold is_upper in Hu. rewrite andb_true_iff, !N.leb_le in Hu.
  split; [|split].
  - transitivity false; [|symmetry]; unfold is_space;
      rewrite !orb_false_iff, !andb_false_iff, !N.leb_gt, !N.eqb_neq; lia.
  - transitivity true; [|symmetry];
      unfold is_word_or_hyphen, is_word, is_alnum, is_digit, is_upper, is_lower;
      rewrite !orb_true_iff, !andb_true_iff, !N.leb_le; lia.
  - unfold is_upper.
    destruct ((65 <=? c + 32) && (c + 32 <=? 90)) eqn:E; [|reflexivity].
    rewrite andb_true_iff, !N.leb_le in E. lia.
Qed.

Lemma trimStart_lower (s : jsstring) :
  trimStart (map lower_unit s) = map lower_unit (trimStart s).
Proof.
  induction s as [|a s IH]; [reflexivity|].
  cbn [map trimStart]. rewrite (proj1 (lower_unit_class a)).
  destruct (is_space a); [exact IH|reflexivity].
Qed.

Lemma trimEnd_lower (s : jsstring) :
  trimEnd (map lower_unit s) = map lower_unit (trimEnd s).
Proof.
  induction s as [|a s IH]; [reflexivity|].
  cbn [map trimEnd]. rewrite IH, (proj1 (lower_unit_class a)).
  destruct (trimEnd s); [destruct (is_space a)|]; reflexivity.
Qed.

Lemma replace_lower (b : bool) (s : jsstring) :
  replace_space_runs b (map lower_unit s) = map lower_unit (replace_space_runs b s).
Proof.
  revert b. induction s as [|a s IH]; intros b; [reflexivity|].
  cbn [map replace_space_runs]. rewrite (proj1 (lower_unit_class a)), !IH.
  destruct (is_space a); [destruct b|]; reflexivity.
Qed.

Lemma remove_non_word_lower (s : jsstring) :
  remove_non_word (map lower_unit s) = map lower_unit (remove_non_word s).
Proof.
  induction s as [|a s IH]; [reflexivity|].
  unfold remove_non_word in *. cbn [map]. rewrite !filter_cons, IH.
  destruct (lower_unit_class a) as (_ & -> & _).
  destruct (decide (is_word_or_hyphen a = true)); reflexivity.
Qed.

(** Texts that differ only in the case of their ASCII letters have the
    same slug. *)
Theorem slug_ignores_ascii_case (s t : jsstring) :
  map lower_unit s = map lower_unit t -> slugify s = slugify t.
Proof.
  assert (H : forall u, slugify (map lower_unit u) = slugify u).
  { intros u. unfold slugify, trim, toLowerCase.
    rewrite trimStart_lower, trimEnd_lower, replace_lower, remove_non_word_lower.
    rewrite map_map. apply map_ext. intros c. apply lower_unit_class. }
  intros Heq. now rewrite <- (H s), <- (H t), Heq.
Qed.

Lemma slug_ignores_ascii_case_witness :
  slugify (str "Getting Started") = slugify (str "GETTING started").
Proof.
  apply (slug_ignores_ascii_case (str "Getting Started") (str "GETTING started")).
  reflexivity.
Defined.

(* ===================================================================== *)
(** ** More on the table of contents (lines 58-127) *)
(* ===================================================================== *)

Lemma toc_items_unmarked (dom : list node) (hs : list located) (idx : nat) :
  Forall (fun n => entry_marks n = ([], [])) (toc_items dom (S idx) hs).
Proof.
  revert idx. induction hs as [|h hs IH]; intros idx; [constructor|].
  cbn [toc_items]. constructor; [reflexivity|apply IH].
Qed.

(** The first entry of the list is marked as the active one ([has-active]
    on the [li], [active] on the link) and no other entry has a class. *)
Theorem only_first_entry_is_active (pg : page) (c : render_target) (old : list node)
    (h : located) (hs : list located) :
  toc_content_auto pg = true ->
  markdown_container pg = Some c ->
  TableOfContents pg = Some old ->
  querySelectorAll [] sel_headings (fragment c) = h :: hs ->
  exists first rest,
    TableOfContents (snd (generate_toc pg))
    = Some [Element (createElement "ul") (first :: rest)]
    /\ entry_marks first = (["has-active"], ["active"])
    /\ Forall (fun n => entry_marks n = ([], [])) rest.
Proof.
  intros Ha Hc Ht Hq.
  destruct (generate_toc_builds pg c old h hs Ha Hc Ht Hq) as (_ & Htoc & _).
  cbn [toc_items] in Htoc. eexists _, _. split; [exact Htoc|].
  split; [reflexivity|apply toc_items_unmarked].
Qed.

Lemma only_first_entry_is_active_witness :
  exists first rest,
    TableOfContents (snd (generate_toc (page_of three_titles)))
    = Some [Element (createElement "ul") (first :: rest)]
    /\ entry_marks first = (["has-active"], ["active"])
    /\ Forall (fun n => entry_marks n = ([], [])) rest.
Proof.
  apply (only_first_entry_is_active (page_of three_titles)
           {| dataset_file := Some (str "post.md"); fragment := three_titles |} []
           (top_level 0 1 "h1") [top_level 1 2 "h2"; top_level 2 3 "h3"]);
    reflexivity.
Defined.

(** The [href] of the entry of a heading is "#" followed by the
    identifier that this heading has in the fragment once the pass is
    over, whatever that identifier is: it may be empty, and it may be
    the identifier of other headings too. *)
Theorem entry_href_is_hash_and_heading_id (pg : page) (c : render_target) (old : list node)
    (h : located) (hs : list located) (i : nat) (k : located) :
  toc_content_auto pg = true ->
  markdown_container pg = Some c ->
  TableOfContents pg = Some old ->
  querySelectorAll [] sel_headings (fragment c) = h :: hs ->
  (h :: hs) !! i = Some k ->
  exists entries entry e,
    TableOfContents (snd (generate_toc pg)) = Some [Element (createElement "ul") entries]
    /\ entries !! i = Some entry
    /\ element_at (current_fragment (snd (generate_toc pg))) (loc_path k) = Some e
    /\ entry_href entry = str "#" ++ el_id e.
Proof.
  intros Ha Hc Ht Hq Hi.
  destruct (generate_toc_builds pg c old h hs Ha Hc Ht Hq) as (_ & Htoc & Hfrag & _).
  assert (Hk : In k (h :: hs)).
  { apply list_elem_of_In, list_elem_of_lookup. eauto. }
  assert (Hin : In k (querySelectorAll [] sel_headings (fragment c))) by now rewrite Hq.
  apply querySelectorAll_sound in Hin. destruct Hin as (He & _).
  pose proof (headings_NoDup (fragment c)) as Hnd. rewrite Hq in Hnd.
  assert (Hhref : entry_href <$> toc_items (fragment c) 0 (h :: hs) !! i
                  = Some (str "#" ++ heading_id (fragment c) k)).
  { rewrite <- list_lookup_fmap.
    change (fmap entry_href (toc_items (fragment c) 0 (h :: hs)))
      with (map entry_href (toc_items (fragment c) 0 (h :: hs))).
    rewrite toc_items_hrefs.
    change (map (fun h0 => str "#" ++ heading_id (fragment c) h0) (h :: hs))
      with (fmap (fun h0 => str "#" ++ heading_id (fragment c) h0) (h :: hs)).
    now rewrite list_lookup_fmap, Hi. }
  destruct (toc_items (fragment c) 0 (h :: hs) !! i) as [entry|] eqn:Hentry; [|discriminate].
  exists (toc_items (fragment c) 0 (h :: hs)), entry,
         (set_id (heading_id (fragment c) k) (loc_elem k)).
  split; [exact Htoc|]. split; [exact Hentry|]. split.
  - rewrite Hfrag, (with_ids_at _ _ Hnd _ _ Hk), He. reflexivity.
  - cbn [fmap option_fmap option_map] in Hhref. injection Hhref as ->. reflexivity.
Qed.

Lemma entry_href_is_hash_and_heading_id_witness :
  exists entries entry e,
    TableOfContents (snd (generate_toc (page_of own_and_derived)))
    = Some [Element (createElement "ul") entries]
    /\ entries !! 1%nat = Some entry
    /\ element_at (current_fragment (snd (generate_toc (page_of own_and_derived)))) [1%nat]
       = Some e
    /\ entry_href entry = str "#" ++ el_id e.
Proof.
  apply (entry_href_is_hash_and_heading_id (page_of own_and_derived)
           {| dataset_file := Some (str "post.md"); fragment := own_and_derived |} []
           {| loc_path := [0%nat]; loc_elem := set_id (str "Intro") (createElement "h1");
              loc_index := 1; loc_ancestors := [] |}
           [top_level 1 2 "h2"] 1 (top_level 1 2 "h2"));
    reflexivity.
Defined.

Lemma set_id_same (e : element) : set_id (el_id e) e = e.
Proof. now destruct e. Qed.

Lemma matches_sel_headings (l : located) :
  matches sel_headings l = true
  <-> localName (loc_elem l) = "h1" \/ localName (loc_elem l) = "h2"
      \/ localName (loc_elem l) = "h3".
Proof.
  unfold matches, sel_headings, by_tag, matches_complex, matches_compound. simpl.
  rewrite !orb_false_r, !andb_true_r, !orb_true_iff, !String.eqb_eq. reflexivity.
Qed.

(** The pass over the headings changes nothing in the fragment but an
    [id]: an element keeps its tag, classes, style and [href], and one
    that is not a [h1], [h2] or [h3] is just as it was; no text changes,
    and no element changes its place among its siblings. *)
Theorem toc_changes_only_heading_ids (pg : page) (c : render_target) (old : list node)
    (h : located) (hs : list located) (p : path) :
  toc_content_auto pg = true ->
  markdown_container pg = Some c ->
  TableOfContents pg = Some old ->
  querySelectorAll [] sel_headings (fragment c) = h :: hs ->
  (forall e, element_at (fragment c) p = Some e ->
     (exists v, element_at (current_fragment (snd (generate_toc pg))) p
                = Some (set_id v e))
     /\ (~ In (localName e) ["h1"; "h2"; "h3"] ->
         element_at (current_fragment (snd (generate_toc pg))) p = Some e))
  /\ textContent_at (current_fragment (snd (generate_toc pg))) p
     = textContent_at (fragment c) p
  /\ child_index (current_fragment (snd (generate_toc pg))) p = child_index (fragment c) p.
Proof.
  intros Ha Hc Ht Hq.
  destruct (generate_toc_builds pg c old h hs Ha Hc Ht Hq) as (_ & _ & Hfrag & _).
  pose proof (headings_NoDup (fragment c)) as Hnd. rewrite Hq in Hnd.
  rewrite Hfrag. split; [|split].
  - intros e He. split.
    + destruct (in_dec (List.list_eq_dec Nat.eq_dec) p (map loc_path (h :: hs))) as [Hin|Hout].
      * apply in_map_iff in Hin. destruct Hin as (k & <- & Hk).
        exists (heading_id (fragment c) k). now rewrite (with_ids_at _ _ Hnd _ _ Hk), He.
      * exists (el_id e). rewrite with_ids_other by exact Hout. now rewrite set_id_same.
    + intros Htag. rewrite with_ids_other; [exact He|].
      intros Hin. apply in_map_iff in Hin. destruct Hin as (k & <- & Hk).
      rewrite <- Hq in Hk. apply querySelectorAll_sound in Hk.
      destruct Hk as (Hk & _ & _ & Hm). apply matches_sel_headings in Hm.
      rewrite He in Hk. inversion Hk; subst e. apply Htag. simpl.
      destruct Hm as [E | [E | E]]; rewrite E; auto.
  - apply with_ids_textContent.
  - apply (with_ids_restyles (fragment c)), restyles_refl.
Qed.

Lemma toc_changes_only_heading_ids_witness :
  (forall e, element_at own_and_derived [1%nat] = Some e ->
     (exists v, element_at (current_fragment (snd (generate_toc (page_of own_and_derived))))
                           [1%nat]
                = Some (set_id v e))
     /\ (~ In (localName e) ["h1"; "h2"; "h3"] ->
         element_at (current_fragment (snd (generate_toc (page_of own_and_derived)))) [1%nat]
         = Some e))
  /\ textContent_at (current_fragment (snd (generate_toc (page_of own_and_derived)))) [1%nat]
     = textContent_at own_and_derived [1%nat]
  /\ child_index (current_fragment (snd (generate_toc (page_of own_and_derived)))) [1%nat]
     = child_index own_and_derived [1%nat].
Proof.
  apply (toc_changes_only_heading_ids (page_of own_and_derived)
           {| dataset_file := Some (str "post.md"); fragment := own_and_derived |} []
           {| loc_path := [0%nat]; loc_elem := set_id (str "Intro") (createElement "h1");
              loc_index := 1; loc_ancestors := [] |}
           [top_level 1 2 "h2"] [1%nat]);
    reflexivity.
Defined.

(** Without the marker [#toc-content-auto], the render target, the
    navigation target or a heading, stage 7 changes nothing on the page:
    it only logs.  The warning that the table of contents is skipped is
    logged when the marker and the render target are both there, and not
    otherwise. *)
Theorem skipped_toc_leaves_the_page (pg : page) :
  toc_content_auto pg = false \/ markdown_container pg = None
  \/ TableOfContents pg = None
  \/ querySelectorAll [] sel_headings (current_fragment pg) = [] ->
  fst (generate_toc pg) = inr tt
  /\ markdown_container (snd (generate_toc pg)) = markdown_container pg
  /\ TableOfContents (snd (generate_toc pg)) = TableOfContents pg
  /\ exists logs,
       events (snd (generate_toc pg)) = events pg ++ logs
       /\ Forall is_console logs
       /\ (In (Console WarnTocSkipped) logs
           <-> toc_content_auto pg = true /\ markdown_container pg <> None).
Proof.
  intros H.
  destruct (toc_content_auto pg) eqn:Ha; [destruct (markdown_container pg) as [c|] eqn:Hc|].
  - destruct (TableOfContents pg) as [old|] eqn:Ht;
      [destruct (querySelectorAll [] sel_headings (fragment c)) as [|h hs] eqn:Hq|].
    + run_toc. rewrite Ha, Hc, Ht, Hq.
      cbn [fst snd events with_event markdown_container TableOfContents].
      split; [reflexivity|]. split; [exact Hc|]. split; [exact Ht|].
      rewrite <- !app_assoc. eexists. split; [reflexivity|].
      split; [repeat constructor|]. cbn. split; [intros _; split; congruence|tauto].
    + exfalso. unfold current_fragment in H. rewrite Hc, Hq in H.
      destruct H as [H|[H|[H|H]]]; discriminate.
    + run_toc. rewrite Ha, Hc, Ht.
      cbn [fst snd events with_event markdown_container TableOfContents].
      split; [reflexivity|]. split; [exact Hc|]. split; [exact Ht|].
      rewrite <- !app_assoc. eexists. split; [reflexivity|].
      split; [repeat constructor|]. cbn. split; [intros _; split; congruence|].
      intros _. destruct (querySelectorAll [] sel_headings (fragment c)); tauto.
  - run_toc. rewrite Ha, Hc.
    cbn [fst snd events with_event markdown_container TableOfContents].
    split; [reflexivity|]. split; [exact Hc|]. split; [reflexivity|].
    rewrite <- !app_assoc. eexists. split; [reflexivity|].
    split; [repeat constructor|]. cbn. split; [|intros [_ Hn]; congruence].
    intros [E|[E|[E|[]]]]; discriminate.
  - run_toc. rewrite Ha.
    cbn [fst snd events with_event markdown_container TableOfContents].
    split; [reflexivity|]. split; [reflexivity|]. split; [reflexivity|].
    rewrite <- !app_assoc. eexists. split; [reflexivity|].
    split; [destruct (markdown_container pg); repeat constructor|].
    cbn. split; [|intros [Hn _]; discriminate].
    intros [E|[E|[E|[]]]]; try discriminate.
    destruct (markdown_container pg); discriminate.
Qed.

Lemma skipped_toc_leaves_the_page_witness :
  fst (generate_toc (page_of [tag "p" [txt "No titles here."]])) = inr tt
  /\ markdown_container (snd (generate_toc (page_of [tag "p" [txt "No titles here."]])))
     = markdown_container (page_of [tag "p" [txt "No titles here."]])
  /\ TableOfContents (snd (generate_toc (page_of [tag "p" [txt "No titles here."]])))
     = TableOfContents (page_of [tag "p" [txt "No titles here."]])
  /\ exists logs,
       events (snd (generate_toc (page_of [tag "p" [txt "No titles here."]])))
       = events (page_of [tag "p" [txt "No titles here."]]) ++ logs
       /\ Forall is_console logs
       /\ (In (Console WarnTocSkipped) logs
           <-> toc_content_auto (page_of [tag "p" [txt "No titles here."]]) = true
               /\ markdown_container (page_of [tag "p" [txt "No titles here."]]) <> None).
Proof.
  apply (skipped_toc_leaves_the_page (page_of [tag "p" [txt "No titles here."]])).
  right. right. right. reflexivity.
Defined.

(* ===================================================================== *)
(** ** More on the chain (lines 7-135) *)
(* ===================================================================== *)

Ltac toc_logged :=
  let Hr := fresh in
  let Hg := fresh in
  let evs := fresh "evs" in
  let He := fresh in
  let Hc := fresh in
  intros Hr;
  match type of Hr with
  | generate_toc ?p = _ =>
      pose proof (generate_toc_returns p) as [Hg (evs & He & Hc)];
      rewrite Hr in He; cbn [snd] in He;
      cbn [events with_event with_fragment] in He;
      exists evs; split; [|exact Hc];
      rewrite He, <- ?app_assoc; reflexivity
  end.

(** The calls of a callback that returns, with what each is given. *)
Lemma render_calls (x : externals) (md : jsstring) (pg pg' : page) :
  markdown_container pg <> None ->
  render x md pg = (inr tt, pg') ->
  exists html hd,
    marked_parse x md = inr html
    /\ hljs_highlightAll x (parseHTML x html) = inr hd
    /\ exists toc_evs,
         events pg'
         = events pg
           ++ [MarkedParse md; HighlightAll (parseHTML x html)]
           ++ (if window_mermaid x
               then [MermaidInitialize; MermaidRun (style_tables (convert_diagrams hd))]
               else [])
           ++ (if window_MathJax x
               then [TypesetPromise (style_tables (convert_diagrams hd))]
               else [])
           ++ Console LogTocStart :: toc_evs
         /\ Forall is_console toc_evs.
Proof.
  intros Hc Hr. revert Hr. run_chain.
  assert (Hcf : forall ns evs, current_fragment (with_fragment ns (with_event evs pg)) = ns).
  { intros. unfold current_fragment. simpl. destruct (markdown_container pg); simpl; congruence. }
  destruct (marked_parse x md) as [e1|html] eqn:H1; cbv beta iota zeta;
    [discriminate|].
  rewrite Hcf.
  destruct (hljs_highlightAll x (parseHTML x html)) as [e2|hd] eqn:H2; cbv beta iota zeta;
    [discriminate|].
  intros Hr. exists html, hd. split; [reflexivity|]. split; [exact H2|].
  revert Hr.
  assert (Hcf' : forall ns q, markdown_container q <> None ->
                              current_fragment (with_fragment ns q) = ns).
  { intros ns q Hq. unfold current_fragment. simpl.
    destruct (markdown_container q); simpl; congruence. }
  assert (Hcw : forall ev q, current_fragment (with_event ev q) = current_fragment q)
    by reflexivity.
  assert (Hmw : forall ev q, markdown_container q <> None ->
                             markdown_container (with_event ev q) <> None) by (intros; assumption).
  assert (Hmf : forall ns q, markdown_container q <> None ->
                             markdown_container (with_fragment ns q) <> None).
  { intros ns q Hq. simpl. destruct (markdown_container q); congruence. }
  repeat first [rewrite Hcw | rewrite Hcf' by auto 10].
  destruct (window_mermaid x) eqn:Hm; cbv beta iota zeta.
  - destruct (mermaid_initialize x) as [e3|] eqn:H3; cbv beta iota zeta;
      [discriminate|].
    repeat first [rewrite Hcw | rewrite Hcf' by auto 10].
    destruct (mermaid_run x _) as [e4|] eqn:H4; cbv beta iota zeta;
      [discriminate|].
    destruct (window_MathJax x) eqn:Hj; cbv beta iota zeta.
    + repeat first [rewrite Hcw | rewrite Hcf' by auto 10].
      destruct (MathJax_typesetPromise x _) as [e5|] eqn:H5; cbv beta iota zeta;
        [discriminate|].
      toc_logged.
    + toc_logged.
  - destruct (window_MathJax x) eqn:Hj; cbv beta iota zeta.
    + repeat first [rewrite Hcw | rewrite Hcf' by auto 10].
      destruct (MathJax_typesetPromise x _) as [e5|] eqn:H5; cbv beta iota zeta;
        [discriminate|].
      toc_logged.
    + toc_logged.
Qed.

(** A pass that completes makes these calls, in this order, and no
    other: the fetch, the renderer, the highlighter on the fragment as
    rendered, then, if the page has them, [mermaid.initialize] and
    [mermaid.run], and [MathJax.typesetPromise]; the last two find the
    fragment with its diagram blocks converted and its tables styled.
    What follows is the log of stage 7. *)
Theorem completed_pass_calls (x : externals) (pg : page) (c : render_target)
    (md : jsstring) :
  markdown_container pg = Some c ->
  fetch_gives x (dataset_file c) md ->
  fst (render x md (with_event (Fetch (dataset_file c)) pg)) = inr tt ->
  exists html hd toc_evs,
    marked_parse x md = inr html
    /\ hljs_highlightAll x (parseHTML x html) = inr hd
    /\ events (viewer x pg)
       = events pg
         ++ [Fetch (dataset_file c); MarkedParse md; HighlightAll (parseHTML x html)]
         ++ (if window_mermaid x
             then [MermaidInitialize; MermaidRun (style_tables (convert_diagrams hd))]
             else [])
         ++ (if window_MathJax x
             then [TypesetPromise (style_tables (convert_diagrams hd))]
             else [])
         ++ Console LogTocStart :: toc_evs
    /\ Forall is_console toc_evs.
Proof.
  intros Hc Hf Hr. rewrite (viewer_fetched _ _ _ _ Hc Hf). unfold catch.
  destruct (render x md (with_event (Fetch (dataset_file c)) pg)) as [[e|[]] pg'] eqn:Hrun;
    cbn [fst] in Hr; [discriminate|]. cbn [snd].
  destruct (render_calls x md (with_event (Fetch (dataset_file c)) pg) pg')
    as (html & hd & H1 & H2 & toc_evs & Hev & Hcon);
    [|exact Hrun|].
  { cbn [markdown_container with_event]. congruence. }
  exists html, hd, toc_evs. split; [exact H1|]. split; [exact H2|]. split; [|exact Hcon].
  rewrite Hev. cbn [events with_event]. rewrite <- !app_assoc. reflexivity.
Qed.

Lemma completed_pass_calls_witness :
  exists html hd toc_evs,
    marked_parse full_externals (str "# Title") = inr html
    /\ hljs_highlightAll full_externals (parseHTML full_externals html) = inr hd
    /\ events (viewer full_externals (blank_page (Some (str "post.md"))))
       = []
         ++ [Fetch (Some (str "post.md")); MarkedParse (str "# Title");
             HighlightAll (parseHTML full_externals html)]
         ++ [MermaidInitialize; MermaidRun (style_tables (convert_diagrams hd))]
         ++ [TypesetPromise (style_tables (convert_diagrams hd))]
         ++ Console LogTocStart :: toc_evs
    /\ Forall is_console toc_evs.
Proof.
  apply (completed_pass_calls full_externals (blank_page (Some (str "post.md")))
           {| dataset_file := Some (str "post.md"); fragment := [] |} (str "# Title")).
  - reflexivity.
  - eexists. split; [reflexivity|]. split; reflexivity.
  - reflexivity.
Defined.

Lemma console_not_fetch (evs : list event) :
  Forall is_console evs -> Forall not_fetch evs.
Proof. intros H. eapply Forall_impl; [exact H|]. intros [] Hc; exact Hc || exact I. Qed.

Ltac no_fetch_so_far :=
  cbn [snd events with_event with_fragment]; rewrite <- ?app_assoc; cbn [app];
  eexists; split; [reflexivity|repeat constructor].

Ltac no_fetch_toc :=
  let evs := fresh "evs" in
  let He := fresh in
  let Hc := fresh in
  match goal with
  | |- context [generate_toc ?p] =>
      destruct (generate_toc_returns p) as [_ (evs & He & Hc)]; rewrite He;
      cbn [events with_event with_fragment]; rewrite <- ?app_assoc; cbn [app];
      eexists; split; [reflexivity|];
      repeat (constructor; [exact I|]); apply console_not_fetch; exact Hc
  end.

(** The callback of line 12 does not fetch. *)
Lemma render_no_fetch (x : externals) (md : jsstring) (pg : page) :
  exists evs, events (snd (render x md pg)) = events pg ++ evs /\ Forall not_fetch evs.
Proof.
  run_chain.
  destruct (marked_parse x md) as [e1|html]; cbv beta iota zeta; [no_fetch_so_far|].
  destruct (hljs_highlightAll x _) as [e2|hd]; cbv beta iota zeta; [no_fetch_so_far|].
  destruct (window_mermaid x); cbv beta iota zeta.
  - destruct (mermaid_initialize x) as [e3|]; cbv beta iota zeta; [no_fetch_so_far|].
    destruct (mermaid_run x _) as [e4|]; cbv beta iota zeta; [no_fetch_so_far|].
    destruct (window_MathJax x); cbv beta iota zeta.
    + destruct (MathJax_typesetPromise x _) as [e5|]; cbv beta iota zeta; [no_fetch_so_far|].
      no_fetch_toc.
    + no_fetch_toc.
  - destruct (window_MathJax x); cbv beta iota zeta.
    + destruct (MathJax_typesetPromise x _) as [e5|]; cbv beta iota zeta; [no_fetch_so_far|].
      no_fetch_toc.
    + no_fetch_toc.
Qed.

(** The viewer fetches once: the fetch is the first thing it does, and
    whatever comes of it, and of the stages after it, there is no second
    fetch. *)
Theorem viewer_fetches_once (x : externals) (pg : page) (c : render_target) :
  markdown_container pg = Some c ->
  exists evs,
    events (viewer x pg) = events pg ++ Fetch (dataset_file c) :: evs
    /\ Forall not_fetch evs.
Proof.
  intros Hc.
  assert (Hfail : forall err, fetch_fails x (dataset_file c) err ->
            exists evs, events (viewer x pg) = events pg ++ Fetch (dataset_file c) :: evs
                        /\ Forall not_fetch evs).
  { intros err Hf. rewrite (viewer_failed x pg c err Hc Hf).
    cbn [events with_event with_fragment]. rewrite <- app_assoc.
    eexists. split; [reflexivity|]. repeat constructor. }
  destruct (fetch x (dataset_file c)) as [err|res] eqn:Hf.
  { apply (Hfail err). now left. }
  destruct (ok res) eqn:Hok.
  2: { eapply Hfail. right. left. exists res. repeat split; [exact Hf|exact Hok]. }
  destruct (text res) as [err|md] eqn:Ht.
  { apply (Hfail err). right. right. exists res. repeat split; assumption. }
  rewrite (viewer_fetched x pg c md Hc)
    by (exists res; repeat split; assumption).
  unfold catch.
  destruct (render_no_fetch x md (with_event (Fetch (dataset_file c)) pg)) as (evs & He & Hn).
  destruct (render x md (with_event (Fetch (dataset_file c)) pg)) as [[e|[]] pg'];
    cbn [snd] in He.
  - unfold on_rejected, bind, put_fragment, console, emit.
    cbn [snd events with_event with_fragment]. rewrite He.
    cbn [events with_event]. rewrite <- !app_assoc.
    exists (evs ++ [Console (ConsoleError e)]). split; [reflexivity|].
    apply Forall_app. split; [exact Hn|repeat constructor].
  - cbn [snd]. rewrite He. cbn [events with_event]. rewrite <- !app_assoc.
    exists evs. split; [reflexivity|exact Hn].
Qed.

Lemma viewer_fetches_once_witness :
  exists evs,
    events (viewer full_externals (blank_page (Some (str "post.md"))))
    = [] ++ Fetch (Some (str "post.md")) :: evs
    /\ Forall not_fetch evs.
Proof.
  apply (viewer_fetches_once full_externals (blank_page (Some (str "post.md")))
           {| dataset_file := Some (str "post.md"); fragment := [] |}).
  reflexivity.
Defined.

(* ===================================================================== *)
(** ** More on tables (lines 28-45) *)
(* ===================================================================== *)






(** The cell of [aligned_table] after stage 4: the alignment is as it
    was, and the left border that was written on the cell has given way
    to the border that line 38 writes. *)
Lemma aligned_cell_styled :
  (style <$> element_at (style_tables aligned_table) [0; 0; 0; 0]%nat)
  = Some (<["padding" := "6px 13px"]>
            (<["border" := "1px solid #d0d7de"]> (<["textAlign" := "right"]> ∅))).
Proof. vm_compute. reflexivity. Qed.

(** A round of line 28 writes to the table, to cells below it and to
    rows below it, and to nothing else. *)
Lemma style_one_table_apart (dom d : list node) (tbl : located)
    (P : element -> Prop) (r : path) :
  restyles dom d -> loc_path tbl <> [] ->
  (localName <$> element_at dom (loc_path tbl)) = Some "table" ->
  (forall t, (localName <$> element_at dom r) = Some t -> ~ In t ["table"; "th"; "td"; "tr"])
  \/ (forall q, is_prefix q r = true -> (localName <$> element_at dom q) <> Some "table") ->
  holds_at P d r -> holds_at P (style_one_table d tbl) r.
Proof.
  intros H Hp Htbl Hr Hd. unfold style_one_table.
  set (p := loc_path tbl) in *.
  set (d1 := modify_at style_table p d).
  set (d2 := fold_left _ (querySelectorAll [] sel_cells (children_at d1 p)) d1).
  assert (H1 : restyles dom d1) by (apply restyles_modify; [exact H|exact style_table_tag]).
  assert (H2 : restyles dom d2).
  { apply (fold_modify_restyles (fun cell => p ++ loc_path cell) style_cell);
      [exact style_cell_tag|exact H1]. }
  assert (Hmod : forall m t, (localName <$> element_at dom m) = Some t ->
                             In t ["table"; "th"; "td"; "tr"] ->
                             is_prefix p m = true -> m <> r).
  { intros m t Hm Ht Hpre ->.
    destruct Hr as [Hr|Hr]; [exact (Hr t Hm Ht)|exact (Hr p Hpre Htbl)]. }
  assert (Hbelow : forall q, is_prefix p (p ++ q) = true).
  { intros q. apply is_prefix_strip. rewrite strip_prefix_app. discriminate. }
  apply (fold_modify_holds (fun row => p ++ loc_path row) style_row).
  { intros row Hrow. left.
    destruct (selected_row_is_even dom d2 p row H2 Hp Hrow) as [Htag _].
    apply (Hmod _ "tr" Htag); [simpl; tauto|apply Hbelow]. }
  apply (fold_modify_holds (fun cell => p ++ loc_path cell) style_cell).
  { intros cell Hcell. left.
    pose proof (querySelectorAll_path _ _ _ _ Hcell) as Hq.
    apply querySelectorAll_sound in Hcell. destruct Hcell as (He & _ & _ & Hm).
    apply matches_sel_cells in Hm.
    assert (Htag : (localName <$> element_at dom (p ++ loc_path cell))
                   = Some (localName (loc_elem cell))).
    { destruct (H1 (p ++ loc_path cell)) as [<- _].
      rewrite element_at_app, He by assumption. reflexivity. }
    apply (Hmod _ _ Htag); [|apply Hbelow].
    destruct Hm as [->| ->]; simpl; tauto. }
  apply holds_at_modify; [exact Hd|]. left.
  apply (Hmod _ "table" Htbl); [simpl; tauto|apply is_prefix_refl].
Qed.

(** Stage 4 leaves every element as it is that is not a [table], [th],
    [td] or [tr], and every element that is neither a table nor below
    one. *)
Theorem styling_touches_only_tables (dom : list node) (r : path) (e : element) :
  element_at dom r = Some e ->
  ~ In (localName e) ["table"; "th"; "td"; "tr"]
  \/ (forall q, is_prefix q r = true -> (localName <$> element_at dom q) <> Some "table") ->
  element_at (style_tables dom) r = Some e.
Proof.
  intros He Hr. unfold style_tables.
  assert (Hts : forall tbl, In tbl (querySelectorAll [] sel_table dom) ->
                  loc_path tbl <> []
                  /\ (localName <$> element_at dom (loc_path tbl)) = Some "table").
  { intros tbl Hin. split; [eapply querySelectorAll_path; exact Hin|].
    apply querySelectorAll_sound in Hin. destruct Hin as (Hel & _ & _ & Hm).
    apply matches_sel_table in Hm. rewrite Hel. simpl. now rewrite Hm. }
  assert (Hr' : (forall t, (localName <$> element_at dom r) = Some t ->
                           ~ In t ["table"; "th"; "td"; "tr"])
                \/ (forall q, is_prefix q r = true ->
                              (localName <$> element_at dom q) <> Some "table")).
  { destruct Hr as [Hr|Hr]; [left|now right].
    intros t Ht. rewrite He in Ht. simpl in Ht. inversion Ht; subst t. exact Hr. }
  assert (Hall : forall ts d,
            (forall tbl, In tbl ts -> loc_path tbl <> []
                         /\ (localName <$> element_at dom (loc_path tbl)) = Some "table") ->
            restyles dom d -> holds_at (fun e' => e' = e) d r ->
            holds_at (fun e' => e' = e) (fold_left style_one_table ts d) r).
  { induction ts as [|t ts IH]; intros d Hin Hres Hd; [exact Hd|].
    cbn [fold_left]. destruct (Hin t (or_introl eq_refl)) as [Hne Htag].
    apply IH.
    - intros tbl Htbl. apply Hin. now right.
    - now apply style_one_table_restyles.
    - now apply (style_one_table_apart dom). }
  destruct (Hall (querySelectorAll [] sel_table dom) dom Hts (restyles_refl dom))
    as (e' & He' & ->); [|exact He'].
  exists e. split; [exact He|reflexivity].
Qed.

Lemma styling_touches_only_tables_witness :
  element_at (style_tables small_table) [0; 0]%nat = Some (createElement "thead").
Proof.
  apply (styling_touches_only_tables small_table [0; 0]%nat (createElement "thead")).
  - reflexivity.
  - left. simpl. intros [H|[H|[H|[H|[]]]]]; discriminate.
Defined.

Lemma alter_fixed {A : Type} (f : A -> A) (i : nat) (l : list A) :
  (forall a, l !! i = Some a -> f a = a) -> alter f i l = l.
Proof.
  revert i. induction l as [|a l IH]; intros [|i] H; [reflexivity|reflexivity| |].
  - cbn. f_equal. now apply H.
  - cbn. f_equal. apply IH. exact H.
Qed.

Lemma alter_at_fixed (f : node -> node) (p : path) :
  forall ns, (forall n, node_at ns p = Some n -> f n = n) -> alter_at f p ns = ns.
Proof.
  induction p as [|i p IH]; intros ns H; [reflexivity|].
  cbn [alter_at]. apply alter_fixed. intros n Hn.
  destruct p as [|j p'].
  - apply H. cbn [node_at]. now rewrite Hn.
  - destruct n as [t|e cs]; [reflexivity|]. f_equal. apply IH.
    intros n' Hn'. apply H. cbn [node_at]. rewrite Hn. exact Hn'.
Qed.

Lemma modify_at_fixed (f : element -> element) (p : path) (ns : list node) :
  (forall e, element_at ns p = Some e -> f e = e) -> modify_at f p ns = ns.
Proof.
  intros H. unfold modify_at. apply alter_at_fixed. intros n Hn.
  destruct n as [t|e cs]; [reflexivity|]. f_equal. apply H.
  unfold element_at. now rewrite Hn.
Qed.

Lemma fold_fixed {A B : Type} (f : A -> B -> A) (l : list B) (d : A) :
  (forall b, In b l -> f d b = d) -> fold_left f l d = d.
Proof.
  induction l as [|b l IH]; intros H; [reflexivity|].
  cbn [fold_left]. rewrite (H b) by now left. apply IH. intros b' Hb'. apply H. now right.
Qed.

Lemma classList_add_present (c : string) (e : element) :
  In c (classList e) -> classList (classList_add c e) = classList e.
Proof.
  intros H. unfold classList_add. cbn [classList].
  destruct (existsb (String.eqb c) (classList e)) eqn:Hex; [reflexivity|].
  assert (Ht : existsb (String.eqb c) (classList e) = true).
  { apply existsb_exists. exists c. split; [exact H|apply String.eqb_refl]. }
  congruence.
Qed.

Lemma element_eq (e e' : element) :
  localName e = localName e' -> el_id e = el_id e' -> classList e = classList e' ->
  style e = style e' -> href e = href e' -> e = e'.
Proof. destruct e, e'. simpl. intros; subst; reflexivity. Qed.

Lemma classList_add_same (c : string) (e : element) :
  In c (classList e) -> classList_add c e = e.
Proof. intros H. apply element_eq; try reflexivity. now apply classList_add_present. Qed.

Ltac style_cases j :=
  repeat match goal with
         | |- context [String.eqb j ?w] =>
             let E := fresh in
             destruct (String.eqb j w) eqn:E;
             [apply String.eqb_eq in E; subst j; reflexivity|]
         end;
  repeat match goal with
         | |- context [overlaps ?w j] => destruct (overlaps w j)
         end;
  reflexivity.

(** The three writes of stage 4 can be made in any order. *)
Lemma style_writes_commute (e : element) :
  style_table (style_cell e) = style_cell (style_table e)
  /\ style_table (style_row e) = style_row (style_table e)
  /\ style_cell (style_row e) = style_row (style_cell e).
Proof.
  split; [|split]; (apply element_eq; try reflexivity);
    apply map_eq; intros j; written; style_cases j.
Qed.

(** Each of them, made a second time, changes nothing. *)
Lemma style_writes_idempotent (e : element) :
  style_table (style_table e) = style_table e
  /\ style_cell (style_cell e) = style_cell e
  /\ style_row (style_row e) = style_row e.
Proof.
  split; [|split]; (apply element_eq; try reflexivity);
    try (apply map_eq; intros j; written; style_cases j).
  destruct (style_table_contract e) as ((C1 & C2 & C3 & C4) & _).
  unfold style_table at 1. cbn [classList set_style].
  now rewrite (classList_add_same "table" _ C1),
    (classList_add_same "table-striped" _ C2),
    (classList_add_same "table-bordered" _ C3),
    (classList_add_same "table-hover" _ C4).
Qed.

(** An element that one of the writes leaves as it is, is left as it is
    by that write after any of the three. *)
Lemma fixed_kept (f : element -> element) (e : element) :
  f = style_table \/ f = style_cell \/ f = style_row ->
  f e = e ->
  f (style_table e) = style_table e /\ f (style_cell e) = style_cell e
  /\ f (style_row e) = style_row e.
Proof.
  destruct (style_writes_commute e) as (TC & TR & CR).
  destruct (style_writes_idempotent e) as (TT & CC & RR).
  intros [->|[->| ->]] H.
  - split; [exact TT|]. split; [now rewrite TC, H|now rewrite TR, H].
  - split; [now rewrite <- TC, H|]. split; [exact CC|now rewrite CR, H].
  - split; [now rewrite <- TR, H|]. split; [now rewrite <- CR, H|exact RR].
Qed.

(** Styling a fragment that stage 4 has styled changes nothing. *)
Theorem styling_twice_is_once (dom : list node) :
  style_tables (style_tables dom) = style_tables dom.
Proof.
  destruct (style_tables_gives (fun e => style_table e = e) (fun e => style_cell e = e)
              (fun e => style_row e = e)) with (dom := dom) as (R & _ & E).
  { intros e. apply style_writes_idempotent. }
  { intros e. apply fixed_kept. now left. }
  { intros e. apply style_writes_idempotent. }
  { intros e. apply fixed_kept. right. now left. }
  { intros e. apply style_writes_idempotent. }
  { intros e. apply fixed_kept. right. now right. }
  set (d := style_tables dom) in *.
  unfold style_tables at 1. apply fold_fixed. intros tbl Htbl.
  pose proof (querySelectorAll_path _ _ _ _ Htbl) as Hp.
  apply querySelectorAll_sound in Htbl. destruct Htbl as (Hel & _ & _ & Hm).
  apply matches_sel_table in Hm.
  assert (Htag : (localName <$> element_at dom (loc_path tbl)) = Some "table").
  { destruct (R (loc_path tbl)) as [<- _]. rewrite Hel. simpl. now rewrite Hm. }
  destruct (E _ Htag) as (E1 & E2 & E3).
  unfold style_one_table. set (p := loc_path tbl) in *.
  assert (H1 : modify_at style_table p d = d).
  { apply modify_at_fixed. intros e He. destruct E1 as (e' & He' & Hfix).
    rewrite He in He'. inversion He'; subst e'. exact Hfix. }
  rewrite H1.
  assert (H2 : fold_left (fun d0 cell => modify_at style_cell (p ++ loc_path cell) d0)
                 (querySelectorAll [] sel_cells (children_at d p)) d = d).
  { apply fold_fixed. intros cell Hcell.
    pose proof (querySelectorAll_path _ _ _ _ Hcell) as Hq.
    apply querySelectorAll_sound in Hcell. destruct Hcell as (Hce & _ & _ & Hcm).
    apply matches_sel_cells in Hcm.
    assert (Hct : (localName <$> element_at dom (p ++ loc_path cell))
                  = Some (localName (loc_elem cell))).
    { destruct (R (p ++ loc_path cell)) as [<- _].
      rewrite element_at_app, Hce by assumption. reflexivity. }
    apply modify_at_fixed. intros e He.
    destruct (E2 (loc_path cell) Hq) as (e' & He' & Hfix).
    { rewrite Hct. destruct Hcm as [->| ->]; auto. }
    rewrite He in He'. inversion He'; subst e'. exact Hfix. }
  rewrite H2.
  apply fold_fixed. intros row Hrow.
  pose proof (querySelectorAll_path _ _ _ _ Hrow) as Hq.
  pose proof (selected_row_is_even dom d p row R Hp Hrow) as Heven.
  apply modify_at_fixed. intros e He.
  destruct (E3 (loc_path row) Hq Heven) as (e' & He' & Hfix).
  rewrite He in He'. inversion He'; subst e'. exact Hfix.
Qed.

(* ===================================================================== *)
(** ** More on diagram blocks (lines 20-25) *)
(* ===================================================================== *)

Lemma matches_sel_mermaid (l : located) :
  matches sel_mermaid l = true
  <-> localName (loc_elem l) = "code"
      /\ In "language-mermaid" (classList (loc_elem l))
      /\ exists a, In a (loc_ancestors l) /\ localName (fst a) = "pre".
Proof.
  unfold matches, sel_mermaid, matches_complex, matches_compound.
  cbn [existsb sel_ancestor sel_subject sel_tag sel_class sel_nth_child_even fst snd].
  rewrite orb_false_r, !andb_true_r, !andb_true_iff, String.eqb_eq, !existsb_exists.
  split.
  - intros ((Ht & k & Hk & Heq) & a & Ha & Hpre).
    apply String.eqb_eq in Heq. subst k.
    rewrite !andb_true_r in Hpre. apply String.eqb_eq in Hpre. eauto.
  - intros (Ht & Hk & a & Ha & Hpre). split.
    + split; [exact Ht|]. exists "language-mermaid". split; [exact Hk|].
      apply String.eqb_refl.
    + exists a. split; [exact Ha|]. rewrite !andb_true_r. now apply String.eqb_eq.
Qed.

(** Stage 3 changes nothing in a fragment in which no [code] element of
    class [language-mermaid] is below a [pre]. *)
Theorem no_fenced_diagram_no_change (dom : list node) :
  (forall p e,
     element_at dom p = Some e ->
     localName e = "code" -> In "language-mermaid" (classList e) ->
     forall a, In a (ancestors_at dom p) -> localName (fst a) <> "pre") ->
  convert_diagrams dom = dom.
Proof.
  intros H. unfold convert_diagrams.
  destruct (querySelectorAll [] sel_mermaid dom) as [|b bs] eqn:Hq; [reflexivity|].
  exfalso.
  assert (Hb : In b (querySelectorAll [] sel_mermaid dom)) by (rewrite Hq; now left).
  apply querySelectorAll_sound in Hb. destruct Hb as (He & _ & Hanc & Hm).
  apply matches_sel_mermaid in Hm. destruct Hm as (Ht & Hk & a & Ha & Hpre).
  rewrite Hanc, app_nil_r in Ha. exact (H _ _ He Ht Hk a Ha Hpre).
Qed.

Lemma no_fenced_diagram_no_change_witness :
  convert_diagrams [ tag "p" [ tag_class "code" "language-mermaid" [txt "graph TD"] ] ]
  = [ tag "p" [ tag_class "code" "language-mermaid" [txt "graph TD"] ] ].
Proof.
  apply (no_fenced_diagram_no_change
           [ tag "p" [ tag_class "code" "language-mermaid" [txt "graph TD"] ] ]).
  intros [|[|i] [|[|j] [|[|k] [|m r]]]] e He Ht Hk a Ha;
    try discriminate; vm_compute in Ha.
  - destruct Ha.
  - destruct Ha as [<-|[]]. discriminate.
Defined.

(** Stage 3 leaves every node as it is that is neither a replaced node,
    nor below one, nor above one. *)
Theorem conversion_leaves_the_rest (hd : list node) (p : path) :
  (forall b, In b (querySelectorAll [] sel_mermaid hd) ->
             is_prefix (removelast (loc_path b)) p = false
             /\ is_prefix p (removelast (loc_path b)) = false) ->
  node_at (convert_diagrams hd) p = node_at hd p.
Proof.
  intros H. unfold convert_diagrams.
  destruct (convert_fold_before p (querySelectorAll [] sel_mermaid hd)) with (st := (hd, @nil path))
    as [Hn _]; [| |exact Hn].
  - intros b Hb. destruct (H b Hb) as [H1 H2]. split; [exact H1|].
    now apply is_prefix_false_strip.
  - intros q [].
Qed.

Lemma conversion_leaves_the_rest_witness :
  node_at (convert_diagrams diagram_doc) [0%nat] = node_at diagram_doc [0%nat].
Proof.
  apply (conversion_leaves_the_rest diagram_doc [0%nat]).
  intros b Hb. vm_compute in Hb. destruct Hb as [<-|[]]. split; reflexivity.
Defined.

(* ===================================================================== *)
(** ** The stages together *)
(* ===================================================================== *)

Lemma path_lt_asym (p q : path) : path_lt p q -> path_lt q p -> False.
Proof.
  revert q. induction p as [|i p IH]; intros [|j q]; simpl; try tauto.
  intros [H1|[-> H1]] [H2|[H2 H3]]; try lia. eauto.
Qed.

Lemma sorted_paths (l : list located) :
  StronglySorted loc_lt l -> StronglySorted path_lt (map loc_path l).
Proof.
  induction 1 as [|a l Hs IH Ha]; [constructor|].
  cbn [map]. constructor; [exact IH|].
  apply Forall_forall. intros q Hq. apply list_elem_of_In, in_map_iff in Hq.
  destruct Hq as (b & <- & Hb).
  rewrite Forall_forall in Ha. apply Ha. now apply list_elem_of_In.
Qed.

(** Two lists of addresses in document order that hold the same
    addresses are one list. *)
Lemma sorted_paths_ext (l1 : list path) :
  forall l2, StronglySorted path_lt l1 -> StronglySorted path_lt l2 ->
             (forall p, In p l1 <-> In p l2) -> l1 = l2.
Proof.
  induction l1 as [|a l1 IH]; intros [|b l2] S1 S2 H.
  - reflexivity.
  - destruct (proj2 (H b) (or_introl eq_refl)).
  - destruct (proj1 (H a) (or_introl eq_refl)).
  - apply StronglySorted_inv in S1. destruct S1 as [S1 F1].
    apply StronglySorted_inv in S2. destruct S2 as [S2 F2].
    rewrite Forall_forall in F1, F2.
    assert (Hab : a = b).
    { destruct (proj1 (H a) (or_introl eq_refl)) as [Hb|Hb]; [now symmetry|].
      destruct (proj2 (H b) (or_introl eq_refl)) as [Ha|Ha]; [exact Ha|].
      exfalso. apply (path_lt_asym a b).
      - apply F1. now apply list_elem_of_In.
      - apply F2. now apply list_elem_of_In. }
    subst b. f_equal. apply IH; [exact S1|exact S2|].
    intros p. split; intros Hp.
    + destruct (proj1 (H p) (or_intror Hp)) as [<-|Hq]; [|exact Hq].
      exfalso. apply (path_lt_irrefl a). apply F1. now apply list_elem_of_In.
    + destruct (proj2 (H p) (or_intror Hp)) as [<-|Hq]; [|exact Hq].
      exfalso. apply (path_lt_irrefl a). apply F2. now apply list_elem_of_In.
Qed.

(** Where line 85 finds a heading. *)
Lemma heading_paths (d : list node) (p : path) :
  In p (map loc_path (querySelectorAll [] sel_headings d))
  <-> exists t, (localName <$> element_at d p) = Some t /\ In t ["h1"; "h2"; "h3"].
Proof.
  split.
  - intros Hin. apply in_map_iff in Hin. destruct Hin as (k & <- & Hk).
    apply querySelectorAll_sound in Hk. destruct Hk as (He & _ & _ & Hm).
    apply matches_sel_headings in Hm. exists (localName (loc_elem k)).
    rewrite He. split; [reflexivity|]. simpl. destruct Hm as [E | [E | E]]; rewrite E; auto.
  - intros (t & Ht & Hin).
    destruct (element_at d p) as [e|] eqn:He; [|discriminate].
    simpl in Ht. inversion Ht; subst t.
    destruct (querySelectorAll_complete [] sel_headings d p e He) as (k & Hk & Hp & _).
    { intros l _ Hl _ _. apply matches_sel_headings. rewrite Hl.
      simpl in Hin. destruct Hin as [E | [E | [E | []]]]; rewrite <- E; auto. }
    apply in_map_iff. exists k. auto.
Qed.

(** Fragments that differ in nothing but properties other than the tag
    have their headings at the same addresses. *)
Lemma restyles_headings (d d' : list node) :
  restyles d d' ->
  map loc_path (querySelectorAll [] sel_headings d')
  = map loc_path (querySelectorAll [] sel_headings d).
Proof.
  intros R. apply sorted_paths_ext.
  - apply sorted_paths, querySelectorAll_sorted.
  - apply sorted_paths, querySelectorAll_sorted.
  - intros p. rewrite !heading_paths. destruct (R p) as [-> _]. reflexivity.
Qed.

(** What a completed pass leaves in the navigation target of a page
    that has the marker: the one list of the headings that the render
    target shows at the end, in document order, each entry with the text
    of its heading for a label and, for its [href], "#" and the
    identifier that the heading shows; or what the navigation target
    held before, if the render target shows no heading. *)
Theorem nav_lists_the_headings_shown (x : externals) (pg : page) (c : render_target)
    (md : jsstring) (old : list node) :
  markdown_container pg = Some c ->
  fetch_gives x (dataset_file c) md ->
  fst (render x md (with_event (Fetch (dataset_file c)) pg)) = inr tt ->
  toc_content_auto pg = true ->
  TableOfContents pg = Some old ->
  match querySelectorAll [] sel_headings (current_fragment (viewer x pg)) with
  | [] => TableOfContents (viewer x pg) = Some old
  | shown =>
      exists entries,
        TableOfContents (viewer x pg) = Some [Element (createElement "ul") entries]
        /\ Forall flat_entry entries
        /\ map entry_label entries
           = map (fun k => textContent_at (current_fragment (viewer x pg)) (loc_path k)) shown
        /\ map entry_href entries = map (fun k => str "#" ++ el_id (loc_elem k)) shown
  end.
Proof.
  intros Hc Hf Hr Ha Ht. rewrite (viewer_fetched _ _ _ _ Hc Hf). unfold catch.
  destruct (render x md (with_event (Fetch (dataset_file c)) pg)) as [[e|[]] pg'] eqn:Hrun;
    cbn [fst] in Hr; [discriminate|]. cbn [snd].
  destruct (render_reaches_toc x md (with_event (Fetch (dataset_file c)) pg) pg')
    as (html & hd & _ & _ & mid & -> & _ & Hauto & Htoc & Hmid & _); [|exact Hrun|].
  { cbn [markdown_container with_event]. congruence. }
  cbn [toc_content_auto TableOfContents with_event] in Hauto, Htoc.
  destruct (generate_toc_result mid old) as [R1 R2];
    [congruence|exact Hmid|congruence|].
  set (frag := current_fragment mid) in *.
  set (hs := querySelectorAll [] sel_headings frag) in *.
  set (F := current_fragment (snd (generate_toc mid))) in *.
  assert (HR : restyles frag F).
  { rewrite R1. apply with_ids_restyles, restyles_refl. }
  pose proof (restyles_headings frag F HR) as Hpaths. fold hs in Hpaths.
  pose proof (headings_NoDup frag) as Hnd. fold hs in Hnd.
  assert (Hid : forall h, In h hs ->
                  element_at F (loc_path h) = Some (set_id (heading_id frag h) (loc_elem h))).
  { intros h Hh. rewrite R1, (with_ids_at _ _ Hnd _ _ Hh).
    apply querySelectorAll_sound in Hh. destruct Hh as (He & _). now rewrite He. }
  destruct (querySelectorAll [] sel_headings F) as [|k ks] eqn:HF.
  - destruct hs as [|h hs']; [exact R2|discriminate].
  - destruct hs as [|h hs'] eqn:Hhs; [discriminate|].
    exists (toc_items frag 0 (h :: hs')). split; [exact R2|].
    split; [apply toc_items_flat|]. split.
    + rewrite toc_items_labels.
      rewrite <- (map_map loc_path (fun p => textContent_at F p) (k :: ks)), Hpaths, map_map.
      apply map_ext. intros a. rewrite R1. now rewrite with_ids_textContent.
    + rewrite toc_items_hrefs.
      assert (Hshown : map (fun k0 => str "#" ++ el_id (loc_elem k0)) (k :: ks)
                       = map (fun p => str "#" ++ match element_at F p with
                                                  | Some e => el_id e
                                                  | None => []
                                                  end) (map loc_path (k :: ks))).
      { rewrite map_map. apply map_ext_in. intros a Hin.
        rewrite <- HF in Hin. apply querySelectorAll_sound in Hin.
        destruct Hin as (He & _). now rewrite He. }
      rewrite Hshown, Hpaths, map_map. apply map_ext_in. intros a Hin.
      now rewrite (Hid a Hin).
Qed.

Lemma nav_lists_the_headings_shown_witness :
  exists entries,
    TableOfContents (viewer mixed_externals (blank_page (Some (str "post.md"))))
    = Some [Element (createElement "ul") entries]
    /\ Forall flat_entry entries
    /\ map entry_label entries = [str "Guide"; str "Next steps"]
    /\ map entry_href entries = [str "#guide"; str "#next-steps"].
Proof.
  exact (nav_lists_the_headings_shown mixed_externals (blank_page (Some (str "post.md")))
           {| dataset_file := Some (str "post.md"); fragment := [] |} (str "# Title") []
           eq_refl
           (ex_intro _ {| ok := true; status := 200; text := inr (str "# Title") |}
              (conj eq_refl (conj eq_refl eq_refl)))
           eq_refl eq_refl eq_refl).
Defined.

(** The pass on [mixed_doc]: the diagram block has become the [div],
    the table has its classes, and the two headings have their
    identifiers. *)
Lemma mixed_doc_rendered :
  map (fun p => (localName <$> element_at
                   (current_fragment (viewer mixed_externals (blank_page (Some (str "post.md")))))
                   p,
                 el_id <$> element_at
                   (current_fragment (viewer mixed_externals (blank_page (Some (str "post.md")))))
                   p,
                 classList <$> element_at
                   (current_fragment (viewer mixed_externals (blank_page (Some (str "post.md")))))
                   p))
      [[0%nat]; [1%nat]; [2%nat]; [3%nat]]
  = [ (Some "h1", Some (str "guide"), Some []);
      (Some "div", Some [], Some ["mermaid"]);
      (Some "table", Some [],
       Some ["table"; "table-striped"; "table-bordered"; "table-hover"]);
      (Some "h2", Some (str "next-steps"), Some []) ].
Proof. vm_compute. reflexivity. Qed.

Lemma console_library_present (x : externals) (evs : list event) :
  Forall is_console evs -> Forall (library_present x) evs.
Proof. intros H. eapply Forall_impl; [exact H|]. intros [] Hc; exact I || destruct Hc. Qed.

Ltac guarded_so_far :=
  cbn [snd events with_event with_fragment]; rewrite <- ?app_assoc; cbn [app];
  eexists; split; [reflexivity|repeat (constructor; [first [exact I|eassumption]|])];
  constructor.

Ltac guarded_toc x :=
  let evs := fresh "evs" in
  let He := fresh in
  let Hc := fresh in
  match goal with
  | |- context [generate_toc ?p] =>
      destruct (generate_toc_returns p) as [_ (evs & He & Hc)]; rewrite He;
      cbn [events with_event with_fragment]; rewrite <- ?app_assoc; cbn [app];
      eexists; split; [reflexivity|];
      repeat (constructor; [first [exact I|eassumption]|]);
      apply (console_library_present x); exact Hc
  end.

(** The callback of line 12 calls a library only behind its guard. *)
Lemma render_guarded (x : externals) (md : jsstring) (pg : page) :
  exists evs,
    events (snd (render x md pg)) = events pg ++ evs /\ Forall (library_present x) evs.
Proof.
  run_chain.
  destruct (marked_parse x md) as [e1|html]; cbv beta iota zeta; [guarded_so_far|].
  destruct (hljs_highlightAll x _) as [e2|hd]; cbv beta iota zeta; [guarded_so_far|].
  destruct (window_mermaid x) eqn:Hm; cbv beta iota zeta.
  - destruct (mermaid_initialize x) as [e3|]; cbv beta iota zeta; [guarded_so_far|].
    destruct (mermaid_run x _) as [e4|]; cbv beta iota zeta; [guarded_so_far|].
    destruct (window_MathJax x) eqn:Hj; cbv beta iota zeta.
    + destruct (MathJax_typesetPromise x _) as [e5|]; cbv beta iota zeta; [guarded_so_far|].
      guarded_toc x.
    + guarded_toc x.
  - destruct (window_MathJax x) eqn:Hj; cbv beta iota zeta.
    + destruct (MathJax_typesetPromise x _) as [e5|]; cbv beta iota zeta; [guarded_so_far|].
      guarded_toc x.
    + guarded_toc x.
Qed.

(** Whatever happens, the viewer calls [mermaid.initialize] and
    [mermaid.run] only on a page that has [window.mermaid], and
    [MathJax.typesetPromise] only on a page that has [window.MathJax]. *)
Theorem absent_libraries_are_not_called (x : externals) (pg : page) :
  exists evs,
    events (viewer x pg) = events pg ++ evs /\ Forall (library_present x) evs.
Proof.
  destruct (markdown_container pg) as [c|] eqn:Hc.
  2: { exists []. unfold viewer. rewrite Hc, app_nil_r. split; [reflexivity|constructor]. }
  assert (Hfail : forall err, fetch_fails x (dataset_file c) err ->
            exists evs, events (viewer x pg) = events pg ++ evs
                        /\ Forall (library_present x) evs).
  { intros err Hf. rewrite (viewer_failed x pg c err Hc Hf).
    cbn [events with_event with_fragment]. rewrite <- app_assoc.
    eexists. split; [reflexivity|]. repeat constructor. }
  destruct (fetch x (dataset_file c)) as [err|res] eqn:Hf.
  { apply (Hfail err). now left. }
  destruct (ok res) eqn:Hok.
  2: { eapply Hfail. right. left. exists res. repeat split; [exact Hf|exact Hok]. }
  destruct (text res) as [err|md] eqn:Ht.
  { apply (Hfail err). right. right. exists res. repeat split; assumption. }
  rewrite (viewer_fetched x pg c md Hc)
    by (exists res; repeat split; assumption).
  unfold catch.
  destruct (render_guarded x md (with_event (Fetch (dataset_file c)) pg)) as (evs & He & Hn).
  destruct (render x md (with_event (Fetch (dataset_file c)) pg)) as [[e|[]] pg'];
    cbn [snd] in He.
  - unfold on_rejected, bind, put_fragment, console, emit.
    cbn [snd events with_event with_fragment]. rewrite He.
    cbn [events with_event]. rewrite <- !app_assoc.
    exists ([Fetch (dataset_file c)] ++ evs ++ [Console (ConsoleError e)]).
    split; [reflexivity|].
    apply Forall_app. split; [repeat constructor|].
    apply Forall_app. split; [exact Hn|repeat constructor].
  - cbn [snd]. rewrite He. cbn [events with_event]. rewrite <- !app_assoc.
    exists ([Fetch (dataset_file c)] ++ evs). split; [reflexivity|].
    apply Forall_app. split; [repeat constructor|exact Hn].
Qed.
